(** * ORBAT/parallel: bounded-concurrency dispatch, counting semaphore and
      lock-free error aggregation (parallel.go)

    The Go package is modelled as it is written:
    - [Semaphore] is a buffered channel of empty structs; a send on a full
      channel and a receive on an empty one block, which the operations below
      render as [None] (the caller cannot complete in this state);
    - [Errors] is a pointer to an immutable slice, swapped by compare-and-swap;
      slices live in an append-only heap and pointers are heap addresses;
    - [Func.Do] and [Funcs.Do] start one goroutine per unit of work; the
      goroutines and the caller are interleaved by a step relation on the
      shared state.  Go's atomics and channels are sequentially consistent, so
      an interleaving of atomic steps is the memory model of this program;
    - the link collector of the package's example ([StringSet], [parseLinks],
      [HTMLLinks], [Scrape]) works on Go maps, which are references: the map
      objects live in a store and a set is nil or a position in it, so that
      writes in place and copies that share a map are what they are in Go.
      net/http, net/url and x/net/html are external and enter as type
      classes. *)

From Stdlib Require Import ZArith Lia List Permutation.

From stdpp Require Import base tactics option list gmap strings.

Import ListNotations.

Local Open Scope Z_scope.

(** ** Semaphore: [type Semaphore chan struct{}] *)

Module Semaphore.

(** A buffered channel: its capacity [cap(s)] and the number of elements
    currently buffered [len(s)].  Every element is [struct{}{}]. *)
Record t : Type := mk { cap : Z; len : Z }.

(** A token is available for each free slot of the buffer. *)
Definition available (s : t) : Z := cap s - len s.

Inductive construction : Type :=
| Built (s : t)
| PanicMaxLt1 (max : Z).   (* panic(fmt.Errorf("NewSemaphore called with max < 1: %d", max)) *)

(** [func NewSemaphore(max int) Semaphore] *)
Definition NewSemaphore (max : Z) : construction :=
  if max <? 1 then PanicMaxLt1 max else Built {| cap := max; len := 0 |}.

(** [s <- struct{}{}]: completes when the buffer has room, blocks otherwise. *)
Definition send (s : t) : option t :=
  if len s <? cap s then Some {| cap := cap s; len := len s + 1 |} else None.

(** [<-s]: completes when the buffer holds an element, blocks otherwise. *)
Definition recv (s : t) : option t :=
  if 0 <? len s then Some {| cap := cap s; len := len s - 1 |} else None.

(** [func (s Semaphore) Acquire()] *)
Definition Acquire (s : t) : option t := send s.

(** [func (s Semaphore) Release()] *)
Definition Release (s : t) : option t := recv s.

(** The two [func()] values the package hands out as release actions:
    the method value [s.Release] and [noop]. *)
Inductive release : Type := s_Release | noop.

(** Invoking a release action. [func noop() {}] returns at once. *)
Definition call (r : release) (s : t) : option t :=
  match r with
  | s_Release => Release s
  | noop => Some s
  end.

(** [func (s Semaphore) AcquireRelease() (release func())] *)
Definition AcquireRelease (s : t) : option (t * release) :=
  match send s with
  | Some s' => Some (s', s_Release)
  | None => None
  end.

(** [func (s Semaphore) MaybeAcquire() (ok bool, release func())]:
    a [select] with a [default] branch never blocks, so the result is total. *)
Definition MaybeAcquire (s : t) : bool * release * t :=
  match send s with
  | Some s' => (true, s_Release, s')
  | None => (false, noop, s)
  end.

(** The operations callers can issue, in any number and any order.  [OCall r]
    is the invocation of a release action obtained earlier. *)
Inductive op : Type :=
| OAcquire | ORelease | OAcquireRelease | OMaybeAcquire | OCall (r : release).

(** The channel after the operation completes; [None] while it blocks. *)
Definition complete (o : op) (s : t) : option t :=
  match o with
  | OAcquire => Acquire s
  | ORelease => Release s
  | OAcquireRelease => fst <$> AcquireRelease s
  | OMaybeAcquire => Some (snd (MaybeAcquire s))
  | OCall r => call r s
  end.

(** A caller whose operation blocks leaves the channel as it is; the other
    callers go on.  The channel serialises the operations, so a history of
    any number of concurrent callers is a list of attempted operations. *)
Definition attempt (s : t) (o : op) : t :=
  match complete o s with
  | Some s' => s'
  | None => s
  end.

Definition history (ops : list op) (s : t) : t := fold_left attempt ops s.

Definition in_range (s : t) : Prop := 0 <= available s <= cap s.

End Semaphore.

(** Non-nil values of Go's [error] interface; [option error] is an [error]
    that may be nil. *)
Class ErrorValues : Type :=
  error : Type.

(** [multierr.Combine] of go.uber.org/multierr, the external collaborator
    that turns the stored errors into one error value. *)
Class Multierr {errors : ErrorValues} : Type :=
  Combine : list error → option error.

(** What [runtime.GOMAXPROCS(0)] reports: a positive number of processors. *)
Class Runtime : Type :=
  gomaxprocs : positive.

(** ** The dispatcher: [Func], [Funcs], [Errors] *)

Section Parallel.

Context {errors : ErrorValues} {multierr : Multierr} {runtime : Runtime}.

(** [var maxproc = runtime.GOMAXPROCS(0)] *)
Definition maxproc : Z := Z.pos gomaxprocs.

(** [type Func func(idx int) error].  A task is opaque to the dispatcher:
    what matters is that it is entered with an index and eventually returns
    an error or nil. *)
Definition Func : Type := Z → option error.

(** [type Funcs []Func] *)
Definition Funcs : Type := list Func.

(** [func (fns *Funcs) Add(op Func)] *)
Definition Funcs_Add (fns : Funcs) (op : Func) : Funcs := fns ++ [op].

(** *** Goroutine bodies and Go's [defer]

    [doOne] and [doOp] differ only in what they defer, so the bodies are
    written as statements and unfolded by the rule of the Go specification:
    a [defer] statement evaluates the function value of the call now and runs
    the call itself when the surrounding function returns, last deferred
    first. *)

(** Function values that occur in the two bodies. *)
Inductive fval : Type :=
| wg_Done                (* wg.Done *)
| sema_AcquireRelease    (* sema.AcquireRelease *)
| sema_Release.          (* s.Release, the result of AcquireRelease *)

(** An expression that denotes a function: a method value [f], or the
    result [e()] of calling another such expression. *)
Inductive expr : Type :=
| EFun (f : fval)
| EApp (e : expr).

Inductive stmt : Type :=
| SDefer (callee : expr)   (* defer callee() *)
| SAddFn.                  (* errs.Add(fn(i)) *)

(** Atomic actions of a goroutine. *)
Inductive instr : Type :=
| IAcquire    (* s <- struct{}{}   inside AcquireRelease *)
| IRelease    (* <-s               inside Release *)
| ICall       (* fn(i) is entered *)
| IRet        (* fn(i) returns *)
| IAdd        (* errs.Add(err), see [add_pc] *)
| IDone.      (* wg.Done() *)

#[global] Instance instr_eq_dec : EqDecision instr.
Proof. solve_decision. Defined.

(** Calling a function value: the actions of its body and the function it
    returns, if it returns one. *)
Definition invoke (f : fval) : list instr * option fval :=
  match f with
  | wg_Done => ([IDone], None)
  | sema_AcquireRelease => ([IAcquire], Some sema_Release)
  | sema_Release => ([IRelease], None)
  end.

Fixpoint eval (e : expr) : option (list instr * fval) :=
  match e with
  | EFun f => Some ([], f)
  | EApp e' =>
      '(pre, f) ← eval e';
      r ← (invoke f).2;
      Some (pre ++ (invoke f).1, r)
  end.

(** The actions of a body, given the stack of calls deferred so far. *)
Fixpoint unfold_body (ss : list stmt) (deferred : list fval) : option (list instr) :=
  match ss with
  | [] => Some (flat_map (λ f, (invoke f).1) deferred)
  | SDefer e :: ss' =>
      '(pre, f) ← eval e;
      rest ← unfold_body ss' (f :: deferred);
      Some (pre ++ rest)
  | SAddFn :: ss' =>
      rest ← unfold_body ss' deferred;
      Some ([ICall; IRet; IAdd] ++ rest)
  end.

(** [func (fn Func) doOne(i int, wg *sync.WaitGroup, sema Semaphore, errs *Errors)] *)
Definition doOne : list stmt :=
  [ SDefer (EFun wg_Done);                    (* defer wg.Done() *)
    SDefer (EFun sema_AcquireRelease);        (* defer sema.AcquireRelease() *)
    SAddFn ].                                 (* errs.Add(fn(i)) *)

(** [func doOp(i int, wg *sync.WaitGroup, fn Func, sema Semaphore, errs *Errors)] *)
Definition doOp : list stmt :=
  [ SDefer (EFun wg_Done);                    (* defer wg.Done() *)
    SDefer (EApp (EFun sema_AcquireRelease)); (* defer sema.AcquireRelease()() *)
    SAddFn ].                                 (* errs.Add(fn(i)) *)

Definition code_of (body : list stmt) : list instr :=
  default [] (unfold_body body []).

(** *** Shared state *)

Inductive panic : Type :=
| PanicNewSemaphore (max : Z)   (* NewSemaphore called with max < 1 *)
| PanicNegativeWaitGroup        (* sync: negative WaitGroup counter *)
| PanicNilDereference.          (* *current with current == nil *)

(** What an observer of a run sees, tagged with the unit of work. *)
Inductive event : Type :=
| EvAcquire (u : nat)
| EvCall (u : nat) (idx : Z)
| EvReturn (u : nat) (err : option error)
| EvAdded (u : nat)
| EvRelease (u : nat)
| EvDone (u : nat).

Definition unit_of (e : event) : nat :=
  match e with
  | EvAcquire u | EvCall u _ | EvReturn u _ | EvAdded u | EvRelease u | EvDone u => u
  end.

(** Program points of [func (p *Errors) Add(err error)]. *)
Inductive add_pc : Type :=
| AddEntry                                (* if err == nil { return } *)
| AddInit (err : error)                   (* CompareAndSwapPointer(pointerToP, nil, new([]error)) *)
| AddLoad (err : error)                   (* retry: current := LoadPointer(pointerToP) *)
| AddSwap (err : error) (current : option nat).
                                          (* newVal := append(append(make(..), err), *current...)
                                             ok := CompareAndSwapPointer(pointerToP, current, &newVal) *)

Record goroutine : Type := mkG {
  g_id : nat;              (* the unit of work it was started for *)
  g_fn : Func;             (* fn *)
  g_idx : Z;               (* i *)
  g_past : list instr;     (* actions done, latest first *)
  g_code : list instr;     (* actions to do *)
  g_err : option error;    (* the value of fn(i), once it has returned *)
  g_add : add_pc;          (* where it stands inside errs.Add *)
}.

(** [sema], [wg] and [errs] of one call of [Do]; [heap] holds the slices
    allocated by [Add], addressed by position, and is only ever extended:
    [Add] never writes to a slice it has published. *)
Record shared : Type := mkS {
  sema : Semaphore.t;
  wg : Z;                        (* sync.WaitGroup counter *)
  heap : list (list error);
  errs : option nat;             (* Errors.errs, a *[]error *)
  trace : list event;            (* latest first *)
  panicked : option panic;
}.

Record state : Type := mkState {
  sh : shared;
  gos : list goroutine;
  returned : option (option error);   (* None while the caller is in wg.Wait() *)
}.

Definition deref (h : list (list error)) (a : nat) : list error :=
  default [] (h !! a).

(** [func (p Errors) List() []error] *)
Definition Errors_List (h : list (list error)) (p : option nat) : list error :=
  match p with
  | None => []
  | Some a => deref h a
  end.

(** [func (p Errors) Err() error] *)
Definition Errors_Err (h : list (list error)) (p : option nat) : option error :=
  match p with
  | None => None
  | Some a => Combine (deref h a)
  end.

Definition set_sema (sm : Semaphore.t) (s : shared) : shared :=
  mkS sm (wg s) (heap s) (errs s) (trace s) (panicked s).

Definition set_wg (n : Z) (s : shared) : shared :=
  mkS (sema s) n (heap s) (errs s) (trace s) (panicked s).

(** Allocate a slice and make [errs] point to it. *)
Definition publish (l : list error) (s : shared) : shared :=
  mkS (sema s) (wg s) (heap s ++ [l]) (Some (length (heap s))) (trace s) (panicked s).

Definition emit (e : event) (s : shared) : shared :=
  mkS (sema s) (wg s) (heap s) (errs s) (e :: trace s) (panicked s).

Definition crash (p : panic) (s : shared) : shared :=
  mkS (sema s) (wg s) (heap s) (errs s) (trace s) (Some p).

(** The goroutine after action [i], with [k] left to do. *)
Definition advance (g : goroutine) (i : instr) (k : list instr) : goroutine :=
  mkG (g_id g) (g_fn g) (g_idx g) (i :: g_past g) k (g_err g) AddEntry.

Definition set_err (e : option error) (g : goroutine) : goroutine :=
  mkG (g_id g) (g_fn g) (g_idx g) (g_past g) (g_code g) e (g_add g).

Definition goto (pc : add_pc) (g : goroutine) : goroutine :=
  mkG (g_id g) (g_fn g) (g_idx g) (g_past g) (g_code g) (g_err g) pc.

(** One atomic action of a goroutine on the shared state; [None] when the
    goroutine has finished or is blocked on the channel. *)
Definition exec (g : goroutine) (s : shared) : option (goroutine * shared) :=
  match g_code g with
  | [] => None
  | IAcquire :: k =>
      '(sm, _) ← Semaphore.AcquireRelease (sema s);
      Some (advance g IAcquire k, emit (EvAcquire (g_id g)) (set_sema sm s))
  | IRelease :: k =>
      sm ← Semaphore.Release (sema s);
      Some (advance g IRelease k, emit (EvRelease (g_id g)) (set_sema sm s))
  | ICall :: k =>
      Some (advance g ICall k, emit (EvCall (g_id g) (g_idx g)) s)
  | IRet :: k =>
      let r := g_fn g (g_idx g) in
      Some (set_err r (advance g IRet k), emit (EvReturn (g_id g) r) s)
  | IAdd :: k =>
      match g_add g with
      | AddEntry =>
          match g_err g with
          | None => Some (advance g IAdd k, emit (EvAdded (g_id g)) s)
          | Some e => Some (goto (AddInit e) g, s)
          end
      | AddInit e =>
          Some (goto (AddLoad e) g,
                match errs s with None => publish [] s | Some _ => s end)
      | AddLoad e => Some (goto (AddSwap e (errs s)) g, s)
      | AddSwap e None => Some (g, crash PanicNilDereference s)
      | AddSwap e (Some c) =>
          if decide (errs s = Some c)
          then Some (advance g IAdd k,
                     emit (EvAdded (g_id g)) (publish (e :: deref (heap s) c) s))
          else Some (goto (AddLoad e) g, s)
      end
  | IDone :: k =>
      if wg s - 1 <? 0 then Some (g, crash PanicNegativeWaitGroup s)
      else Some (advance g IDone k, emit (EvDone (g_id g)) (set_wg (wg s - 1) s))
  end.

(** Who moves next: goroutine number [i], or the caller of [Do]. *)
Inductive mover : Type := Go (i : nat) | Caller.

(** A panic ends the process.  The caller leaves [wg.Wait()] when the counter
    is zero and returns [errs.Err()]. *)
Definition move (m : mover) (s : state) : option state :=
  match panicked (sh s) with
  | Some _ => None
  | None =>
      match m with
      | Go i =>
          g ← gos s !! i;
          '(g', s') ← exec g (sh s);
          Some (mkState s' (<[i:=g']> (gos s)) (returned s))
      | Caller =>
          match returned s with
          | Some _ => None
          | None =>
              if wg (sh s) =? 0
              then Some (mkState (sh s) (gos s)
                           (Some (Errors_Err (heap (sh s)) (errs (sh s)))))
              else None
          end
      end
  end.

Definition step (s s' : state) : Prop := ∃ m, move m s = Some s'.

Inductive reachable (s0 : state) : state → Prop :=
| reach_init : reachable s0 s0
| reach_step s s' : reachable s0 s → step s s' → reachable s0 s'.

(** No goroutine and not the caller can move. *)
Definition quiescent (s : state) : Prop := ∀ m, move m s = None.

(** A schedule is a list of movers; a mover that cannot move is skipped. *)
Fixpoint run (sched : list mover) (s : state) : state :=
  match sched with
  | [] => s
  | m :: sched' => run sched' (default s (move m s))
  end.

(** *** [Do] *)

Inductive outcome : Type :=
| Returns (err : option error)   (* Do returns without starting anything *)
| Panics (p : panic)
| Spawns (s : state).            (* the goroutines are started, the caller waits *)

(** [max := maxproc; if len(maxParallel) != 0 && maxParallel[0] > 0 { max = maxParallel[0] }] *)
Definition cap_of (maxParallel : list Z) : Z :=
  match maxParallel with
  | c :: _ => if 0 <? c then c else maxproc
  | [] => maxproc
  end.

Definition spawn (body : list stmt) (u : nat) (fn : Func) : goroutine :=
  mkG u fn (Z.of_nat u) [] (code_of body) None AddEntry.

(** The state once every [go] statement has run.  A goroutine that was
    started and has not moved yet is indistinguishable from one that is
    still to be started, so the loop of [go] statements is not interleaved
    with the goroutines. [tr] is what was observed before the call. *)
Definition started (body : list stmt) (fns : list Func) (sm : Semaphore.t)
    (tr : list event) : state :=
  mkState (mkS sm (Z.of_nat (length fns)) [] None tr None)
          (imap (spawn body) fns) None.

(** [func (fn Func) Do(count int, maxParallel ...int) (err error)] *)
Definition Func_Do (fn : Func) (count : Z) (maxParallel : list Z)
    (tr : list event) : outcome :=
  if count =? 0 then Returns None
  else
    let max := cap_of maxParallel in
    if count <? 0 then Panics PanicNegativeWaitGroup      (* wg.Add(count) *)
    else
      match Semaphore.NewSemaphore max with
      | Semaphore.PanicMaxLt1 m => Panics (PanicNewSemaphore m)
      | Semaphore.Built sm =>
          Spawns (started doOne (replicate (Z.to_nat count) fn) sm tr)
      end.

(** [func (fns Funcs) Do(maxParallel ...int) error] *)
Definition Funcs_Do (fns : Funcs) (maxParallel : list Z)
    (tr : list event) : outcome :=
  if decide (length fns = 0%nat) then Returns None
  else
    let max := cap_of maxParallel in
    match Semaphore.NewSemaphore max with
    | Semaphore.PanicMaxLt1 m => Panics (PanicNewSemaphore m)
    | Semaphore.Built sm => Spawns (started doOp fns sm tr)
    end.

(** *** Bookkeeping on goroutines *)

Fixpoint occ (i : instr) (l : list instr) : Z :=
  match l with
  | [] => 0
  | j :: l' => (if decide (j = i) then 1 else 0) + occ i l'
  end.

(** Tokens the goroutine has put into the channel and not taken back. *)
Definition holds (g : goroutine) : Z :=
  occ IAcquire (g_past g) - occ IRelease (g_past g).

Definition dones (g : goroutine) : Z := occ IDone (g_past g).

(** The task body is executing: [fn(i)] was entered and has not returned. *)
Definition in_body (g : goroutine) : Z :=
  match g_past g with
  | ICall :: _ => 1
  | _ => 0
  end.

Fixpoint total (f : goroutine → Z) (l : list goroutine) : Z :=
  match l with
  | [] => 0
  | g :: l' => f g + total f l'
  end.

(** How many task bodies are executing at once. *)
Definition running (s : state) : Z := total in_body (gos s).

Definition event_of (g : goroutine) (i : instr) : event :=
  match i with
  | IAcquire => EvAcquire (g_id g)
  | IRelease => EvRelease (g_id g)
  | ICall => EvCall (g_id g) (g_idx g)
  | IRet => EvReturn (g_id g) (g_fn g (g_idx g))
  | IAdd => EvAdded (g_id g)
  | IDone => EvDone (g_id g)
  end.

(** What the goroutine has contributed to the trace, latest first. *)
Definition events_of (g : goroutine) : list event :=
  map (event_of g) (g_past g).

(** The events of unit [u] in a trace. *)
Definition proj (u : nat) (tr : list event) : list event :=
  List.filter (λ e, Nat.eqb (unit_of e) u) tr.

(** The task invocations of a trace: unit and index argument. *)
Definition calls (tr : list event) : list (nat * Z) :=
  omap (λ e, match e with EvCall u i => Some (u, i) | _ => None end) tr.

(** The error the goroutine has handed to the aggregator, if any. *)
Definition recorded (g : goroutine) : list error :=
  if decide (IAdd ∈ g_past g) then option_list (g_fn g (g_idx g)) else [].

(** Classifiers of the events of one unit. *)
Definition is_acquire (u : nat) (e : event) : bool :=
  match e with EvAcquire v => Nat.eqb v u | _ => false end.

Definition is_call (u : nat) (e : event) : bool :=
  match e with EvCall v i => Nat.eqb v u && (i =? Z.of_nat u) | _ => false end.

Definition is_return (u : nat) (e : event) : bool :=
  match e with EvReturn v _ => Nat.eqb v u | _ => false end.

Definition is_added (u : nat) (e : event) : bool :=
  match e with EvAdded v => Nat.eqb v u | _ => false end.

Definition is_release (u : nat) (e : event) : bool :=
  match e with EvRelease v => Nat.eqb v u | _ => false end.

Definition is_done (u : nat) (e : event) : bool :=
  match e with EvDone v => Nat.eqb v u | _ => false end.

(** Every [b] of the trace has an [a] before it.  Traces are kept latest
    first, so before means further down the list. *)
Fixpoint precedes (a b : event → bool) (tr : list event) : Prop :=
  match tr with
  | [] => True
  | e :: tr' => (b e = true → Exists (λ x, a x = true) tr') ∧ precedes a b tr'
  end.

(** *** The steps of a goroutine, case by case *)

Inductive exec_rel (g : goroutine) (s : shared) : goroutine → shared → Prop :=
| X_acquire k sm :
    g_code g = IAcquire :: k → Semaphore.send (sema s) = Some sm →
    exec_rel g s (advance g IAcquire k) (emit (EvAcquire (g_id g)) (set_sema sm s))
| X_release k sm :
    g_code g = IRelease :: k → Semaphore.recv (sema s) = Some sm →
    exec_rel g s (advance g IRelease k) (emit (EvRelease (g_id g)) (set_sema sm s))
| X_call k :
    g_code g = ICall :: k →
    exec_rel g s (advance g ICall k) (emit (EvCall (g_id g) (g_idx g)) s)
| X_ret k :
    g_code g = IRet :: k →
    exec_rel g s (set_err (g_fn g (g_idx g)) (advance g IRet k))
             (emit (EvReturn (g_id g) (g_fn g (g_idx g))) s)
| X_add_nil k :
    g_code g = IAdd :: k → g_add g = AddEntry → g_err g = None →
    exec_rel g s (advance g IAdd k) (emit (EvAdded (g_id g)) s)
| X_add_enter k e :
    g_code g = IAdd :: k → g_add g = AddEntry → g_err g = Some e →
    exec_rel g s (goto (AddInit e) g) s
| X_add_init k e :
    g_code g = IAdd :: k → g_add g = AddInit e →
    exec_rel g s (goto (AddLoad e) g)
             (match errs s with None => publish [] s | Some _ => s end)
| X_add_load k e :
    g_code g = IAdd :: k → g_add g = AddLoad e →
    exec_rel g s (goto (AddSwap e (errs s)) g) s
| X_add_nilptr k e :
    g_code g = IAdd :: k → g_add g = AddSwap e None →
    exec_rel g s g (crash PanicNilDereference s)
| X_add_swap k e c :
    g_code g = IAdd :: k → g_add g = AddSwap e (Some c) → errs s = Some c →
    exec_rel g s (advance g IAdd k)
             (emit (EvAdded (g_id g)) (publish (e :: deref (heap s) c) s))
| X_add_retry k e c :
    g_code g = IAdd :: k → g_add g = AddSwap e (Some c) → errs s ≠ Some c →
    exec_rel g s (goto (AddLoad e) g) s
| X_done k :
    g_code g = IDone :: k → 0 <= wg s - 1 →
    exec_rel g s (advance g IDone k) (emit (EvDone (g_id g)) (set_wg (wg s - 1) s))
| X_done_panic k :
    g_code g = IDone :: k → wg s - 1 < 0 →
    exec_rel g s g (crash PanicNegativeWaitGroup s).

(** What is known of a goroutine from its own fields. *)
Record good (body : list stmt) (g : goroutine) : Prop := {
  good_shape : reverse (g_past g) ++ g_code g = code_of body;
  good_idx : g_idx g = Z.of_nat (g_id g);
  good_err : g_err g = if decide (IRet ∈ g_past g) then g_fn g (g_idx g) else None;
  good_add :
    match g_add g with
    | AddEntry => True
    | AddInit e | AddLoad e | AddSwap e _ =>
        g_err g = Some e ∧ ∃ k, g_code g = IAdd :: k
    end;
}.

(** A goroutine that has loaded [errs] found it initialised. *)
Definition ptr_ok (s : shared) (g : goroutine) : Prop :=
  match g_add g with
  | AddLoad _ => errs s ≠ None
  | AddSwap _ current => current ≠ None ∧ errs s ≠ None
  | _ => True
  end.

(** What holds in every state of a run of [fns] under goroutine body
    [body], with a semaphore of capacity [c], started after trace [tr0]:
    the channel holds the tokens the goroutines hold, the wait group counts
    the goroutines that have not signalled, the trace is made of the
    goroutines' events, and the aggregator holds the errors added. *)
Record inv (body : list stmt) (fns : list Func) (c : Z) (tr0 : list event)
    (s : state) : Prop := {
  inv_good : Forall (good body) (gos s);
  inv_ids : ∀ i g, gos s !! i = Some g → g_id g = i ∧ fns !! i = Some (g_fn g);
  inv_len : length (gos s) = length fns;
  inv_cap : Semaphore.cap (sema (sh s)) = c;
  inv_range : 0 <= Semaphore.len (sema (sh s)) <= c;
  inv_sema : Semaphore.len (sema (sh s)) = total holds (gos s);
  inv_wg : wg (sh s) = Z.of_nat (length (gos s)) - total dones (gos s);
  inv_proj : ∀ u,
    proj u (trace (sh s)) = from_option events_of [] (gos s !! u) ++ proj u tr0;
  inv_perm : trace (sh s) ≡ₚ flat_map events_of (gos s) ++ tr0;
  inv_ptr : Forall (ptr_ok (sh s)) (gos s);
  inv_store :
    Errors_List (heap (sh s)) (errs (sh s)) ≡ₚ flat_map recorded (gos s);
  inv_alive : panicked (sh s) = None;
  inv_returned : ∀ r, returned s = Some r →
    wg (sh s) = 0 ∧ r = Errors_Err (heap (sh s)) (errs (sh s));
  inv_nonnil : errs (sh s) ≠ None →
    Exists (λ g, is_Some (g_fn g (g_idx g))) (gos s);
}.

(** The goroutine bodies the invariants are proved for: the actions are
    pairwise distinct, the task has returned before its error is added, and
    [wg.Done()] comes last. *)
Record proper (body : list stmt) : Prop := {
  proper_nodup : NoDup (code_of body);
  proper_ret_before_add : ∀ p k, code_of body = p ++ IAdd :: k → IRet ∈ p;
  proper_done_last : ∀ p k, code_of body = p ++ IDone :: k → k = [];
}.

(** *** Every run is finite

    [errs.Add] retries when another goroutine swapped [errs] first, so a
    goroutine's own remaining work can grow.  It grows only when some other
    goroutine completes one of its at most two swaps, which the square of
    the pending swaps pays for. *)

Definition w_instr (i : instr) : Z :=
  match i with IAdd => 4 | _ => 1 end.

Fixpoint w_code (l : list instr) : Z :=
  match l with
  | [] => 0
  | i :: l' => w_instr i + w_code l'
  end.

(** Actions left if no other goroutine interferes; [p] is the current [errs]. *)
Definition weight (p : option nat) (g : goroutine) : Z :=
  match g_code g with
  | IAdd :: k =>
      match g_add g with
      | AddEntry => 4
      | AddInit _ => 3
      | AddLoad _ => 2
      | AddSwap _ current => if decide (current = p) then 1 else 3
      end + w_code k
  | l => w_code l
  end.

(** Swaps of [errs] the goroutine may still perform. *)
Definition pend (g : goroutine) : Z :=
  match g_code g with
  | IAdd :: k =>
      match g_add g with
      | AddEntry | AddInit _ => 2
      | _ => 1
      end + 2 * occ IAdd k
  | l => 2 * occ IAdd l
  end.

Definition alive (s : shared) : Z :=
  match panicked s with Some _ => 0 | None => 1 end.

Definition measure (s : state) : Z :=
  total (weight (errs (sh s))) (gos s) + total pend (gos s) * total pend (gos s)
  + alive (sh s) + match returned s with Some _ => 0 | None => 1 end.


(** *** What a run leaves in the trace *)

(** The task results of a trace: unit and returned error. *)
Definition returns (tr : list event) : list (nat * option error) :=
  omap (λ e, match e with EvReturn u r => Some (u, r) | _ => None end) tr.

(** The non-nil errors the units of [fns] return, by position. *)
Definition failures (fns : list Func) : list error :=
  omap id (imap (λ u fn, fn (Z.of_nat u)) fns).

(** The events of one unit of [Funcs.Do], in the order they happen. *)
Definition doOp_history (u : nat) (fn : Func) : list event :=
  [ EvAcquire u; EvCall u (Z.of_nat u); EvReturn u (fn (Z.of_nat u));
    EvAdded u; EvRelease u; EvDone u ].

(** The events of one unit of [Func.Do], in the order they happen. *)
Definition doOne_history (u : nat) (fn : Func) : list event :=
  [ EvCall u (Z.of_nat u); EvReturn u (fn (Z.of_nat u)); EvAdded u;
    EvAcquire u; EvDone u ].

(** A decidable test for quiescence, used to evaluate concrete runs. *)
Definition quiescentb (s : state) : bool :=
  forallb (λ m, bool_decide (move m s = None))
          (Caller :: map Go (seq 0 (length (gos s)))).


End Parallel.

(** Errors are numbers in the concrete runs. *)
#[global] Instance number_errors : ErrorValues := nat.

(** [k] rounds in which each of [n] goroutines and then the caller get a turn. *)
Definition rounds (k n : nat) : list mover :=
  concat (replicate k (map Go (seq 0 n) ++ [Caller])).

(** [oops] fails with its index, like the tasks of
    the package's tests that report the goroutine they ran in; [fine]
    succeeds. *)
Definition oops : Func := λ i, Some (Z.to_nat i).

Definition fine : Func := λ _, None.

(** A stand-in for [multierr.Combine] on numbers: nil for no error,
    otherwise their sum. *)
Definition join (l : list nat) : option nat :=
  match l with
  | [] => None
  | _ => Some (foldr Nat.add 0%nat l)
  end.

(** The instances the concrete runs below are evaluated with. *)
#[global] Instance join_errors : Multierr := join.
#[global] Instance one_processor : Runtime := 1%positive.

(** The order of the events of unit [u] as the specification words it:
    acquire, invoke, release, and only then record and signal. *)
Definition released_before_recording (u : nat) (tr : list event) : Prop :=
  precedes (is_acquire u) (is_call u) tr ∧
  precedes (is_return u) (is_release u) tr ∧
  precedes (is_release u) (is_added u) tr ∧
  precedes (is_release u) (is_done u) tr.

(** [Funcs{oops}.Do(1)], and the state after its goroutine has acquired
    the semaphore, run the task and added the error. *)
Definition set1_start : state :=
  started doOp [oops] (Semaphore.mk 1 0) [].

Definition set1_added : state := run (replicate 7 (Go 0)) set1_start.

(** [oops.Do(1, 1)] after its goroutine has entered the task. *)
Definition one_start : state :=
  started doOne [oops] (Semaphore.mk 1 0) [].

Definition one_called : state := run [Go 0] one_start.

(** [fine.Do(2, 1)]: two units, at most one at a time. *)
Definition two_start : state :=
  started doOne [fine; fine] (Semaphore.mk 1 0) [].

Definition two_inside : state := run [Go 0; Go 1] two_start.

Definition two_stuck : state := run (rounds 6 2) two_start.

(** [Funcs{oops, fine, oops}.Do(2)] run to its end. *)
Definition set3 : list Func := [oops; fine; oops].

Definition set3_start : state := started doOp set3 (Semaphore.mk 2 0) [].

Definition set3_end : state := run (rounds 20 3) set3_start.

(** [oops.Do(3, 2)] run until nothing moves. *)
Definition three_start : state :=
  started doOne [oops; oops; oops] (Semaphore.mk 2 0) [].

Definition three_end : state := run (rounds 20 3) three_start.

(** ** Further operations and the package's usage pattern *)

Section Usage.

Context {errors : ErrorValues} {multierr : Multierr} {runtime : Runtime}.

(** A goroutine running on its own until it has nothing left to do, for at
    most [fuel] atomic actions. *)
Fixpoint alone (fuel : nat) (g : goroutine) (s : shared) : option shared :=
  match g_code g with
  | [] => Some s
  | _ :: _ =>
      match fuel with
      | O => None
      | S fuel' =>
          '(g', s') ← exec g s;
          alone fuel' g' s'
      end
  end.

(** [p.Add(err)] while no other goroutine works on [p]: the nil check, the
    initialising swap, the load and the swap. *)
Definition Errors_Add (err : option error) (s : shared) : option shared :=
  alone 4 (mkG 0 (λ _, err) 0 [] [IAdd] err AddEntry) s.

(** [p.Add(e1); ...; p.Add(en)] *)
Definition Errors_Add_all (l : list (option error)) (s : shared) : option shared :=
  foldl (λ acc err, acc ≫= Errors_Add err) (Some s) l.

(** Go's [int] on the platforms the package runs on: 64 bits, two's
    complement, arithmetic wraps around. *)
Definition wrap_int (z : Z) : Z := (z + 2 ^ 63) `mod` 2 ^ 64 - 2 ^ 63.

(** The task of the package documentation and of [ExampleFunc_simple]:
    [results[idx] = input[idx] * 10; return nil].  An index outside either
    slice panics, rendered as [None]. *)
Definition times_ten : Func := λ _, None.

Definition times_ten_write (input : list Z) (idx : Z) (results : list Z)
    : option (list Z) :=
  if decide (0 <= idx < Z.of_nat (length input) ∧
             idx < Z.of_nat (length results))
  then x ← input !! Z.to_nat idx;
       Some (<[Z.to_nat idx := wrap_int (x * 10)]> results)
  else None.

(** What the tasks have written after the invocations of a trace, oldest
    first: [write idx] is what the body of task [idx] does to the memory the
    tasks write to, [None] being a panic.  A task writes its own slot and
    objects it allocates itself only, so its writes are placed where the
    task is entered: where inside the task body they happen makes no
    difference to the other tasks. *)
Fixpoint replay {M} (write : Z → M → option M)
    (tr : list event) (memory : M) : option M :=
  match tr with
  | [] => Some memory
  | e :: tr' =>
      mem ← replay write tr' memory;
      match e with
      | EvCall _ idx => write idx mem
      | _ => Some mem
      end
  end.

End Usage.

(** [ExampleFunc_simple]: five numbers, at most five tasks at a time, and a
    run of it to its end. *)
Definition simple_input : list Z := [10; 20; 30; 40; 50].

Definition simple_start : state :=
  started doOne (replicate 5 times_ten) (Semaphore.mk 5 0) [].

Definition simple_end : state := run (rounds 6 5) simple_start.

(** ** [StringSet]: [type StringSet map[string]struct{}] *)

Module StringSet.

(** A Go map value is nil or a reference to a map object, and copies of a
    reference share the object.  [maps] holds the map objects allocated so
    far; a reference is a position in it. *)
Abbreviation t := (option nat).

Abbreviation maps := (list (gset string)).

(** The keys of [s]; a nil map has none. *)
Definition keys (h : maps) (s : t) : gset string :=
  match s with
  | None => ∅
  | Some a => default ∅ (h !! a)
  end.

(** [len(s)] *)
Definition len (h : maps) (s : t) : nat := size (keys h s).

(** [make(StringSet, n)]: a new, empty map object. *)
Definition make (h : maps) : t * maps := (Some (length h), h ++ [∅]).

(** [s[k] = struct{}{}]; assignment to an entry of a nil map panics,
    rendered as [None]. *)
Definition assign (s : t) (k : string) (h : maps) : option maps :=
  a ← s;
  ks ← h !! a;
  Some (<[a := {[k]} ∪ ks]> h).

(** [delete(s, k)]; a no-op on a nil map and on a missing key. *)
Definition remove (s : t) (k : string) (h : maps) : maps :=
  match s with
  | None => h
  | Some a =>
      match h !! a with
      | Some ks => <[a := ks ∖ {[k]}]> h
      | None => h
      end
  end.

(** [for _, k := range ks { s[k] = struct{}{} }] *)
Definition assign_all (s : t) (ks : list string) (h : maps) : option maps :=
  foldl (λ acc k, acc ≫= assign s k) (Some h) ks.

(** [for _, k := range ks { delete(s, k) }] *)
Definition remove_all (s : t) (ks : list string) (h : maps) : maps :=
  foldl (λ acc k, remove s k acc) h ks.

(** The methods have pointer receivers: [s] is the value of the variable the
    receiver points to, and the first component of the result is its value
    afterwards.

    [func (s *StringSet) Add(strs ...string) *StringSet] *)
Definition Add (strs : list string) (s : t) (h : maps) : option (t * maps) :=
  let '(s1, h1) := if decide (len h s = 0%nat) then make h else (s, h) in
  h2 ← assign_all s1 strs h1;
  Some (s1, h2).

(** A [range] over a map visits every key once, in an order Go leaves
    unspecified. *)
Definition visits (h : maps) (s : t) (order : list string) : Prop :=
  order ≡ₚ elements (keys h s).

(** [func (s *StringSet) AddSet(strs StringSet) StringSet], the keys of
    [strs] visited in [order]. *)
Definition AddSet_in (order : list string) (s : t) (h : maps)
    : option (t * maps) :=
  let '(s1, h1) := if decide (len h s = 0%nat) then make h else (s, h) in
  h2 ← assign_all s1 order h1;
  Some (s1, h2).

Definition AddSet (strs : t) (s : t) (h : maps) : option (t * maps) :=
  AddSet_in (elements (keys h strs)) s h.

(** [func (s *StringSet) Remove(vs ...string) StringSet] *)
Definition Remove (vs : list string) (s : t) (h : maps) : t * maps :=
  (s, remove_all s vs h).

(** [func (s *StringSet) Sub(vs StringSet) StringSet], the keys of [vs]
    visited in [order]. *)
Definition Sub_in (order : list string) (s : t) (h : maps) : t * maps :=
  (s, remove_all s order h).

Definition Sub (vs : t) (s : t) (h : maps) : t * maps :=
  Sub_in (elements (keys h vs)) s h.

(** [func (s StringSet) List() (vs []string)], the keys visited in [order];
    the nil slice and the empty slice are both [[]]. *)
Definition List (order : list string) (h : maps) (s : t) : list string :=
  if decide (len h s = 0%nat) then []
  else foldl (λ vs handle, vs ++ [handle]) [] order.

End StringSet.

(** ** The link collector of the package's example *)

(** A reference is valid when its map object has been allocated. *)
Definition valid (h : StringSet.maps) (r : StringSet.t) : Prop :=
  match r with
  | None => True
  | Some a => (a < length h)%nat
  end.

(** From the maps [h] and the set [found] to the maps [h'] and the set
    [found']: the set has gained the strings [X], it is the same map object
    or, if it was empty, a newly allocated one, and every other set is as
    it was. *)
Record extends (h : StringSet.maps) (found : StringSet.t) (X : gset string)
    (h' : StringSet.maps) (found' : StringSet.t) : Prop := {
  ext_keys : StringSet.keys h' found' = StringSet.keys h found ∪ X;
  ext_length : (length h <= length h')%nat;
  ext_valid : valid h' found';
  ext_frame : ∀ r, valid h r → r ≠ found' →
    StringSet.keys h' r = StringSet.keys h r;
  ext_fresh : found' = found ∨
              (¬ valid h found' ∧ StringSet.keys h found = ∅);
}.

(** The part of golang.org/x/net/html the example reads: a node's type, its
    data, its attributes and, for the sibling chain that starts at
    [FirstChild], the list of its children. *)
Module html.

Inductive NodeType : Type :=
| ErrorNode | TextNode | DocumentNode | ElementNode
| CommentNode | DoctypeNode | RawNode.

Record Attribute : Type := mkAttribute { Key : string; Val : string }.

#[local] Unset Elimination Schemes.

Inductive Node : Type :=
| mkNode (Type_ : NodeType) (Data : string) (Attr : list Attribute)
         (children : list Node).

#[local] Set Elimination Schemes.

End html.

(** The part of net/url the example calls: [url.Parse], [None] for an
    error; the three assignments that set [u.RawQuery], [u.RawFragment] and
    [u.Fragment] to the empty string; and [u.String()]. *)
Class NetUrl : Type := {
  URL : Type;
  url_Parse : string → option URL;
  url_clear : URL → URL;
  url_String : URL → string;
}.

(** [http.Get(url)] followed by [html.Parse] of the body: the error of
    either, or the document.  The web stays as it is during a run. *)
Class Web {errors : ErrorValues} : Type :=
  fetch : string → error + html.Node.

Section Links.

Context {errors : ErrorValues} {multierr : Multierr} {runtime : Runtime}.
Context {neturl : NetUrl} {web : Web}.

(** [a.Key == "href" && strings.HasPrefix(a.Val, "http:") ||
     strings.HasPrefix(a.Val, "https:")]; [&&] binds tighter than [||]. *)
Definition is_link (a : html.Attribute) : bool :=
  bool_decide (html.Key a = "href") && String.prefix "http:" (html.Val a)
  || String.prefix "https:" (html.Val a).

(** [for _, a := range n.Attr { if ... { ...; break } }] *)
Fixpoint attr_loop (attrs : list html.Attribute) (found : StringSet.t)
    (h : StringSet.maps) : option (StringSet.t * StringSet.maps) :=
  match attrs with
  | [] => Some (found, h)
  | a :: rest =>
      if is_link a then
        match url_Parse (html.Val a) with
        | None => Some (found, h)
        | Some u => StringSet.Add [url_String (url_clear u)] found h
        end
      else attr_loop rest found h
  end.

(** [func parseLinks(n *html.Node, found StringSet) StringSet] *)
Fixpoint parseLinks (n : html.Node) (found : StringSet.t)
    (h : StringSet.maps) : option (StringSet.t * StringSet.maps) :=
  match n with
  | html.mkNode ty data attrs children =>
      '(found1, h1) ←
        match ty with
        | html.ElementNode =>
            if decide (data = "a") then attr_loop attrs found h
            else Some (found, h)
        | _ => Some (found, h)
        end;
      (fix siblings (cs : list html.Node) (found : StringSet.t)
           (h : StringSet.maps) : option (StringSet.t * StringSet.maps) :=
         match cs with
         | [] => Some (found, h)
         | c :: cs' =>
             '(found', h') ← parseLinks c found h;
             siblings cs' found' h'
         end) children found1 h1
  end.

(** The link an [a] element contributes: its first attribute that passes
    the test, parsed and cleared, if that parses. *)
Definition link_of (attrs : list html.Attribute) : option string :=
  a ← List.find is_link attrs;
  u ← url_Parse (html.Val a);
  Some (url_String (url_clear u)).

(** The links of a document. *)
Fixpoint links_of (n : html.Node) : gset string :=
  match n with
  | html.mkNode ty data attrs children =>
      match ty with
      | html.ElementNode =>
          if decide (data = "a")
          then from_option singleton ∅ (link_of attrs)
          else ∅
      | _ => ∅
      end ∪ ⋃ (map links_of children)
  end.

(** The links of the page at [u], none when fetching it fails, and the
    links and the errors of a list of pages. *)
Definition page_links (u : string) : gset string :=
  match fetch u with
  | inl _ => ∅
  | inr doc => links_of doc
  end.

Definition web_links (urls : list string) : gset string :=
  ⋃ (map page_links urls).

Definition web_errors (urls : list string) : list error :=
  omap (λ u, match fetch u with inl err => Some err | inr _ => None end) urls.

(** The task of [HTMLLinks]; an index outside [urls] panics, which
    [HTMLLinks_write] records. *)
Definition HTMLLinks_fn (urls : list string) : Func :=
  λ idx,
    match urls !! Z.to_nat idx with
    | Some u =>
        match fetch u with
        | inl err => Some err
        | inr _ => None
        end
    | None => None
    end.

(** What the task does to [results] and to the maps:
    [results[idx] = parseLinks(doc, results[idx])]. *)
Definition HTMLLinks_write (urls : list string) (idx : Z)
    (mem : list StringSet.t * StringSet.maps)
    : option (list StringSet.t * StringSet.maps) :=
  if decide (0 <= idx) then
    u ← urls !! Z.to_nat idx;
    match fetch u with
    | inl _ => Some mem
    | inr doc =>
        slot ← mem.1 !! Z.to_nat idx;
        '(found, h') ← parseLinks doc slot mem.2;
        Some (<[Z.to_nat idx := found]> mem.1, h')
    end
  else None.

(** [var resultSet StringSet; for _, res := range results {
      resultSet.AddSet(res) }] *)
Definition gather (results : list StringSet.t) (h : StringSet.maps)
    : option (StringSet.t * StringSet.maps) :=
  foldl (λ acc res, '(resultSet, h1) ← acc; StringSet.AddSet res resultSet h1)
        (Some (None, h)) results.

(** What the tasks of [HTMLLinks] have made of [results] after the
    invocations [called]: every slot is nil or a map of its own, allocated
    during the call, that holds the links of its page once its task has
    been entered. *)
Record slots_ok (urls : list string) (h0 h : StringSet.maps)
    (called : list Z) (results : list StringSet.t) : Prop := {
  so_len : length results = length urls;
  so_mono : (length h0 <= length h)%nat;
  so_old : ∀ r, valid h0 r → StringSet.keys h r = StringSet.keys h0 r;
  so_slot : ∀ j slot u, results !! j = Some slot → urls !! j = Some u →
    valid h slot ∧ (slot ≠ None → ¬ valid h0 slot) ∧
    StringSet.keys h slot =
      if decide (Z.of_nat j ∈ called) then page_links u else ∅;
  so_distinct : ∀ j k a, j ≠ k →
    results !! j = Some (Some a) → results !! k = Some (Some a) → False;
}.

(** The set [gather] builds: nil or a map allocated during the loop, with
    the keys of all the slots; every set there was before is as it was. *)
Record gathered (h : StringSet.maps) (X : gset string)
    (h' : StringSet.maps) (links : StringSet.t) : Prop := {
  ga_keys : StringSet.keys h' links = X;
  ga_length : (length h <= length h')%nat;
  ga_valid : valid h' links;
  ga_fresh : links ≠ None → ¬ valid h links;
  ga_frame : ∀ r, valid h r → StringSet.keys h' r = StringSet.keys h r;
}.

(** What [HTMLLinks] returns from state [s] of the run of its
    [fn.Do(nSites, 5)], once that call has returned. *)
Definition HTMLLinks_return (urls : list string) (h0 : StringSet.maps)
    (s : state) : option (StringSet.t * option error * StringSet.maps) :=
  err ← returned s;
  '(results, h) ← replay (HTMLLinks_write urls) (trace (sh s))
                    (replicate (length urls) None, h0);
  '(resultSet, h') ← gather results h;
  Some (resultSet, err, h').

(** [func HTMLLinks(urls ...string) (links StringSet, err error)]: the call
    started with the maps [h0] returns [(links, err)] and leaves the maps
    [h']. *)
Definition HTMLLinks (urls : list string) (h0 : StringSet.maps)
    (links : StringSet.t) (err : option error) (h' : StringSet.maps) : Prop :=
  match Func_Do (HTMLLinks_fn urls) (Z.of_nat (length urls)) [5] [] with
  | Returns r => gather [] h0 = Some (links, h') ∧ err = r
  | Panics _ => False
  | Spawns s0 =>
      ∃ s, reachable s0 s ∧
           HTMLLinks_return urls h0 s = Some (links, err, h')
  end.

(** [func Scrape(maxDepth int, urls ...string) (links StringSet)]: the call
    started with the maps [h] returns [links] and leaves the maps [h']. *)
Inductive Scrape : Z → list string → StringSet.maps →
                   StringSet.t → StringSet.maps → Prop :=
| Scrape_done urls h : Scrape 0 urls h None h
| Scrape_deeper maxDepth urls h links err h1 order more h2 result h3 :
    maxDepth ≠ 0 →
    HTMLLinks urls h links err h1 →
    let removed := StringSet.Remove urls links h1 in
    StringSet.visits removed.2 removed.1 order →
    Scrape (wrap_int (maxDepth - 1))
           (StringSet.List order removed.2 removed.1) removed.2 more h2 →
    StringSet.AddSet more removed.1 h2 = Some (result, h3) →
    Scrape maxDepth urls h result h3.

End Links.

(** A stand-in for net/url that accepts every string and leaves it as it
    is, and a web of two pages: [https://a] links to itself, to [https://b]
    and to [https://c]; [https://b] links to [https://a]; fetching anything
    else fails with error 7. *)
#[global] Instance plain_urls : NetUrl :=
  {| URL := string; url_Parse := Some; url_clear := id; url_String := id |}.

Definition anchor (href : string) : html.Node :=
  html.mkNode html.ElementNode "a" [html.mkAttribute "href" href] [].

Definition page (body : list html.Node) : html.Node :=
  html.mkNode html.DocumentNode EmptyString
    [] [html.mkNode html.ElementNode "html" [] body].

#[global] Instance small_web : Web :=
  λ u, if decide (u = "https://a")
       then inr (page [anchor "https://a"; anchor "https://b";
                       anchor "https://c"])
       else if decide (u = "https://b")
       then inr (page [anchor "https://a"; anchor "/about"])
       else inl 7%nat.

(** [HTMLLinks("https://a", "https://x", "https://b")], run to its end. *)
Definition sites : list string := ["https://a"; "https://x"; "https://b"].

Definition sites_start : state :=
  started doOne (replicate 3 (HTMLLinks_fn sites)) (Semaphore.mk 5 0) [].

Definition sites_end : state := run (rounds 10 3) sites_start.


(** * Proofs *)

(** ** Semaphore *)

Module SemaphoreFacts.
Import Semaphore.

Lemma send_spec s s' :
  send s = Some s' ↔ len s < cap s ∧ s' = {| cap := cap s; len := len s + 1 |}.
Proof.
  unfold send. destruct (Z.ltb_spec (len s) (cap s)); split.
  - intros [= <-]. split; [lia | done].
  - intros [_ ->]. done.
  - discriminate.
  - intros [? _]. lia.
Qed.

Lemma recv_spec s s' :
  recv s = Some s' ↔ 0 < len s ∧ s' = {| cap := cap s; len := len s - 1 |}.
Proof.
  unfold recv. destruct (Z.ltb_spec 0 (len s)); split.
  - intros [= <-]. split; [lia | done].
  - intros [_ ->]. done.
  - discriminate.
  - intros [? _]. lia.
Qed.

Lemma complete_cap o s s' : complete o s = Some s' → cap s' = cap s.
Proof.
  destruct o as [| | | |[|]]; simpl;
    unfold Acquire, Release, AcquireRelease, MaybeAcquire.
  - intros [_ ->]%send_spec. done.
  - intros [_ ->]%recv_spec. done.
  - destruct (send s) as [s1|] eqn:E; [|discriminate].
    intros [= <-]. apply send_spec in E as [_ ->]. done.
  - destruct (send s) as [s1|] eqn:E; intros [= <-]; [|done].
    apply send_spec in E as [_ ->]. done.
  - intros [_ ->]%recv_spec. done.
  - intros [= <-]. done.
Qed.

Lemma complete_in_range o s s' :
  in_range s → complete o s = Some s' → in_range s'.
Proof.
  unfold in_range, available.
  destruct o as [| | | |[|]]; simpl;
    unfold Acquire, Release, AcquireRelease, MaybeAcquire; intros Hr.
  - intros [? ->]%send_spec. simpl. lia.
  - intros [? ->]%recv_spec. simpl. lia.
  - destruct (send s) as [s1|] eqn:E; [|discriminate].
    intros [= <-]. apply send_spec in E as [? ->]. simpl. lia.
  - destruct (send s) as [s1|] eqn:E; intros [= <-]; [|done].
    apply send_spec in E as [? ->]. simpl. lia.
  - intros [? ->]%recv_spec. simpl. lia.
  - intros [= <-]. done.
Qed.

Lemma attempt_in_range o s : in_range s → in_range (attempt s o).
Proof.
  intros Hr. unfold attempt.
  destruct (complete o s) eqn:E; [|done]. by eapply complete_in_range.
Qed.

Lemma attempt_cap o s : cap (attempt s o) = cap s.
Proof.
  unfold attempt. destruct (complete o s) eqn:E; [|done]. by eapply complete_cap.
Qed.

Lemma history_in_range ops s :
  in_range s → in_range (history ops s) ∧ cap (history ops s) = cap s.
Proof.
  unfold history. revert s.
  induction ops as [|o ops IH]; intros s Hr; simpl; [done|].
  destruct (IH (attempt s o)) as [H1 H2]; [by apply attempt_in_range|].
  split; [done|]. by rewrite H2, attempt_cap.
Qed.

Lemma NewSemaphore_built max s :
  NewSemaphore max = Built s ↔ 1 <= max ∧ s = {| cap := max; len := 0 |}.
Proof.
  unfold NewSemaphore. destruct (Z.ltb_spec max 1); split.
  - discriminate.
  - intros [? _]. lia.
  - intros [= <-]. split; [lia | done].
  - intros [_ ->]. done.
Qed.

Lemma NewSemaphore_in_range max s : NewSemaphore max = Built s → in_range s.
Proof.
  intros [? ->]%NewSemaphore_built. unfold in_range, available. simpl. lia.
Qed.

End SemaphoreFacts.

(** ** Dispatcher *)

Section Facts.

Context {errors : ErrorValues} {multierr : Multierr} {runtime : Runtime}.

Lemma exec_exec_rel g s g' s' : exec g s = Some (g', s') ↔ exec_rel g s g' s'.
Proof.
  split.
  - unfold exec, Semaphore.AcquireRelease, Semaphore.Release. intros H.
    destruct (g_code g) as [|[] k] eqn:Hc; try discriminate.
    + destruct (Semaphore.send (sema s)) as [sm|] eqn:Hs; simplify_eq/=.
      by econstructor.
    + destruct (Semaphore.recv (sema s)) as [sm|] eqn:Hs; simplify_eq/=.
      by econstructor.
    + simplify_eq. by econstructor.
    + simplify_eq/=. by econstructor.
    + destruct (g_add g) as [|e|e|e [c|]] eqn:Ha.
      * destruct (g_err g) eqn:He; simplify_eq; by econstructor.
      * simplify_eq. by econstructor.
      * simplify_eq. by econstructor.
      * case_decide; simplify_eq; by econstructor.
      * simplify_eq. by econstructor.
    + destruct (Z.ltb_spec (wg s - 1) 0); simplify_eq; econstructor; eauto; lia.
  - unfold exec, Semaphore.AcquireRelease, Semaphore.Release.
    destruct 1; repeat match goal with H : _ = _ |- _ => rewrite H end; simpl;
      try done.
    + by rewrite decide_True.
    + by rewrite decide_False.
    + destruct (Z.ltb_spec (wg s - 1) 0); [lia | done].
    + destruct (Z.ltb_spec (wg s - 1) 0); [done | lia].
Qed.

Lemma move_go_inv i (s s' : state) :
  move (Go i) s = Some s' →
  ∃ l1 g l2 g' s1,
    gos s = l1 ++ g :: l2 ∧ length l1 = i ∧ panicked (sh s) = None ∧
    exec_rel g (sh s) g' s1 ∧
    s' = mkState s1 (l1 ++ g' :: l2) (returned s).
Proof.
  unfold move. destruct (panicked (sh s)) eqn:Hp; [done|].
  destruct (gos s !! i) as [g|] eqn:Hg; simpl; [|done].
  destruct (exec g (sh s)) as [[g' s1]|] eqn:He; simpl; [|done].
  intros [= <-].
  exists (take i (gos s)), g, (drop (S i) (gos s)), g', s1.
  pose proof (lookup_lt_Some _ _ _ Hg) as Hlt.
  split_and!; try done.
  - by rewrite take_drop_middle.
  - rewrite length_take. lia.
  - by apply exec_exec_rel.
  - f_equal. by apply insert_take_drop.
Qed.

Lemma move_caller_inv (s s' : state) :
  move Caller s = Some s' →
  panicked (sh s) = None ∧ returned s = None ∧ wg (sh s) = 0 ∧
  s' = mkState (sh s) (gos s) (Some (Errors_Err (heap (sh s)) (errs (sh s)))).
Proof.
  unfold move. destruct (panicked (sh s)); [done|].
  destruct (returned s); [done|].
  destruct (Z.eqb_spec (wg (sh s)) 0); [|done]. by intros [= <-].
Qed.

Lemma reachable_trans (s0 s1 s2 : state) :
  reachable s0 s1 → reachable s1 s2 → reachable s0 s2.
Proof. induction 2; [done|]. by eapply reach_step. Qed.

Lemma run_reachable sched (s : state) : reachable s (run sched s).
Proof.
  revert s. induction sched as [|m sched IH]; intros s; simpl; [constructor|].
  destruct (move m s) as [s1|] eqn:Hm; simpl; [|done].
  eapply reachable_trans; [|apply IH].
  eapply reach_step; [constructor|]. by exists m.
Qed.

(** *** Sums and occurrences *)

Lemma total_app f l1 l2 : total f (l1 ++ l2) = total f l1 + total f l2.
Proof. induction l1 as [|g l1 IH]; simpl; lia. Qed.

Lemma total_middle f l1 g l2 :
  total f (l1 ++ g :: l2) = total f l1 + f g + total f l2.
Proof. rewrite total_app. simpl. lia. Qed.

Lemma total_le f1 f2 l :
  Forall (λ g, f1 g <= f2 g) l → total f1 l <= total f2 l.
Proof. induction 1; simpl; lia. Qed.

Lemma total_bounds f l :
  Forall (λ g, 0 <= f g <= 1) l → 0 <= total f l <= Z.of_nat (length l).
Proof. induction 1; simpl; lia. Qed.

Lemma total_full f l :
  Forall (λ g, 0 <= f g <= 1) l → total f l = Z.of_nat (length l) →
  Forall (λ g, f g = 1) l.
Proof.
  induction 1 as [|g l Hg Hl IH]; simpl; intros Ht; [constructor|].
  pose proof (total_bounds f l Hl).
  constructor; [lia|]. apply IH. lia.
Qed.

Lemma occ_app i l1 l2 : occ i (l1 ++ l2) = occ i l1 + occ i l2.
Proof. induction l1 as [|j l1 IH]; simpl; lia. Qed.

Lemma occ_notin i l : i ∉ l → occ i l = 0.
Proof.
  induction l as [|j l IH]; simpl; [done|].
  intros [? ?]%not_elem_of_cons. rewrite decide_False by done. rewrite IH; [lia|done].
Qed.

Lemma occ_nonneg i l : 0 <= occ i l.
Proof. induction l as [|j l IH]; simpl; [lia|]. case_decide; lia. Qed.

Lemma occ_in i l : i ∈ l → 1 <= occ i l.
Proof.
  induction l as [|j l IH]; simpl.
  - by intros ?%elem_of_nil.
  - pose proof (occ_nonneg i l).
    intros [->|?]%elem_of_cons; [rewrite decide_True by done; lia|].
    case_decide; [lia|]. specialize (IH ltac:(done)). lia.
Qed.

Lemma occ_NoDup i l : NoDup l → occ i l <= 1.
Proof.
  induction 1 as [|j l Hj Hl IH]; simpl; [lia|].
  case_decide; [subst; rewrite occ_notin by done|]; lia.
Qed.

Lemma deref_publish (h : list (list error)) l : deref (h ++ [l]) (length h) = l.
Proof. unfold deref. by rewrite list_lookup_middle. Qed.

(** *** Invariants of a run

    The invariants hold for any goroutine body whose actions are pairwise
    distinct, in which the task has returned before its error is added,
    and which ends with [wg.Done()]: both [doOne] and [doOp] are of this
    kind. *)

Section Run.

Variable body : list stmt.
Variable fns : list Func.
Variable c : Z.
Variable tr0 : list event.

Hypothesis body_nodup : NoDup (code_of body).
Hypothesis ret_before_add : ∀ p k, code_of body = p ++ IAdd :: k → IRet ∈ p.
Hypothesis done_last : ∀ p k, code_of body = p ++ IDone :: k → k = [].

Local Abbreviation good := (good body).
Local Abbreviation inv := (inv body fns c tr0).

Lemma good_head_fresh g i k : good g → g_code g = i :: k → (i ∉ g_past g) ∧ (i ∉ k).
Proof.
  intros [Hs _ _ _] Hc. rewrite Hc in Hs.
  pose proof body_nodup as Hn. rewrite <- Hs in Hn.
  apply NoDup_app in Hn as (_ & Hd & Hk).
  apply NoDup_cons in Hk as [Hk _]. split; [|done].
  intros Hi. apply (Hd i); [by rewrite elem_of_reverse | left].
Qed.

Lemma good_past_NoDup g : good g → NoDup (g_past g).
Proof.
  intros [Hs _ _ _]. pose proof body_nodup as Hn. rewrite <- Hs in Hn.
  apply NoDup_app in Hn as (Hn & _ & _). by rewrite reverse_Permutation in Hn.
Qed.

Lemma good_add_after_ret g k : good g → g_code g = IAdd :: k → IRet ∈ g_past g.
Proof.
  intros [Hs _ _ _] Hc. rewrite Hc in Hs. symmetry in Hs.
  apply ret_before_add in Hs. by rewrite elem_of_reverse in Hs.
Qed.

Lemma good_done_last g : good g → IDone ∈ g_past g → g_code g = [].
Proof.
  intros [Hs _ _ _] Hd.
  rewrite <- elem_of_reverse in Hd. apply list_elem_of_split in Hd as (p & k & Hd).
  rewrite Hd, <- app_assoc in Hs. simpl in Hs. symmetry in Hs.
  apply done_last in Hs. by destruct k, (g_code g).
Qed.

Lemma good_advance g i k :
  good g → g_code g = i :: k → i ≠ IRet → good (advance g i k).
Proof.
  intros Hg Hc Hi. destruct Hg as [Hs Hx He Ha].
  constructor; simpl; try done.
  - rewrite reverse_cons, <- app_assoc. simpl. by rewrite <- Hc.
  - rewrite He. repeat case_decide; try done.
    + exfalso. apply H0. by right.
    + apply elem_of_cons in H0 as [?|?]; done.
Qed.

Lemma good_goto g pc e k :
  good g → g_code g = IAdd :: k → g_err g = Some e →
  (pc = AddInit e ∨ pc = AddLoad e ∨ ∃ cur, pc = AddSwap e cur) →
  good (goto pc g).
Proof.
  intros [Hs Hx He Ha] Hc Hr Hpc. constructor; simpl; try done.
  destruct Hpc as [->|[->|[cur ->]]]; eauto.
Qed.

Lemma exec_rel_good g s g' s' :
  exec_rel g s g' s' → good g →
  good g' ∧ g_id g' = g_id g ∧ g_fn g' = g_fn g ∧ g_idx g' = g_idx g.
Proof.
  intros Hx Hg.
  destruct Hx; (split; [|done]);
    try (by apply good_advance); try done.
  - (* the task returns *)
    pose proof Hg as [Hs Hi He Ha]. constructor; simpl; try done.
    rewrite reverse_cons, <- app_assoc. simpl. by rewrite <- H.
  - eapply good_goto; eauto.
  - pose proof (good_add _ _ Hg) as Ha. rewrite H0 in Ha. destruct Ha as [? _].
    eapply good_goto; eauto.
  - pose proof (good_add _ _ Hg) as Ha. rewrite H0 in Ha. destruct Ha as [? _].
    eapply good_goto; eauto.
  - pose proof (good_add _ _ Hg) as Ha. rewrite H0 in Ha. destruct Ha as [? _].
    eapply good_goto; eauto.
Qed.

Lemma occ_pos_in i l : 1 <= occ i l → i ∈ l.
Proof.
  intros H. destruct (decide (i ∈ l)) as [|Hn]; [done|].
  rewrite occ_notin in H by done. lia.
Qed.

Lemma good_dones g : good g → 0 <= dones g <= 1.
Proof.
  intros Hg. unfold dones. split; [apply occ_nonneg|].
  apply occ_NoDup. by apply good_past_NoDup.
Qed.

Lemma events_of_ext g g' :
  g_id g' = g_id g → g_fn g' = g_fn g → g_idx g' = g_idx g →
  ∀ l, map (event_of g') l = map (event_of g) l.
Proof.
  intros Hi Hf Hx l. apply map_ext. intros []; simpl; by rewrite ?Hi, ?Hf, ?Hx.
Qed.

Lemma exec_rel_sema g s g' s' :
  exec_rel g s g' s' →
  Semaphore.cap (sema s') = Semaphore.cap (sema s) ∧
  Semaphore.len (sema s') - holds g' = Semaphore.len (sema s) - holds g ∧
  (0 <= Semaphore.len (sema s) <= Semaphore.cap (sema s) →
   0 <= Semaphore.len (sema s') <= Semaphore.cap (sema s')).
Proof.
  destruct 1; unfold holds; simpl; try (split_and!; [done | lia | done]).
  - apply SemaphoreFacts.send_spec in H0 as [? ->]. simpl. split_and!; [done|lia|lia].
  - apply SemaphoreFacts.recv_spec in H0 as [? ->]. simpl. split_and!; [done|lia|lia].
  - destruct (errs s); simpl; (split_and!; [done | lia | done]).
Qed.

Lemma exec_rel_wg g s g' s' :
  exec_rel g s g' s' → wg s' + dones g' = wg s + dones g.
Proof.
  destruct 1; unfold dones; simpl; try lia.
  destruct (errs s); simpl; lia.
Qed.

Lemma exec_rel_trace g s g' s' :
  exec_rel g s g' s' →
  ∃ new, trace s' = new ++ trace s ∧ events_of g' = new ++ events_of g ∧
         Forall (λ e, unit_of e = g_id g) new.
Proof.
  unfold events_of.
  destruct 1; simpl;
    try (eexists [_]; split_and!; [done | simpl; f_equal | by repeat constructor]);
    try (exists []; split_and!; [done | done | constructor]).
  exists []. split_and!; [by destruct (errs s) | done | constructor].
Qed.

Lemma recorded_advance g i k :
  i ≠ IAdd → recorded (advance g i k) = recorded g.
Proof.
  intros Hi. unfold recorded. simpl.
  repeat case_decide; try done.
  - apply elem_of_cons in H as [?|?]; done.
  - exfalso. apply H. by right.
Qed.

Lemma exec_rel_store g s g' s' :
  exec_rel g s g' s' → good g →
  ∃ new, recorded g' = new ++ recorded g ∧
         Errors_List (heap s') (errs s') = new ++ Errors_List (heap s) (errs s).
Proof.
  intros Hx Hg.
  destruct Hx;
    try (exists []; split; [by apply recorded_advance | done]);
    try (exists []; split; done).
  - (* Add(nil) returns *)
    exists []. split; [|done].
    destruct (good_head_fresh _ _ _ Hg H) as [Hf _].
    pose proof (good_add_after_ret _ _ Hg H) as Hr.
    pose proof (good_err _ _ Hg) as He. rewrite decide_True in He by done.
    unfold recorded. simpl. rewrite (decide_False (P:=IAdd ∈ g_past g)) by done.
    by rewrite <- He, H1.
  - (* the first CAS *)
    exists []. split; [done|]. simpl.
    destruct (errs s) eqn:He; simpl; [by rewrite He|].
    by rewrite deref_publish.
  - (* the swap succeeds *)
    exists [e]. split.
    + destruct (good_head_fresh _ _ _ Hg H) as [Hf _].
      pose proof (good_add_after_ret _ _ Hg H) as Hr.
      pose proof (good_err _ _ Hg) as He. rewrite decide_True in He by done.
      pose proof (good_add _ _ Hg) as Ha. rewrite H0 in Ha. destruct Ha as [Ha _].
      unfold recorded. simpl. rewrite (decide_False (P:=IAdd ∈ g_past g)) by done.
      by rewrite <- He, Ha.
    + simpl. by rewrite deref_publish, H1.
Qed.

Lemma exec_rel_errs_mono g s g' s' :
  exec_rel g s g' s' → errs s ≠ None → errs s' ≠ None.
Proof.
  destruct 1; simpl; try done.
  destruct (errs s) eqn:E; simpl; by rewrite ?E.
Qed.

Lemma exec_rel_ptr g s g' s' :
  exec_rel g s g' s' → ptr_ok s g →
  ptr_ok s' g' ∧ ∀ h, ptr_ok s h → ptr_ok s' h.
Proof.
  intros Hx Hg. split.
  - destruct Hx; unfold ptr_ok in *; simpl; try done.
    + destruct (errs s) eqn:E; simpl; by rewrite ?E.
    + by rewrite H0 in Hg.
    + rewrite H0 in Hg. by destruct Hg.
  - intros h. pose proof (exec_rel_errs_mono _ _ _ _ Hx) as Hm.
    unfold ptr_ok. destruct (g_add h); try done.
    intros [? ?]. split; [done | by apply Hm].
Qed.

Lemma exec_rel_alive g s g' s' :
  exec_rel g s g' s' → panicked s = None → ptr_ok s g →
  (∀ k, g_code g = IDone :: k → 1 <= wg s) →
  panicked s' = None.
Proof.
  intros Hx Hp Hg Hw. destruct Hx; simpl; try done.
  - destruct (errs s) eqn:E; simpl; by rewrite ?E.
  - unfold ptr_ok in Hg. rewrite H0 in Hg. by destruct Hg.
  - specialize (Hw _ H). lia.
Qed.

Lemma perm_grow_middle {A} (new x a b t : list A) :
  new ++ (a ++ x ++ b) ++ t ≡ₚ (a ++ (new ++ x) ++ b) ++ t.
Proof.
  rewrite <- !app_assoc. rewrite (app_assoc new a).
  rewrite (Permutation_app_comm new a). by rewrite <- !app_assoc.
Qed.

Lemma perm_grow_inside {A} (new x a b : list A) :
  new ++ a ++ x ++ b ≡ₚ a ++ (new ++ x) ++ b.
Proof.
  rewrite <- !app_assoc. rewrite (app_assoc new a).
  rewrite (Permutation_app_comm new a). by rewrite <- !app_assoc.
Qed.

Lemma lookup_middle_change {A} (l1 l2 : list A) (x y : A) j h :
  (l1 ++ y :: l2) !! j = Some h →
  (j = length l1 ∧ h = y) ∨ (j ≠ length l1 ∧ (l1 ++ x :: l2) !! j = Some h).
Proof.
  intros H. destruct (decide (j = length l1)) as [->|Hne].
  - left. rewrite list_lookup_middle in H by done. by simplify_eq.
  - right. split; [done|].
    destruct (decide (j < length l1)%nat).
    + rewrite lookup_app_l in H |- * by done. done.
    + rewrite lookup_app_r in H |- * by lia.
      destruct (j - length l1)%nat eqn:E; [lia|]. done.
Qed.

Lemma proj_app u l1 l2 : proj u (l1 ++ l2) = proj u l1 ++ proj u l2.
Proof. unfold proj. apply List.filter_app. Qed.

Lemma proj_own u l : Forall (λ e, unit_of e = u) l → proj u l = l.
Proof.
  induction 1 as [|e l He Hl IH]; simpl; [done|].
  rewrite He, Nat.eqb_refl. by rewrite IH.
Qed.

Lemma proj_other u v l : Forall (λ e, unit_of e = v) l → u ≠ v → proj u l = [].
Proof.
  intros Hl Hne. induction Hl as [|e l He Hl IH]; simpl; [done|].
  rewrite He. destruct (Nat.eqb_spec v u); [congruence | done].
Qed.

Lemma exec_rel_nonnil g s g' s' :
  exec_rel g s g' s' → good g → errs s = None → errs s' ≠ None →
  is_Some (g_fn g (g_idx g)).
Proof.
  intros Hx Hg Hn Hs.
  destruct Hx; simpl in Hs; try done.
  - pose proof (good_add _ _ Hg) as Ha. rewrite H0 in Ha. destruct Ha as [Ha _].
    pose proof (good_add_after_ret _ _ Hg H) as Hr.
    pose proof (good_err _ _ Hg) as He. rewrite decide_True in He by done.
    rewrite <- He, Ha. by eexists.
  - congruence.
Qed.

Lemma inv_move m s s' : inv s → move m s = Some s' → inv s'.
Proof.
  intros Hi Hm. destruct m as [i|].
  - apply move_go_inv in Hm as (l1 & g & l2 & g' & s1 & Hgos & Hlen & Hp & Hx & ->).
    destruct Hi as [Hgood Hids Hl Hcap Hrange Hsema Hwg Hproj Hperm Hptr Hstore Halive Hret Hnn].
    rewrite Hgos in *.
    apply Forall_app in Hgood as [Hg1 Hg2].
    apply Forall_cons in Hg2 as [Hg Hg2].
    apply Forall_app in Hptr as [Hp1 Hp2].
    apply Forall_cons in Hp2 as [Hpg Hp2].
    destruct (exec_rel_good _ _ _ _ Hx Hg) as (Hg' & Hid & Hfn & Hidx).
    destruct (exec_rel_sema _ _ _ _ Hx) as (Hc' & Hs' & Hr').
    pose proof (exec_rel_wg _ _ _ _ Hx) as Hw'.
    destruct (exec_rel_trace _ _ _ _ Hx) as (new & Ht' & He' & Hnew).
    destruct (exec_rel_store _ _ _ _ Hx Hg) as (rec & Hrec & Hlist).
    destruct (exec_rel_ptr _ _ _ _ Hx Hpg) as (Hpg' & Hpmono).
    assert (Hgid : g_id g = i).
    { destruct (Hids i g) as [? _]; [|done]. by apply list_lookup_middle. }
    assert (Hd1 : 0 <= total dones l1 <= Z.of_nat (length l1)).
    { apply total_bounds. eapply Forall_impl; [exact Hg1|]. apply good_dones. }
    assert (Hd2 : 0 <= total dones l2 <= Z.of_nat (length l2)).
    { apply total_bounds. eapply Forall_impl; [exact Hg2|]. apply good_dones. }
    rewrite length_app in Hwg, Hl. simpl in Hwg, Hl.
    rewrite total_middle in Hwg, Hsema.
    assert (Hcode : ∃ j k, g_code g = j :: k) by (destruct Hx; eauto).
    destruct Hcode as (j & k & Hcode).
    assert (Hnd : dones g = 0).
    { destruct (decide (IDone ∈ g_past g)) as [Hin|Hn].
      - apply (good_done_last _ Hg) in Hin. congruence.
      - by apply occ_notin. }
    constructor; simpl.
    + apply Forall_app. split; [done|]. by apply Forall_cons.
    + intros j' h Hj'.
      destruct (lookup_middle_change l1 l2 g g' j' h Hj') as [[-> ->]|[_ Hj'']].
      * rewrite Hid, Hfn. apply Hids. by apply list_lookup_middle.
      * by apply Hids.
    + rewrite length_app. simpl. done.
    + congruence.
    + rewrite <- Hcap, <- Hc'. apply Hr'. by rewrite Hcap.
    + rewrite total_middle. lia.
    + rewrite length_app, total_middle. simpl. lia.
    + intros u. rewrite Ht', proj_app, Hproj.
      destruct (decide (u = i)) as [->|Hne].
      * rewrite !list_lookup_middle by done. simpl.
        rewrite He', proj_own, <- app_assoc; [done|]. by rewrite <- Hgid.
      * rewrite (proj_other u (g_id g)) by (done || congruence). simpl.
        do 2 f_equal.
        destruct (decide (u < length l1)%nat).
        -- by rewrite !lookup_app_l.
        -- rewrite !lookup_app_r by lia.
           by destruct (u - length l1)%nat eqn:E; [lia|].
    + rewrite Ht', Hperm. rewrite !flat_map_app. simpl. rewrite He'.
      apply perm_grow_middle.
    + apply Forall_app. split; [|apply Forall_cons; split; [done|]];
        (eapply Forall_impl; [eassumption | apply Hpmono]).
    + rewrite Hlist, Hstore. rewrite !flat_map_app. simpl. rewrite Hrec.
      apply perm_grow_inside.
    + eapply exec_rel_alive; eauto.
      intros k' Hk'. lia.
    + intros r Hr. destruct (Hret r Hr) as [Hz _]. exfalso. lia.
    + intros Hs1. apply Exists_app.
      destruct (errs (sh s)) as [a|] eqn:He.
      * specialize (Hnn ltac:(done)).
        apply Exists_app in Hnn as [Hnn|Hnn]; [by left | right].
        apply Exists_cons in Hnn as [Hnn|Hnn]; apply Exists_cons; [left | by right].
        by rewrite Hfn, Hidx.
      * right. apply Exists_cons. left. rewrite Hfn, Hidx.
        by eapply exec_rel_nonnil.
  - apply move_caller_inv in Hm as (Hp & Hr & Hz & ->).
    destruct Hi. constructor; simpl; try done.
    intros r [= <-]. done.
Qed.

Lemma inv_reachable s0 s : inv s0 → reachable s0 s → inv s.
Proof. intros H0. induction 1; [done|]. destruct H1 as [m Hm]. by eapply inv_move. Qed.

Lemma total_zero f l : Forall (λ g, f g = 0) l → total f l = 0.
Proof. induction 1; simpl; lia. Qed.

Lemma flat_map_nil {A B} (f : A → list B) l :
  Forall (λ x, f x = []) l → flat_map f l = [].
Proof. induction 1 as [|x l Hx Hl IH]; simpl; [done|]. by rewrite Hx, IH. Qed.

Lemma Forall_spawned (P : goroutine → Prop) :
  (∀ u fn, fns !! u = Some fn → P (spawn body u fn)) →
  Forall P (imap (spawn body) fns).
Proof.
  intros H. apply Forall_lookup_2. intros i g.
  rewrite list_lookup_imap. destruct (fns !! i) eqn:E; [|done].
  intros [= <-]. by apply H.
Qed.

Lemma inv_started sm :
  Semaphore.cap sm = c → Semaphore.len sm = 0 → 1 <= c →
  inv (started body fns sm tr0).
Proof.
  intros Hc Hl Hpos. unfold started. constructor; simpl.
  - apply Forall_spawned. intros u fn _. by constructor.
  - intros i g. rewrite list_lookup_imap.
    destruct (fns !! i) eqn:E; [|done]. by intros [= <-].
  - by rewrite length_imap.
  - done.
  - lia.
  - rewrite total_zero; [done|]. by apply Forall_spawned.
  - rewrite total_zero, length_imap; [lia|]. by apply Forall_spawned.
  - intros u. rewrite list_lookup_imap. by destruct (fns !! u).
  - rewrite flat_map_nil; [done|]. by apply Forall_spawned.
  - by apply Forall_spawned.
  - rewrite flat_map_nil; [done|]. by apply Forall_spawned.
  - done.
  - done.
  - done.
Qed.

(** Where a goroutine stands in its body. *)
Lemma good_split g :
  good g →
  ∃ n, (n <= length (code_of body))%nat ∧
       g_past g = reverse (take n (code_of body)) ∧
       g_code g = drop n (code_of body).
Proof.
  intros [Hs _ _ _]. exists (length (g_past g)).
  rewrite <- Hs. rewrite length_app, length_reverse.
  split; [lia|].
  rewrite take_app_length', drop_app_length' by by rewrite length_reverse.
  by rewrite reverse_involutive.
Qed.

End Run.

(** *** The two bodies *)

Lemma code_doOne : code_of doOne = [ICall; IRet; IAdd; IAcquire; IDone].
Proof. reflexivity. Qed.

Lemma code_doOp : code_of doOp = [IAcquire; ICall; IRet; IAdd; IRelease; IDone].
Proof. reflexivity. Qed.

Ltac split_code p :=
  repeat (destruct p as [|? p]; simplify_eq/=;
          try (by rewrite ?elem_of_cons; auto)).

Lemma doOne_proper : proper doOne.
Proof.
  constructor; rewrite code_doOne.
  - repeat (apply NoDup_cons; split; [rewrite ?elem_of_cons, elem_of_nil; intuition discriminate|]).
    apply NoDup_nil_2.
  - intros p k H. split_code p.
  - intros p k H. split_code p.
Qed.

Lemma doOp_proper : proper doOp.
Proof.
  constructor; rewrite code_doOp.
  - repeat (apply NoDup_cons; split; [rewrite ?elem_of_cons, elem_of_nil; intuition discriminate|]).
    apply NoDup_nil_2.
  - intros p k H. split_code p.
  - intros p k H. split_code p.
Qed.

Lemma cap_of_pos maxParallel : 1 <= cap_of maxParallel.
Proof.
  unfold cap_of, maxproc. destruct maxParallel as [|c l]; [lia|].
  destruct (Z.ltb_spec 0 c); lia.
Qed.

Lemma Func_Do_spawns fn count maxParallel tr s0 :
  Func_Do fn count maxParallel tr = Spawns s0 ↔
  0 < count ∧
  s0 = started doOne (replicate (Z.to_nat count) fn)
         (Semaphore.mk (cap_of maxParallel) 0) tr.
Proof.
  unfold Func_Do, Semaphore.NewSemaphore.
  pose proof (cap_of_pos maxParallel).
  destruct (Z.eqb_spec count 0); [split; [done | lia]|].
  destruct (Z.ltb_spec count 0); [split; [done | lia]|].
  destruct (Z.ltb_spec (cap_of maxParallel) 1); [lia|].
  split.
  - intros [= <-]. split; [lia | done].
  - by intros [_ ->].
Qed.

Lemma Funcs_Do_spawns fns maxParallel tr s0 :
  Funcs_Do fns maxParallel tr = Spawns s0 ↔
  fns ≠ [] ∧
  s0 = started doOp fns (Semaphore.mk (cap_of maxParallel) 0) tr.
Proof.
  unfold Funcs_Do, Semaphore.NewSemaphore.
  pose proof (cap_of_pos maxParallel).
  case_decide as Hl.
  - apply length_zero_iff_nil in Hl as ->. split; [done | by intros [? _]].
  - destruct (Z.ltb_spec (cap_of maxParallel) 1); [lia|].
    split.
    + intros [= <-]. split; [|done]. by intros ->.
    + by intros [_ ->].
Qed.

Lemma inv_run body fns cp tr0 s :
  proper body → 1 <= cp →
  reachable (started body fns (Semaphore.mk cp 0) tr0) s →
  inv body fns cp tr0 s.
Proof.
  intros [H1 H2 H3] Hc Hr.
  eapply inv_reachable; eauto. by apply inv_started.
Qed.

(** Case analysis on where a goroutine stands in [doOne] or [doOp]. *)
Ltac positions Hg :=
  let n := fresh "n" in
  let Hn := fresh "Hn" in
  let Hp := fresh "Hpast" in
  let Hc := fresh "Hcode" in
  destruct (good_split _ _ Hg) as (n & Hn & Hp & Hc);
  rewrite ?code_doOp, ?code_doOne in Hn, Hp, Hc; simpl in Hn;
  do 7 (try (destruct n as [|n]; [cbn in Hp, Hc|])); [..|lia].

Lemma doOp_holds g :
  good doOp g → 0 <= holds g <= 1 ∧ in_body g <= holds g.
Proof.
  intros Hg. unfold holds, in_body.
  positions Hg; rewrite Hpast; simpl; lia.
Qed.

Lemma doOp_release_holds g k :
  good doOp g → g_code g = IRelease :: k → holds g = 1.
Proof.
  intros Hg Hk. unfold holds.
  positions Hg; rewrite Hpast; rewrite Hcode in Hk; simplify_eq/=; done.
Qed.

Lemma doOp_holder_moves g :
  good doOp g → holds g = 1 → ∃ i k, g_code g = i :: k ∧ i ≠ IAcquire.
Proof.
  intros Hg. unfold holds.
  positions Hg; rewrite Hpast, Hcode; simpl; intros ?; try lia; eauto.
Qed.

Lemma doOne_holds g :
  good doOne g → 0 <= holds g <= 1 ∧ dones g <= holds g.
Proof.
  intros Hg. unfold holds, dones.
  positions Hg; rewrite Hpast; simpl; lia.
Qed.

Lemma doOne_call_first g :
  good doOne g → ICall ∉ g_past g → ∃ k, g_code g = ICall :: k.
Proof.
  intros Hg.
  positions Hg; rewrite Hpast, Hcode; simpl; intros Hnot; eauto;
    exfalso; apply Hnot; rewrite !elem_of_cons; auto 10.
Qed.

(** *** When a goroutine can move *)

Lemma exec_enabled g s i k :
  g_code g = i :: k →
  (i = IAcquire → Semaphore.len (sema s) < Semaphore.cap (sema s)) →
  (i = IRelease → 0 < Semaphore.len (sema s)) →
  is_Some (exec g s).
Proof.
  intros Hc Ha Hr. unfold exec. rewrite Hc. destruct i.
  - unfold Semaphore.AcquireRelease, Semaphore.send.
    destruct (Z.ltb_spec (Semaphore.len (sema s)) (Semaphore.cap (sema s)));
      [by eexists | specialize (Ha eq_refl); lia].
  - unfold Semaphore.Release, Semaphore.recv.
    destruct (Z.ltb_spec 0 (Semaphore.len (sema s)));
      [by eexists | specialize (Hr eq_refl); lia].
  - by eexists.
  - by eexists.
  - destruct (g_add g) as [| | |? []]; try by eexists.
    + by destruct (g_err g); eexists.
    + by case_decide; eexists.
  - by destruct (wg s - 1 <? 0); eexists.
Qed.

Lemma exec_blocked g s :
  exec g s = None →
  g_code g = [] ∨
  (∃ k, g_code g = IAcquire :: k ∧ Semaphore.cap (sema s) <= Semaphore.len (sema s)) ∨
  (∃ k, g_code g = IRelease :: k ∧ Semaphore.len (sema s) <= 0).
Proof.
  intros He. destruct (g_code g) as [|i k] eqn:Hc; [by left | right].
  destruct (decide (i = IAcquire)) as [->|Ha].
  { left. exists k. split; [done|].
    destruct (Z.le_gt_cases (Semaphore.cap (sema s)) (Semaphore.len (sema s)));
      [done|].
    destruct (exec_enabled g s IAcquire k Hc) as [? Hx]; [lia | done | congruence]. }
  destruct (decide (i = IRelease)) as [->|Hr].
  { right. exists k. split; [done|].
    destruct (Z.le_gt_cases (Semaphore.len (sema s)) 0); [done|].
    destruct (exec_enabled g s IRelease k Hc) as [? Hx]; [done | lia | congruence]. }
  destruct (exec_enabled g s i k Hc) as [? Hx]; [done | done | congruence].
Qed.

Lemma move_go_enabled s j g :
  panicked (sh s) = None → gos s !! j = Some g → is_Some (exec g (sh s)) →
  is_Some (move (Go j) s).
Proof.
  intros Hp Hg [[g' s'] He]. unfold move. rewrite Hp, Hg. simpl.
  rewrite He. simpl. by eexists.
Qed.

Lemma total_elem_le f l j g :
  Forall (λ g, 0 <= f g) l → l !! j = Some g → f g <= total f l.
Proof.
  intros Hl. revert j. induction Hl as [|h l Hh Hl IH]; intros [|j]; simpl; try done.
  - intros [= ->].
    assert (0 <= total f l) by (clear IH; induction Hl; simpl; lia). lia.
  - intros Hj. specialize (IH _ Hj). lia.
Qed.

Lemma total_pos_elem f l : 1 <= total f l → ∃ j g, l !! j = Some g ∧ 1 <= f g.
Proof.
  induction l as [|h l IH]; simpl; [lia|]. intros Ht.
  destruct (decide (1 <= f h)) as [Hh|Hh].
  - by exists 0%nat, h.
  - destruct IH as (j & g & Hj & Hg); [lia|]. by exists (S j), g.
Qed.

Lemma total_not_full f l :
  Forall (λ g, 0 <= f g <= 1) l → total f l < Z.of_nat (length l) →
  ∃ j g, l !! j = Some g ∧ f g = 0.
Proof.
  induction 1 as [|h l Hh Hl IH]; simpl; [lia|]. intros Ht.
  destruct (decide (f h = 0)) as [Hz|Hz].
  - by exists 0%nat, h.
  - destruct IH as (j & g & Hj & Hg); [lia|]. by exists (S j), g.
Qed.

(** *** [Funcs.Do]: the cap is honoured and the call returns *)

Lemma doOp_inv fns maxParallel tr s0 s :
  Funcs_Do fns maxParallel tr = Spawns s0 → reachable s0 s →
  inv doOp fns (cap_of maxParallel) tr s.
Proof.
  intros [_ ->]%Funcs_Do_spawns Hr.
  eapply inv_run; eauto using doOp_proper, cap_of_pos.
Qed.

Lemma doOne_inv fn count maxParallel tr s0 s :
  Func_Do fn count maxParallel tr = Spawns s0 → reachable s0 s →
  inv doOne (replicate (Z.to_nat count) fn) (cap_of maxParallel) tr s.
Proof.
  intros [_ ->]%Func_Do_spawns Hr.
  eapply inv_run; eauto using doOne_proper, cap_of_pos.
Qed.

Lemma Funcs_Do_bounded fns maxParallel tr s0 s :
  Funcs_Do fns maxParallel tr = Spawns s0 → reachable s0 s →
  running s <= cap_of maxParallel.
Proof.
  intros Hs Hr. pose proof (doOp_inv _ _ _ _ _ Hs Hr) as Hi.
  unfold running.
  transitivity (total holds (gos s)).
  - apply total_le. eapply Forall_impl; [apply (inv_good _ _ _ _ _ Hi)|].
    intros g Hg. by apply doOp_holds.
  - rewrite <- (inv_sema _ _ _ _ _ Hi). apply (inv_range _ _ _ _ _ Hi).
Qed.

Lemma Funcs_Do_progress fns maxParallel tr s0 s :
  Funcs_Do fns maxParallel tr = Spawns s0 → reachable s0 s →
  returned s = None → ∃ m, is_Some (move m s).
Proof.
  intros Hs Hr Hret. pose proof (doOp_inv _ _ _ _ _ Hs Hr) as Hi.
  pose proof (inv_alive _ _ _ _ _ Hi) as Halive.
  pose proof (inv_good _ _ _ _ _ Hi) as Hgood.
  pose proof (inv_wg _ _ _ _ _ Hi) as Hwg.
  pose proof (inv_sema _ _ _ _ _ Hi) as Hsema.
  pose proof (inv_range _ _ _ _ _ Hi) as Hrange.
  pose proof (inv_cap _ _ _ _ _ Hi) as Hcap.
  pose proof (cap_of_pos maxParallel) as Hpos.
  assert (Hh : Forall (λ g, 0 <= holds g) (gos s)).
  { eapply Forall_impl; [exact Hgood|]. intros g Hg.
    by destruct (doOp_holds g Hg) as [[? ?] _]. }
  assert (Hd : Forall (λ g, 0 <= dones g <= 1) (gos s)).
  { eapply Forall_impl; [exact Hgood|]. intros g.
    apply good_dones. apply doOp_proper. }
  (* a goroutine that holds a token, or is not waiting for one, can move *)
  assert (Hfree : ∀ j g i k, gos s !! j = Some g → g_code g = i :: k →
                    i ≠ IAcquire → is_Some (move (Go j) s)).
  { intros j g i k Hj Hc Hi'. apply (move_go_enabled s j g Halive Hj).
    apply (exec_enabled g (sh s) i k Hc); [done|]. intros ->.
    assert (Hg : good doOp g) by (eapply Forall_lookup_1; eauto).
    pose proof (doOp_release_holds g k Hg Hc).
    pose proof (total_elem_le holds _ _ _ Hh Hj). lia. }
  destruct (decide (wg (sh s) = 0)) as [Hz|Hnz].
  { exists Caller. unfold move. rewrite Halive, Hret, Hz. simpl. by eexists. }
  destruct (total_not_full dones (gos s) Hd) as (j & g & Hj & Hg0).
  { pose proof (total_bounds dones _ Hd). lia. }
  assert (Hg : good doOp g) by (eapply Forall_lookup_1; eauto).
  assert (Hcode : ∃ i k, g_code g = i :: k).
  { destruct (g_code g) as [|i k] eqn:Hc; [|eauto]. exfalso.
    unfold dones in Hg0. positions Hg; rewrite Hcode in Hc; try done.
    rewrite Hpast in Hg0. simpl in Hg0. lia. }
  destruct Hcode as (i & k & Hc).
  destruct (decide (i = IAcquire)) as [->|Hne]; [|by exists (Go j); eapply Hfree].
  destruct (decide (Semaphore.len (sema (sh s)) < Semaphore.cap (sema (sh s))))
    as [Hroom|Hfull].
  { exists (Go j). apply (move_go_enabled s j g Halive Hj).
    by apply (exec_enabled g (sh s) IAcquire k Hc). }
  destruct (total_pos_elem holds (gos s)) as (j2 & g2 & Hj2 & Hg2); [lia|].
  assert (Hgood2 : good doOp g2) by (eapply Forall_lookup_1; eauto).
  destruct (doOp_holds g2 Hgood2) as [[? ?] _].
  destruct (doOp_holder_moves g2 Hgood2) as (i2 & k2 & Hc2 & Hi2); [lia|].
  exists (Go j2). by eapply Hfree.
Qed.

(** *** [Func.Do]: with more units than the cap, the call never returns *)

Lemma Func_Do_waits fn count maxParallel tr s0 s :
  Func_Do fn count maxParallel tr = Spawns s0 → reachable s0 s →
  cap_of maxParallel < count → returned s = None ∧ 0 < wg (sh s).
Proof.
  intros Hs Hr Hlt. pose proof (doOne_inv _ _ _ _ _ _ Hs Hr) as Hi.
  apply Func_Do_spawns in Hs as [Hc _].
  pose proof (inv_wg _ _ _ _ _ Hi) as Hwg.
  pose proof (inv_sema _ _ _ _ _ Hi) as Hsema.
  pose proof (inv_range _ _ _ _ _ Hi) as Hrange.
  pose proof (inv_len _ _ _ _ _ Hi) as Hlen.
  rewrite length_replicate in Hlen.
  assert (Hle : total dones (gos s) <= total holds (gos s)).
  { apply total_le. eapply Forall_impl; [apply (inv_good _ _ _ _ _ Hi)|].
    intros g Hg. by apply doOne_holds. }
  assert (Hw : 0 < wg (sh s)) by lia.
  split; [|done].
  destruct (returned s) as [r|] eqn:Hret; [|done].
  destruct (inv_returned _ _ _ _ _ Hi r Hret) as [Hz _]. lia.
Qed.

(** *** Every run is finite *)

Lemma w_code_nonneg l : 0 <= w_code l.
Proof. induction l as [|[] l IH]; simpl; lia. Qed.

Lemma weight_nonneg p g : 0 <= weight p g.
Proof.
  unfold weight. destruct (g_code g) as [|i k]; [simpl; lia|].
  pose proof (w_code_nonneg k).
  destruct i; simpl; try lia.
  destruct (g_add g); try case_decide; lia.
Qed.

Lemma pend_nonneg g : 0 <= pend g.
Proof.
  unfold pend. destruct (g_code g) as [|i k]; [simpl; lia|].
  pose proof (occ_nonneg IAdd k). pose proof (occ_nonneg IAdd (i :: k)).
  destruct i; try lia. destruct (g_add g); lia.
Qed.

Lemma total_nonneg f l : (∀ g, 0 <= f g) → 0 <= total f l.
Proof. intros Hf. induction l as [|g l IH]; simpl; [lia|]. specialize (Hf g). lia. Qed.

Lemma weight_fresh p g : g_add g = AddEntry → weight p g = w_code (g_code g).
Proof.
  intros Ha. unfold weight. rewrite Ha. by destruct (g_code g) as [|[] k].
Qed.

Lemma pend_fresh g : g_add g = AddEntry → pend g = 2 * occ IAdd (g_code g).
Proof.
  intros Ha. unfold pend. rewrite Ha.
  destruct (g_code g) as [|[] k]; simpl; lia.
Qed.

Lemma weight_change p p' g : weight p' g <= weight p g + 2 * pend g.
Proof.
  unfold weight, pend. destruct (g_code g) as [|i k]; [simpl; lia|].
  pose proof (occ_nonneg IAdd k). pose proof (occ_nonneg IAdd (i :: k)).
  destruct i; try lia.
  destruct (g_add g); repeat case_decide; lia.
Qed.

Lemma total_weight_change p p' l :
  total (weight p') l <= total (weight p) l + 2 * total pend l.
Proof.
  induction l as [|g l IH]; simpl; [lia|].
  pose proof (weight_change p p' g). lia.
Qed.

(** A step either leaves [errs] alone and shortens the goroutine's own
    work, or swaps [errs] and uses up one pending swap. *)
Lemma exec_rel_measure g s g' s' :
  exec_rel g s g' s' → panicked s = None →
  (errs s' = errs s ∧
   weight (errs s) g' + alive s' + 1 <= weight (errs s) g + alive s ∧
   pend g' <= pend g) ∨
  (weight (errs s') g' + 1 <= weight (errs s) g ∧
   pend g' + 1 <= pend g ∧ alive s' = alive s).
Proof.
  intros Hx Hp.
  assert (Ha : alive s = 1) by (unfold alive; by rewrite Hp).
  destruct Hx;
    try (left; split; [done|];
         rewrite weight_fresh by done; rewrite pend_fresh by done;
         unfold weight, pend, alive; rewrite H; simpl; rewrite ?Hp; lia).
  - (* Add(nil) returns *)
    left. split; [done|].
    rewrite weight_fresh by done. rewrite pend_fresh by done.
    unfold weight, pend, alive. rewrite H, H0. simpl. rewrite ?Hp.
    pose proof (occ_nonneg IAdd k). lia.
  - left. split; [done|]. unfold weight, pend, alive. simpl.
    rewrite H, H0, Hp. lia.
  - destruct (errs s) eqn:He.
    + left. split; [done|]. unfold weight, pend, alive. simpl.
      rewrite H, H0, Hp. lia.
    + right. unfold weight, pend, alive. simpl. rewrite H, H0. lia.
  - left. split; [done|]. unfold weight, pend, alive. simpl.
    rewrite H, H0, Hp. rewrite decide_True by done. lia.
  - left. split; [done|]. unfold alive. simpl. rewrite Hp. lia.
  - right. rewrite weight_fresh by done. rewrite pend_fresh by done.
    unfold weight, pend, alive. simpl. rewrite H, H0, H1.
    rewrite decide_True by done. simpl. lia.
  - left. split; [done|]. unfold weight, pend, alive. simpl.
    rewrite H, H0, Hp. rewrite decide_False by done. lia.
  - left. split; [done|]. unfold alive. simpl. rewrite Hp. lia.
Qed.

Lemma measure_nonneg s : 0 <= measure s.
Proof.
  unfold measure, alive.
  pose proof (total_nonneg (weight (errs (sh s))) (gos s) (weight_nonneg _)).
  pose proof (total_nonneg pend (gos s) pend_nonneg).
  destruct (panicked (sh s)), (returned s); nia.
Qed.

Lemma measure_move m s s' : move m s = Some s' → measure s' < measure s.
Proof.
  destruct m as [i|]; intros Hm.
  - apply move_go_inv in Hm as (l1 & g & l2 & g' & s1 & Hgos & _ & Hp & Hx & ->).
    unfold measure. simpl. rewrite Hgos, !total_middle.
    pose proof (total_nonneg pend l1 pend_nonneg).
    pose proof (total_nonneg pend l2 pend_nonneg).
    pose proof (pend_nonneg g). pose proof (pend_nonneg g').
    destruct (exec_rel_measure _ _ _ _ Hx Hp) as [(He & Hw & Hq)|(Hw & Hq & Ha)].
    + rewrite He. destruct (returned s); nia.
    + pose proof (total_weight_change (errs (sh s)) (errs s1) l1).
      pose proof (total_weight_change (errs (sh s)) (errs s1) l2).
      rewrite Ha. destruct (returned s); nia.
  - apply move_caller_inv in Hm as (_ & Hr & _ & ->).
    unfold measure. simpl. rewrite Hr. lia.
Qed.



Lemma move_or_quiescent s : quiescent s ∨ ∃ m s', move m s = Some s'.
Proof.
  destruct (move Caller s) as [s1|] eqn:Hc; [right; eauto|].
  assert (Hn : ∀ n, (∀ i, (i < n)%nat → move (Go i) s = None) ∨
                    ∃ i s', move (Go i) s = Some s').
  { induction n as [|n [IH|IH]]; [left; lia | | by right].
    destruct (move (Go n) s) as [s1|] eqn:Hg; [right; eauto|].
    left. intros i Hi. destruct (decide (i = n)) as [->|]; [done|]. apply IH. lia. }
  destruct (Hn (length (gos s))) as [Hall|(i & s' & Hi)]; [|right; eauto].
  left. intros [i|]; [|done].
  destruct (decide (i < length (gos s))%nat); [by apply Hall|].
  unfold move. destruct (panicked (sh s)); [done|].
  by rewrite lookup_ge_None_2 by lia.
Qed.

(** From every state some run ends in a state where nothing can move. *)
Lemma reaches_quiescent s : ∃ s', reachable s s' ∧ quiescent s'.
Proof.
  assert (H : ∀ n s, measure s <= Z.of_nat n → ∃ s', reachable s s' ∧ quiescent s').
  { clear s. induction n as [|n IH]; intros s Hs.
    - exists s. split; [constructor|]. intros m.
      destruct (move m s) as [s1|] eqn:Hm; [|done].
      apply measure_move in Hm. pose proof (measure_nonneg s1). lia.
    - destruct (move_or_quiescent s) as [Hq|(m & s1 & Hm)].
      + exists s. split; [constructor | done].
      + destruct (IH s1) as (s' & Hr & Hq).
        * apply measure_move in Hm. lia.
        * exists s'. split; [|done]. eapply reachable_trans; [|exact Hr].
          eapply reach_step; [constructor | by exists m]. }
  apply (H (Z.to_nat (measure s))). pose proof (measure_nonneg s). lia.
Qed.

(** *** What a run leaves in the trace *)

Lemma omap_flat_map {A B C} (f : B → option C) (h : A → list B) l :
  omap f (flat_map h l) = flat_map (λ x, omap f (h x)) l.
Proof. induction l as [|x l IH]; simpl; [done|]. by rewrite omap_app, IH. Qed.

Lemma flat_map_singletons {A B} (P : A → Prop) `{∀ x, Decision (P x)}
    (h : A → B) l :
  Forall P l → flat_map (λ x, if decide (P x) then [h x] else []) l = map h l.
Proof.
  induction 1 as [|x l Hx Hl IH]; simpl; [done|].
  by rewrite decide_True, IH.
Qed.

Lemma flat_map_optional_sublist {A B} (P : A → Prop) `{∀ x, Decision (P x)}
    (h : A → B) l :
  flat_map (λ x, if decide (P x) then [h x] else []) l `sublist_of` map h l.
Proof.
  induction l as [|x l IH]; simpl; [done|].
  case_decide; simpl; by constructor.
Qed.

Lemma flat_map_ext_Forall {A B} (f1 f2 : A → list B) l :
  Forall (λ x, f1 x = f2 x) l → flat_map f1 l = flat_map f2 l.
Proof. induction 1 as [|x l Hx Hl IH]; simpl; [done|]. by rewrite Hx, IH. Qed.

Lemma omap_map_cons {A B C} (f : B → option C) (h : A → B) x l :
  omap f (map h (x :: l)) =
  match f (h x) with
  | Some y => y :: omap f (map h l)
  | None => omap f (map h l)
  end.
Proof. done. Qed.

Lemma calls_events_of g :
  NoDup (g_past g) →
  calls (events_of g) =
  if decide (ICall ∈ g_past g) then [(g_id g, g_idx g)] else [].
Proof.
  unfold events_of, calls. induction 1 as [|i l Hi Hl IH]; [done|].
  rewrite omap_map_cons, IH.
  destruct (decide (i = ICall)) as [->|Hne].
  - simpl. by rewrite decide_False.
  - assert ((λ e, match e with EvCall u i => Some (u, i) | _ => None end)
              (event_of g i) = None) as -> by by destruct i.
    repeat case_decide; try done.
    + exfalso. apply H0. by right.
    + apply elem_of_cons in H0 as [?|?]; done.
Qed.

Lemma returns_events_of g :
  NoDup (g_past g) →
  returns (events_of g) =
  if decide (IRet ∈ g_past g) then [(g_id g, g_fn g (g_idx g))] else [].
Proof.
  unfold events_of, returns. induction 1 as [|i l Hi Hl IH]; [done|].
  rewrite omap_map_cons, IH.
  destruct (decide (i = IRet)) as [->|Hne].
  - simpl. by rewrite decide_False.
  - assert ((λ e, match e with EvReturn u r => Some (u, r) | _ => None end)
              (event_of g i) = None) as -> by by destruct i.
    repeat case_decide; try done.
    + exfalso. apply H0. by right.
    + apply elem_of_cons in H0 as [?|?]; done.
Qed.

Lemma imap_seq_0 {A B} (F : nat → B) (l : list A) :
  imap (λ u _, F u) l = map F (seq 0 (length l)).
Proof.
  apply list_eq. intros i. rewrite list_lookup_imap.
  change (map F (seq 0 (length l))) with (F <$> seq 0 (length l)).
  rewrite list_lookup_fmap.
  destruct (l !! i) as [x|] eqn:E; simpl.
  - apply lookup_lt_Some in E. by rewrite lookup_seq_lt.
  - apply lookup_ge_None in E. by rewrite lookup_seq_ge.
Qed.

Section Observations.

Variable body : list stmt.
Variable fns : list Func.
Variable c : Z.
Variable tr0 : list event.
Variable s : state.

Hypothesis body_proper : proper body.
Hypothesis Hinv : inv body fns c tr0 s.

Lemma inv_past_NoDup : Forall (λ g, NoDup (g_past g)) (gos s).
Proof.
  eapply Forall_impl; [apply (inv_good _ _ _ _ _ Hinv)|].
  intros g. apply good_past_NoDup. apply body_proper.
Qed.

Lemma gos_imap {B} (F : nat → Func → B) :
  map (λ g, F (g_id g) (g_fn g)) (gos s) = imap F fns.
Proof.
  apply list_eq. intros i. rewrite list_lookup_imap.
  change (map ?f ?l) with (f <$> l). rewrite list_lookup_fmap.
  destruct (gos s !! i) as [g|] eqn:E; simpl.
  - destruct (inv_ids _ _ _ _ _ Hinv i g E) as [-> ->]. done.
  - apply lookup_ge_None in E. rewrite (inv_len _ _ _ _ _ Hinv) in E.
    by rewrite lookup_ge_None_2.
Qed.

Lemma trace_omap {B} (f : event → option B) :
  omap f (trace (sh s)) ≡ₚ
  flat_map (λ g, omap f (events_of g)) (gos s) ++ omap f tr0.
Proof.
  rewrite (inv_perm _ _ _ _ _ Hinv). by rewrite omap_app, omap_flat_map.
Qed.

Lemma good_NoDup g : good body g → NoDup (g_past g).
Proof. apply good_past_NoDup. apply body_proper. Qed.

Lemma calls_trace :
  calls (trace (sh s)) ≡ₚ
  flat_map (λ g, if decide (ICall ∈ g_past g)
                 then [(g_id g, Z.of_nat (g_id g))] else []) (gos s)
  ++ calls tr0.
Proof.
  unfold calls at 1. rewrite trace_omap.
  erewrite flat_map_ext_Forall; [done|].
  eapply Forall_impl; [apply (inv_good _ _ _ _ _ Hinv)|].
  intros g Hg. fold (calls (events_of g)).
  rewrite calls_events_of by by apply good_NoDup.
  by rewrite (good_idx _ _ Hg).
Qed.

Lemma returns_trace :
  returns (trace (sh s)) ≡ₚ
  flat_map (λ g, if decide (IRet ∈ g_past g)
                 then [(g_id g, g_fn g (Z.of_nat (g_id g)))] else []) (gos s)
  ++ returns tr0.
Proof.
  unfold returns at 1. rewrite trace_omap.
  erewrite flat_map_ext_Forall; [done|].
  eapply Forall_impl; [apply (inv_good _ _ _ _ _ Hinv)|].
  intros g Hg. fold (returns (events_of g)).
  rewrite returns_events_of by by apply good_NoDup.
  by rewrite (good_idx _ _ Hg).
Qed.

(** No unit is invoked twice, and each with its own number. *)
Lemma calls_fresh :
  ∃ l, calls (trace (sh s)) ≡ₚ l ++ calls tr0 ∧ NoDup l ∧
       ∀ u i, (u, i) ∈ l → i = Z.of_nat u ∧ (u < length fns)%nat.
Proof.
  eexists. split; [apply calls_trace|].
  assert (Hsub := flat_map_optional_sublist (λ g, ICall ∈ g_past g)
                    (λ g, (g_id g, Z.of_nat (g_id g))) (gos s)).
  rewrite (gos_imap (λ u _, (u, Z.of_nat u))) in Hsub.
  rewrite imap_seq_0 in Hsub.
  split.
  - eapply sublist_NoDup; [|exact Hsub].
    apply (NoDup_fmap_2_strong (λ u, (u, Z.of_nat u))); [|apply NoDup_seq].
    by intros u v _ _ [= ->].
  - intros u i Hin. eapply elem_of_sublist in Hin; [|exact Hsub].
    apply list_elem_of_fmap in Hin as (v & [= -> ->] & Hv).
    apply elem_of_seq in Hv. split; [done | lia].
Qed.

(** Once every unit has been invoked, each was invoked exactly once. *)
Lemma calls_complete :
  Forall (λ g, ICall ∈ g_past g) (gos s) →
  calls (trace (sh s)) ≡ₚ imap (λ u _, (u, Z.of_nat u)) fns ++ calls tr0.
Proof.
  intros Hall. rewrite calls_trace. apply Permutation_app_tail.
  rewrite (flat_map_singletons (λ g, ICall ∈ g_past g)) by done.
  by rewrite (gos_imap (λ u _, (u, Z.of_nat u))).
Qed.

Lemma returns_complete :
  Forall (λ g, IRet ∈ g_past g) (gos s) →
  returns (trace (sh s)) ≡ₚ
  imap (λ u fn, (u, fn (Z.of_nat u))) fns ++ returns tr0.
Proof.
  intros Hall. rewrite returns_trace. apply Permutation_app_tail.
  rewrite (flat_map_singletons (λ g, IRet ∈ g_past g)) by done.
  by rewrite (gos_imap (λ u fn, (u, fn (Z.of_nat u)))).
Qed.

(** Once every unit has added its error, the aggregator holds exactly the
    non-nil ones. *)
Lemma store_complete :
  Forall (λ g, IAdd ∈ g_past g) (gos s) →
  Errors_List (heap (sh s)) (errs (sh s)) ≡ₚ failures fns.
Proof.
  intros Hall. rewrite (inv_store _ _ _ _ _ Hinv). unfold failures.
  pose proof (gos_imap (λ u fn, fn (Z.of_nat u))) as E.
  unfold Func in E. rewrite <- E. clear E.
  apply eq_subrelation; [apply _|].
  pose proof (inv_good _ _ _ _ _ Hinv) as Hg.
  induction Hall as [|g l Hgl Hl IH]; [done|].
  apply Forall_cons in Hg as [Hg Hgs]. simpl. rewrite IH by done.
  unfold recorded. rewrite decide_True by done.
  rewrite (good_idx _ _ Hg). by destruct (g_fn g (Z.of_nat (g_id g))).
Qed.

End Observations.

(** *** Complete runs *)

Lemma Forall_impl2 {A} (P Q R : A → Prop) l :
  Forall P l → Forall Q l → (∀ x, P x → Q x → R x) → Forall R l.
Proof.
  intros HP HQ H. induction HP as [|x l Hx Hl IH]; [constructor|].
  apply Forall_cons in HQ as [? ?]. constructor; auto.
Qed.

Lemma quiescent_blocked s :
  quiescent s → panicked (sh s) = None →
  Forall (λ g, exec g (sh s) = None) (gos s).
Proof.
  intros Hq Hp. apply Forall_lookup_2. intros i g Hg.
  specialize (Hq (Go i)). unfold move in Hq. rewrite Hp, Hg in Hq. simpl in Hq.
  by destruct (exec g (sh s)) as [[]|].
Qed.

(** When the caller has returned, every goroutine has finished. *)
Lemma returned_finished body fns c tr0 s r :
  proper body → inv body fns c tr0 s → returned s = Some r →
  Forall (λ g, g_code g = []) (gos s).
Proof.
  intros Hb Hi Hr. destruct (inv_returned _ _ _ _ _ Hi r Hr) as [Hz _].
  pose proof (inv_wg _ _ _ _ _ Hi) as Hwg.
  pose proof (inv_good _ _ _ _ _ Hi) as Hg.
  assert (Hd : Forall (λ g, 0 <= dones g <= 1) (gos s)).
  { eapply Forall_impl; [exact Hg|]. intros g. apply good_dones, Hb. }
  apply (total_full dones) in Hd; [|lia].
  apply (Forall_impl2 _ _ _ _ Hg Hd). intros g Hgood Hone.
  eapply good_done_last; [apply Hb | exact Hgood |].
  apply occ_pos_in. unfold dones in Hone. lia.
Qed.

Lemma returned_quiescent body fns c tr0 s r :
  proper body → inv body fns c tr0 s → returned s = Some r → quiescent s.
Proof.
  intros Hb Hi Hr [i|]; unfold move.
  - destruct (panicked (sh s)); [done|].
    destruct (gos s !! i) as [g|] eqn:Hg; [|done]. simpl.
    pose proof (returned_finished _ _ _ _ _ _ Hb Hi Hr) as Hf.
    apply (Forall_lookup_1 _ _ _ _ Hf) in Hg. unfold exec. by rewrite Hg.
  - destruct (panicked (sh s)); [done|]. by rewrite Hr.
Qed.

Lemma doOp_finished_past g :
  good doOp g → g_code g = [] →
  ICall ∈ g_past g ∧ IRet ∈ g_past g ∧ IAdd ∈ g_past g.
Proof.
  intros Hg Hc.
  positions Hg; rewrite Hcode in Hc; try done.
  rewrite Hpast, !elem_of_cons. auto 10.
Qed.

Lemma doOne_blocked_past g s :
  good doOne g → exec g s = None →
  ICall ∈ g_past g ∧ IRet ∈ g_past g ∧ IAdd ∈ g_past g.
Proof.
  intros Hg Hx.
  apply exec_blocked in Hx as [Hc|[(k & Hc & _)|(k & Hc & _)]];
    positions Hg; rewrite Hcode in Hc; try done;
    rewrite Hpast, !elem_of_cons; auto 10.
Qed.

Lemma Funcs_Do_quiescent_returned fns maxParallel tr s0 s :
  Funcs_Do fns maxParallel tr = Spawns s0 → reachable s0 s → quiescent s →
  ∃ r, returned s = Some r.
Proof.
  intros Hs Hr Hq. destruct (returned s) as [r|] eqn:Hret; [eauto|].
  destruct (Funcs_Do_progress _ _ _ _ _ Hs Hr Hret) as (m & s' & Hm).
  by rewrite Hq in Hm.
Qed.

Lemma Funcs_Do_quiescent_past fns maxParallel tr s0 s :
  Funcs_Do fns maxParallel tr = Spawns s0 → reachable s0 s → quiescent s →
  Forall (λ g, ICall ∈ g_past g ∧ IRet ∈ g_past g ∧ IAdd ∈ g_past g) (gos s).
Proof.
  intros Hs Hr Hq.
  destruct (Funcs_Do_quiescent_returned _ _ _ _ _ Hs Hr Hq) as [r Hret].
  pose proof (doOp_inv _ _ _ _ _ Hs Hr) as Hi.
  pose proof (returned_finished _ _ _ _ _ _ doOp_proper Hi Hret) as Hf.
  apply (Forall_impl2 _ _ _ _ (inv_good _ _ _ _ _ Hi) Hf).
  apply doOp_finished_past.
Qed.

Lemma Func_Do_quiescent_past fn count maxParallel tr s0 s :
  Func_Do fn count maxParallel tr = Spawns s0 → reachable s0 s → quiescent s →
  Forall (λ g, ICall ∈ g_past g ∧ IRet ∈ g_past g ∧ IAdd ∈ g_past g) (gos s).
Proof.
  intros Hs Hr Hq.
  pose proof (doOne_inv _ _ _ _ _ _ Hs Hr) as Hi.
  pose proof (quiescent_blocked s Hq (inv_alive _ _ _ _ _ Hi)) as Hb.
  apply (Forall_impl2 _ _ _ _ (inv_good _ _ _ _ _ Hi) Hb).
  intros g Hg Hx. by eapply doOne_blocked_past.
Qed.

(** What [Err] yields once every unit has added its error. *)
Lemma result_complete body fns c tr0 s :
  proper body → inv body fns c tr0 s →
  Forall (λ g, IAdd ∈ g_past g) (gos s) →
  Errors_List (heap (sh s)) (errs (sh s)) ≡ₚ failures fns ∧
  Errors_Err (heap (sh s)) (errs (sh s)) =
    match Errors_List (heap (sh s)) (errs (sh s)) with
    | [] => None
    | l => Combine l
    end.
Proof.
  intros Hb Hi Hall. split; [by eapply store_complete|].
  destruct (errs (sh s)) as [a|] eqn:He; [|done]. simpl.
  destruct (deref (heap (sh s)) a) as [|e l] eqn:Hd; [|done]. exfalso.
  pose proof (inv_store _ _ _ _ _ Hi) as Hst. rewrite He in Hst. simpl in Hst.
  rewrite Hd in Hst. apply Permutation_nil in Hst.
  pose proof (inv_nonnil _ _ _ _ _ Hi) as Hnn. rewrite He in Hnn.
  specialize (Hnn ltac:(done)).
  apply Exists_exists in Hnn as (g & Hin & [e Hg]).
  pose proof (inv_good _ _ _ _ _ Hi) as Hgood.
  rewrite Forall_forall in Hall, Hgood.
  assert (Hrec : e ∈ flat_map recorded (gos s)).
  { apply list_elem_of_In, in_flat_map. exists g. split; [by apply list_elem_of_In|].
    unfold recorded. rewrite decide_True by by apply Hall.
    rewrite Hg. simpl. by left. }
  rewrite Hst in Hrec. by apply elem_of_nil in Hrec.
Qed.

(** *** The order of events within one unit *)

Lemma proj_Exists a u tr :
  Exists (λ x, a x = true) (proj u tr) → Exists (λ x, a x = true) tr.
Proof.
  unfold proj. rewrite !Exists_exists. intros (x & Hin & Hx).
  exists x. split; [|done].
  apply list_elem_of_In. apply list_elem_of_In, filter_In in Hin. tauto.
Qed.

(** An ordering between events of unit [u] can be read off the events of
    [u] alone. *)
Lemma precedes_proj a b u tr :
  (∀ e, b e = true → unit_of e = u) →
  precedes a b (proj u tr) → precedes a b tr.
Proof.
  intros Hb. induction tr as [|e tr IH]; simpl; [done|].
  destruct (Nat.eqb_spec (unit_of e) u) as [He|He]; simpl.
  - intros [H1 H2]. split; [|by apply IH].
    intros Hbe. by apply (proj_Exists a u), H1.
  - intros H. split; [|by apply IH].
    intros Hbe. by apply Hb in Hbe.
Qed.

Lemma inv_unit_events body fns c s u fn :
  inv body fns c [] s → fns !! u = Some fn →
  ∃ g, good body g ∧ g_id g = u ∧ g_idx g = Z.of_nat u ∧ g_fn g = fn ∧
       proj u (trace (sh s)) = events_of g.
Proof.
  intros Hi Hu.
  destruct (gos s !! u) as [g|] eqn:Hg.
  - exists g. destruct (inv_ids _ _ _ _ _ Hi u g Hg) as [Hid Hfn].
    pose proof (Forall_lookup_1 _ _ _ _ (inv_good _ _ _ _ _ Hi) Hg) as Hgood.
    split_and!; try done.
    + by rewrite (good_idx _ _ Hgood), Hid.
    + congruence.
    + rewrite (inv_proj _ _ _ _ _ Hi), Hg. simpl. by rewrite app_nil_r.
  - apply lookup_ge_None in Hg. apply lookup_lt_Some in Hu.
    rewrite (inv_len _ _ _ _ _ Hi) in Hg. lia.
Qed.

Lemma Funcs_Do_unit_history fns maxParallel s0 s u fn :
  Funcs_Do fns maxParallel [] = Spawns s0 → reachable s0 s →
  fns !! u = Some fn →
  ∃ n, reverse (proj u (trace (sh s))) = take n (doOp_history u fn).
Proof.
  intros Hs Hr Hu. pose proof (doOp_inv _ _ _ _ _ Hs Hr) as Hi.
  destruct (inv_unit_events _ _ _ _ _ _ Hi Hu) as (g & Hg & Hid & Hidx & Hfn & ->).
  unfold events_of, doOp_history.
  positions Hg; rewrite Hpast; cbn; rewrite ?Hidx, ?Hfn, ?Hid;
    first [by exists 0%nat | by exists 1%nat | by exists 2%nat | by exists 3%nat
          | by exists 4%nat | by exists 5%nat | by exists 6%nat].
Qed.

Lemma Func_Do_unit_history fn count maxParallel s0 s u :
  Func_Do fn count maxParallel [] = Spawns s0 → reachable s0 s →
  Z.of_nat u < count →
  ∃ n, reverse (proj u (trace (sh s))) = take n (doOne_history u fn).
Proof.
  intros Hs Hr Hu. pose proof (doOne_inv _ _ _ _ _ _ Hs Hr) as Hi.
  assert (Hfn' : replicate (Z.to_nat count) fn !! u = Some fn).
  { apply lookup_replicate_2. lia. }
  destruct (inv_unit_events _ _ _ _ _ _ Hi Hfn') as (g & Hg & Hid & Hidx & Hfn & ->).
  unfold events_of, doOne_history.
  positions Hg; rewrite Hpast; cbn; rewrite ?Hidx, ?Hfn, ?Hid;
    first [by exists 0%nat | by exists 1%nat | by exists 2%nat | by exists 3%nat
          | by exists 4%nat | by exists 5%nat].
Qed.

Ltac find_event :=
  repeat first
    [ apply Exists_cons_hd; simpl; rewrite ?Nat.eqb_refl, ?Z.eqb_refl; reflexivity
    | apply Exists_cons_tl ].

Ltac check_order :=
  simpl; rewrite ?Nat.eqb_refl, ?Z.eqb_refl; simpl;
  repeat split; try done; intros _; find_event.

Lemma doOp_history_order u fn n :
  let tr := reverse (take n (doOp_history u fn)) in
  precedes (is_acquire u) (is_call u) tr ∧
  precedes (is_call u) (is_return u) tr ∧
  precedes (is_return u) (is_added u) tr ∧
  precedes (is_added u) (is_release u) tr ∧
  precedes (is_release u) (is_done u) tr.
Proof.
  unfold doOp_history.
  do 7 (try destruct n as [|n]); cbn -[is_acquire is_call is_return is_added is_release is_done];
    rewrite ?take_nil; cbn -[is_acquire is_call is_return is_added is_release is_done];
    split_and!; check_order.
Qed.

Lemma quiescentb_true s : quiescentb s = true → quiescent s.
Proof.
  unfold quiescentb. rewrite forallb_forall. intros H m.
  assert (Hin : In m (Caller :: map Go (seq 0 (length (gos s)))) →
                move m s = None).
  { intros Hin. apply H in Hin. by apply bool_decide_eq_true in Hin. }
  destruct m as [i|]; [|apply Hin; by left].
  destruct (decide (i < length (gos s))%nat).
  - apply Hin. right. apply in_map, in_seq. lia.
  - unfold move. destruct (panicked (sh s)); [done|].
    by rewrite lookup_ge_None_2 by lia.
Qed.

(** ** The properties of the dispatcher *)

(** C1 (as the code has it).  In a run of [Funcs.Do], the events of the unit
    at position [u] are an initial part of: acquire the semaphore, enter the
    task with index [u], the task returns, its error is added to the
    aggregator, release the semaphore, signal completion.  So the semaphore
    is acquired before the task is invoked, the error is recorded after the
    task returns and while the semaphore is still held, and the release
    comes after the recording and before the completion signal. *)
Theorem Funcs_Do_unit_order fns maxParallel s0 s u fn :
  Funcs_Do fns maxParallel [] = Spawns s0 → reachable s0 s →
  fns !! u = Some fn →
  let tr := trace (sh s) in
  (∃ n, reverse (proj u tr) = take n (doOp_history u fn)) ∧
  precedes (is_acquire u) (is_call u) tr ∧
  precedes (is_call u) (is_return u) tr ∧
  precedes (is_return u) (is_added u) tr ∧
  precedes (is_added u) (is_release u) tr ∧
  precedes (is_release u) (is_done u) tr.
Proof.
  intros Hs Hr Hu tr.
  destruct (Funcs_Do_unit_history _ _ _ _ _ _ Hs Hr Hu) as [n Hn].
  split; [by exists n|].
  assert (Hp : proj u tr = reverse (take n (doOp_history u fn))).
  { subst tr. by rewrite <- Hn, reverse_involutive. }
  destruct (doOp_history_order u fn n) as (H1 & H2 & H3 & H4 & H5).
  split_and!; apply (precedes_proj _ _ u); rewrite ?Hp; try done;
    intros [] He; simpl in He; try done;
    try (apply andb_prop in He as [He _]); by apply Nat.eqb_eq in He.
Qed.

(** C2 (the call of [Func.Do] that does not return).  [doOne] defers
    [sema.AcquireRelease()] itself, not the function it returns, so every
    goroutine acquires the semaphore on its way out and never releases it.
    With more units than the cap the caller stays in [wg.Wait()] in every
    reachable state, and some run ends with nothing able to move although
    every task has returned. *)
Theorem Func_Do_never_returns fn count maxParallel tr s0 :
  Func_Do fn count maxParallel tr = Spawns s0 →
  cap_of maxParallel < count →
  (∀ s, reachable s0 s → returned s = None ∧ 0 < wg (sh s)) ∧
  (∃ s, reachable s0 s ∧ quiescent s ∧ returned s = None ∧
        Forall (λ g, IRet ∈ g_past g) (gos s)).
Proof.
  intros Hs Hlt. split.
  - intros s Hr. by eapply Func_Do_waits.
  - destruct (reaches_quiescent s0) as (s & Hr & Hq).
    exists s. split_and!; try done.
    + by eapply Func_Do_waits.
    + eapply Forall_impl; [by eapply Func_Do_quiescent_past|].
      by intros g (_ & ? & _).
Qed.


(** C5.  In a run of either dispatcher, once nothing can move any more the
    aggregator holds exactly the non-nil errors the units returned, each
    once, in some order; [Err] is nil when there is none and otherwise the
    combination of that list; and this is the value a returning [Do] hands
    back.  [Add] of a nil error leaves the aggregator as it was. *)
Theorem Errors_hold_exactly_the_failures fns maxParallel tr s0 s :
  Funcs_Do fns maxParallel tr = Spawns s0 ∨
  (∃ fn count, fns = replicate (Z.to_nat count) fn ∧
               Func_Do fn count maxParallel tr = Spawns s0) →
  reachable s0 s → quiescent s →
  let stored := Errors_List (heap (sh s)) (errs (sh s)) in
  stored ≡ₚ failures fns ∧
  Errors_Err (heap (sh s)) (errs (sh s)) =
    match stored with [] => None | _ => Combine stored end ∧
  (∀ r, returned s = Some r → r = Errors_Err (heap (sh s)) (errs (sh s))) ∧
  (∀ g sd k, g_code g = IAdd :: k → g_add g = AddEntry → g_err g = None →
     ∃ g' sd', exec g sd = Some (g', sd') ∧ g_code g' = k ∧
               heap sd' = heap sd ∧ errs sd' = errs sd).
Proof.
  intros Hdo Hr Hq stored.
  assert (∃ body, proper body ∧ inv body fns (cap_of maxParallel) tr s ∧
               Forall (λ g, IAdd ∈ g_past g) (gos s)) as (body & Hb & Hi & Hall).
  { destruct Hdo as [Hs|(fn & count & -> & Hs)].
    - exists doOp. split_and!; [apply doOp_proper | by eapply doOp_inv |].
      eapply Forall_impl; [by eapply Funcs_Do_quiescent_past|].
      by intros g (_ & _ & ?).
    - exists doOne. split_and!; [apply doOne_proper | by eapply doOne_inv |].
      eapply Forall_impl; [by eapply Func_Do_quiescent_past|].
      by intros g (_ & _ & ?). }
  destruct (result_complete _ _ _ _ _ Hb Hi Hall) as [H1 H2].
  split_and!; try done.
  - unfold stored. rewrite H2. by destruct (Errors_List _ _).
  - intros r Hret. by destruct (inv_returned _ _ _ _ _ Hi r Hret).
  - intros g sd k Hc Ha He. eexists _, _. split.
    + unfold exec. by rewrite Hc, Ha, He.
    + done.
Qed.



(** [Funcs.Do] honours its cap: at no point of a run are more task bodies
    executing than the capacity the semaphore was built with, which is the
    first [maxParallel] when that is positive. *)
Theorem Funcs_Do_honours_cap fns maxParallel tr s0 s :
  Funcs_Do fns maxParallel tr = Spawns s0 → reachable s0 s →
  running s <= cap_of maxParallel ∧
  Semaphore.cap (sema (sh s)) = cap_of maxParallel ∧
  (∀ c rest, maxParallel = c :: rest → 0 < c → cap_of maxParallel = c).
Proof.
  intros Hs Hr. split_and!.
  - by eapply Funcs_Do_bounded.
  - apply (inv_cap _ _ _ _ _ (doOp_inv _ _ _ _ _ Hs Hr)).
  - intros c rest -> Hc. unfold cap_of. destruct (Z.ltb_spec 0 c); [done | lia].
Qed.



End Facts.

(** ** The properties of the semaphore *)

(** C7.  A semaphore built by [NewSemaphore max] keeps its number of
    available tokens within [0, max], whatever operations any number of
    callers attempt on it and in whatever order. *)
Theorem Semaphore_tokens_in_range max s0 ops :
  Semaphore.NewSemaphore max = Semaphore.Built s0 →
  0 <= Semaphore.available (Semaphore.history ops s0) <= max ∧
  Semaphore.cap (Semaphore.history ops s0) = max.
Proof.
  intros Hnew.
  destruct (SemaphoreFacts.history_in_range ops s0) as [Hr Hc];
    [by eapply SemaphoreFacts.NewSemaphore_in_range|].
  apply SemaphoreFacts.NewSemaphore_built in Hnew as [_ ->]. simpl in Hc.
  unfold Semaphore.in_range in Hr. rewrite Hc in Hr. done.
Qed.

(** C9.  [MaybeAcquire] always completes.  When it reports [ok = false] the
    release action is [noop] and the semaphore is as before, and invoking
    the action changes nothing; when it reports [ok = true] one token was
    taken.  Whatever was returned, invoking the release action on a
    semaphore whose tokens are in range leaves them in range. *)
Theorem MaybeAcquire_release_is_safe s :
  Semaphore.in_range s →
  is_Some (Semaphore.complete Semaphore.OMaybeAcquire s) ∧
  match Semaphore.MaybeAcquire s with
  | (false, release, s1) =>
      release = Semaphore.noop ∧ s1 = s ∧
      ∀ t, Semaphore.call release t = Some t
  | (true, release, s1) =>
      release = Semaphore.s_Release ∧
      Semaphore.available s1 = Semaphore.available s - 1 ∧
      Semaphore.in_range s1
  end ∧
  ∀ t t', Semaphore.in_range t →
    Semaphore.call (Semaphore.MaybeAcquire s).1.2 t = Some t' →
    Semaphore.in_range t' ∧ Semaphore.cap t' = Semaphore.cap t.
Proof.
  intros Hr. split_and!.
  - by eexists.
  - unfold Semaphore.MaybeAcquire.
    destruct (Semaphore.send s) as [s1|] eqn:Hs; [|done].
    apply SemaphoreFacts.send_spec in Hs as [Hlt ->].
    unfold Semaphore.in_range, Semaphore.available in *. simpl. split_and!; lia || done.
  - intros t t' Ht Hcall. split.
    + by apply (SemaphoreFacts.complete_in_range
                  (Semaphore.OCall (Semaphore.MaybeAcquire s).1.2) t t').
    + by apply (SemaphoreFacts.complete_cap
                  (Semaphore.OCall (Semaphore.MaybeAcquire s).1.2) t t').
Qed.


(** *** Runs of [Func.Do] and [Funcs.Do] on concrete tasks *)

(** C3 (the run of [Func.Do] that exceeds the cap).  [fine.Do(2, 1)] asks
    for at most one task at a time; since [doOne] acquires the semaphore
    only after the task has returned, both goroutines can be inside the
    task at once. *)
Theorem Func_Do_exceeds_cap :
  Func_Do fine 2 [1] [] = Spawns two_start ∧
  reachable two_start two_inside ∧
  Semaphore.cap (sema (sh two_inside)) = 1 ∧
  Semaphore.len (sema (sh two_inside)) = 0 ∧
  running two_inside = 2.
Proof.
  split; [vm_compute; reflexivity|].
  split; [apply run_reachable|].
  split; [vm_compute; reflexivity|].
  split; vm_compute; reflexivity.
Qed.

(** [Funcs{oops, fine, oops}.Do(2)], run to its end: the events of unit 0
    are the whole history, the error recorded before the release. *)
Lemma Funcs_Do_unit_order_witness :
  Funcs_Do set3 [2] [] = Spawns set3_start ∧
  reachable set3_start set3_end ∧
  set3 !! 0%nat = Some oops ∧
  reverse (proj 0 (trace (sh set3_end))) = doOp_history 0 oops ∧
  precedes (is_added 0) (is_release 0) (trace (sh set3_end)).
Proof.
  assert (H1 : Funcs_Do set3 [2] [] = Spawns set3_start)
    by (vm_compute; reflexivity).
  assert (H2 : reachable set3_start set3_end) by apply run_reachable.
  assert (H3 : set3 !! 0%nat = Some oops) by reflexivity.
  split_and!; [exact H1 | exact H2 | exact H3 | by vm_compute |].
  pose proof (Funcs_Do_unit_order set3 [2] set3_start set3_end
                0 oops H1 H2 H3) as H.
  cbv zeta in H. destruct H as (_ & _ & _ & _ & H & _). exact H.
Defined.

(** The order of the specification fails on both dispatchers.  In
    [Funcs{oops}.Do(1)] the error of unit 0 is in the aggregator while the
    semaphore is still held: no release precedes the recording.  In
    [oops.Do(1, 1)] the task is entered with the semaphore untouched. *)
Lemma recorded_before_release :
  (Funcs_Do [oops] [1] [] = Spawns set1_start ∧
   reachable set1_start set1_added ∧
   trace (sh set1_added) =
     [EvAdded 0; EvReturn 0 (Some 0%nat); EvCall 0 0; EvAcquire 0] ∧
   Errors_List (heap (sh set1_added)) (errs (sh set1_added)) = [0%nat] ∧
   ¬ released_before_recording 0 (trace (sh set1_added))) ∧
  (Func_Do oops 1 [1] [] = Spawns one_start ∧
   reachable one_start one_called ∧
   trace (sh one_called) = [EvCall 0 0] ∧
   ¬ released_before_recording 0 (trace (sh one_called))).
Proof.
  assert (E1 : trace (sh set1_added) =
               [EvAdded 0; EvReturn 0 (Some 0%nat); EvCall 0 0; EvAcquire 0])
    by (vm_compute; reflexivity).
  assert (E2 : trace (sh one_called) = [EvCall 0 0]) by (vm_compute; reflexivity).
  split.
  - split; [vm_compute; reflexivity|].
    split; [apply run_reachable|].
    split; [exact E1|].
    split; [vm_compute; reflexivity|].
    rewrite E1. intros (_ & _ & H & _). destruct H as [H _].
    specialize (H eq_refl).
    repeat (inversion H as [?? H'|?? H']; clear H; try discriminate; rename H' into H).
  - split; [vm_compute; reflexivity|].
    split; [apply run_reachable|].
    split; [exact E2|].
    rewrite E2. intros (H & _). destruct H as [H _].
    specialize (H eq_refl). inversion H.
Qed.

(** [fine.Do(2, 1)]: after both tasks have returned one goroutine holds the
    only token, the other waits for it, and the caller waits for both. *)
Lemma Func_Do_never_returns_witness :
  Func_Do fine 2 [1] [] = Spawns two_start ∧
  cap_of [1] < 2 ∧
  (returned two_stuck = None ∧ 0 < wg (sh two_stuck)) ∧
  quiescent two_stuck.
Proof.
  assert (H1 : Func_Do fine 2 [1] [] = Spawns two_start)
    by (vm_compute; reflexivity).
  assert (H2 : cap_of [1] < 2) by (vm_compute; reflexivity).
  split; [exact H1|]. split; [exact H2|].
  split; [|apply quiescentb_true; vm_compute; reflexivity].
  destruct (Func_Do_never_returns fine 2 [1] [] two_start H1 H2)
    as [H _].
  apply H, run_reachable.
Defined.


(** [Funcs{oops, fine, oops}.Do(2)]: the two failures are stored, the nil
    of [fine] is not, and [Do] returns their combination. *)
Lemma Errors_hold_exactly_the_failures_witness :
  Funcs_Do set3 [2] [] = Spawns set3_start ∧
  reachable set3_start set3_end ∧ quiescent set3_end ∧
  failures set3 = [0%nat; 2%nat] ∧
  Errors_List (heap (sh set3_end)) (errs (sh set3_end)) ≡ₚ failures set3 ∧
  returned set3_end = Some (Some 2%nat).
Proof.
  assert (H1 : Funcs_Do set3 [2] [] = Spawns set3_start)
    by (vm_compute; reflexivity).
  assert (H2 : reachable set3_start set3_end) by apply run_reachable.
  assert (H3 : quiescent set3_end)
    by (apply quiescentb_true; vm_compute; reflexivity).
  split_and!; [exact H1 | exact H2 | exact H3 | vm_compute; reflexivity | |
               vm_compute; reflexivity].
  pose proof (Errors_hold_exactly_the_failures set3 [2] []
                set3_start set3_end (or_introl H1) H2 H3) as H.
  cbv zeta in H. destruct H as [H _]. exact H.
Defined.

(** A semaphore of capacity 2 under a history with one acquire and two
    releases too many. *)
Lemma Semaphore_tokens_in_range_witness :
  Semaphore.NewSemaphore 2 = Semaphore.Built (Semaphore.mk 2 0) ∧
  0 <= Semaphore.available
         (Semaphore.history
            [Semaphore.OAcquire; Semaphore.OAcquire; Semaphore.OAcquire;
             Semaphore.ORelease; Semaphore.OMaybeAcquire;
             Semaphore.OMaybeAcquire; Semaphore.OCall Semaphore.noop;
             Semaphore.ORelease; Semaphore.ORelease; Semaphore.ORelease]
            (Semaphore.mk 2 0)) <= 2.
Proof.
  split; [reflexivity|].
  apply (Semaphore_tokens_in_range 2 (Semaphore.mk 2 0)). reflexivity.
Defined.


(** [MaybeAcquire] on a full semaphore of capacity 1. *)
Lemma MaybeAcquire_release_is_safe_witness :
  Semaphore.in_range (Semaphore.mk 1 1) ∧
  Semaphore.MaybeAcquire (Semaphore.mk 1 1) =
    (false, Semaphore.noop, Semaphore.mk 1 1) ∧
  is_Some (Semaphore.complete Semaphore.OMaybeAcquire (Semaphore.mk 1 1)).
Proof.
  assert (H : Semaphore.in_range (Semaphore.mk 1 1))
    by (unfold Semaphore.in_range, Semaphore.available; simpl; lia).
  split_and!; [exact H | reflexivity |].
  apply (MaybeAcquire_release_is_safe (Semaphore.mk 1 1) H).
Defined.


(** [Funcs{oops, fine, oops}.Do(2)] after two rounds. *)
Lemma Funcs_Do_honours_cap_witness :
  Funcs_Do set3 [2] [] = Spawns set3_start ∧
  reachable set3_start (run (rounds 2 3) set3_start) ∧
  running (run (rounds 2 3) set3_start) <= 2.
Proof.
  assert (H1 : Funcs_Do set3 [2] [] = Spawns set3_start)
    by (vm_compute; reflexivity).
  assert (H2 : reachable set3_start (run (rounds 2 3) set3_start))
    by apply run_reachable.
  split_and!; [exact H1 | exact H2 |].
  destruct (Funcs_Do_honours_cap set3 [2] [] set3_start _ H1 H2)
    as [H _].
  exact H.
Defined.


(** * Further properties *)

Section MoreFacts.

Context {errors : ErrorValues} {multierr : Multierr} {runtime : Runtime}.

(** The position of a goroutine in its body, one case per prefix. *)
Ltac stage Hg :=
  let n := fresh "n" in
  let Hn := fresh "Hn" in
  let Hp := fresh "Hpast" in
  let Hc := fresh "Hcode" in
  destruct (good_split _ _ Hg) as (n & Hn & Hp & Hc);
  rewrite ?code_doOp, ?code_doOne in Hn, Hp, Hc; simpl in Hn;
  do 7 (try (destruct n as [|n]; [cbn in Hp, Hc|])); [..|lia].

(** *** [Func.Do] within the cap *)

Lemma lookup_split_total f (l : list goroutine) j g :
  l !! j = Some g → ∃ l1 l2, l = l1 ++ g :: l2 ∧
    total f l = total f l1 + f g + total f l2.
Proof.
  intros Hj. exists (take j l), (drop (S j) l).
  rewrite <- total_middle. by rewrite take_drop_middle.
Qed.

Lemma Func_Do_progress fn count maxParallel tr s0 s :
  Func_Do fn count maxParallel tr = Spawns s0 → reachable s0 s →
  count <= cap_of maxParallel →
  returned s = None → ∃ m, is_Some (move m s).
Proof.
  intros Hs Hr Hle Hret. pose proof (doOne_inv _ _ _ _ _ _ Hs Hr) as Hi.
  apply Func_Do_spawns in Hs as [Hpos _].
  pose proof (inv_alive _ _ _ _ _ Hi) as Halive.
  pose proof (inv_good _ _ _ _ _ Hi) as Hgood.
  pose proof (inv_wg _ _ _ _ _ Hi) as Hwg.
  pose proof (inv_sema _ _ _ _ _ Hi) as Hsema.
  pose proof (inv_cap _ _ _ _ _ Hi) as Hcap.
  pose proof (inv_len _ _ _ _ _ Hi) as Hlen. rewrite length_replicate in Hlen.
  assert (Hd : Forall (λ g, 0 <= dones g <= 1) (gos s)).
  { eapply Forall_impl; [exact Hgood|]. intros g.
    apply good_dones. apply doOne_proper. }
  destruct (decide (wg (sh s) = 0)) as [Hz|Hnz].
  { exists Caller. unfold move. rewrite Halive, Hret, Hz. simpl. by eexists. }
  destruct (total_not_full dones (gos s) Hd) as (j & g & Hj & Hg0).
  { pose proof (total_bounds dones _ Hd). lia. }
  assert (Hg : good doOne g) by (eapply Forall_lookup_1; eauto).
  exists (Go j). apply (move_go_enabled s j g Halive Hj).
  destruct (lookup_split_total holds _ _ _ Hj) as (l1 & l2 & Hl & Ht).
  rewrite Hl in Hgood. apply Forall_app in Hgood as [Hg1 Hg2].
  apply Forall_cons in Hg2 as [_ Hg2].
  assert (H1 : 0 <= total holds l1 <= Z.of_nat (length l1)).
  { apply total_bounds. eapply Forall_impl; [exact Hg1|].
    intros h Hh. by destruct (doOne_holds h Hh). }
  assert (H2 : 0 <= total holds l2 <= Z.of_nat (length l2)).
  { apply total_bounds. eapply Forall_impl; [exact Hg2|].
    intros h Hh. by destruct (doOne_holds h Hh). }
  assert (Hn : length (gos s) = (length l1 + S (length l2))%nat).
  { rewrite Hl, length_app. done. }
  unfold dones in Hg0.
  change (holds g) with (occ IAcquire (g_past g) - occ IRelease (g_past g)) in Ht.
  stage Hg; rewrite Hpast in Hg0, Ht; simpl in Hg0, Ht; try done;
    (eapply exec_enabled; [exact Hcode | intros ?; simplify_eq | intros ?; simplify_eq]).
  lia.
Qed.

Lemma Func_Do_returns fn count maxParallel tr s0 s :
  Func_Do fn count maxParallel tr = Spawns s0 → reachable s0 s →
  count <= cap_of maxParallel → quiescent s → ∃ r, returned s = Some r.
Proof.
  intros Hs Hr Hle Hq. destruct (returned s) as [r|] eqn:Hret; [eauto|].
  destruct (Func_Do_progress _ _ _ _ _ _ Hs Hr Hle Hret) as (m & s' & Hm).
  by rewrite Hq in Hm.
Qed.


(** *** Neither dispatcher panics *)



End MoreFacts.



(** ** [Errors.Add] without contention, [Funcs.Add] *)

Section Aggregator.

Context {errors : ErrorValues} {multierr : Multierr} {runtime : Runtime}.

Lemma Errors_Add_alone err s :
  ∃ s', Errors_Add err s = Some s' ∧
    Errors_List (heap s') (errs s') =
      option_list err ++ Errors_List (heap s) (errs s) ∧
    heap s `prefix_of` heap s' ∧
    (err = None → heap s' = heap s ∧ errs s' = errs s) ∧
    sema s' = sema s ∧ wg s' = wg s ∧ panicked s' = panicked s.
Proof.
  unfold Errors_Add, alone, exec. destruct err as [e|]; simpl.
  - destruct (errs s) as [c|] eqn:Hc; simpl; rewrite ?Hc; simpl;
      rewrite decide_True by done; simpl;
      (eexists; split; [done|]); simpl; unfold deref.
    + rewrite lookup_app_r, Nat.sub_diag by done. simpl.
      split_and!; try done. by apply prefix_app_r.
    + rewrite lookup_app_r by (rewrite length_app; simpl; lia).
      rewrite length_app. simpl.
      replace (length (heap s) + 1 - (length (heap s) + 1))%nat with 0%nat by lia.
      rewrite lookup_app_r, Nat.sub_diag by done. simpl.
      split_and!; try done. rewrite <- app_assoc. by apply prefix_app_r.
  - eexists. split; [done|]. simpl. split_and!; done.
Qed.

Lemma Errors_Add_all_cons err l s s1 :
  Errors_Add err s = Some s1 →
  Errors_Add_all (err :: l) s = Errors_Add_all l s1.
Proof. intros H. unfold Errors_Add_all. simpl. by rewrite H. Qed.

(** X5.  One goroutine adding [e1, ..., en] to an aggregator nobody else
    works on: every [Add] completes within its four atomic actions, without
    a retry and without a panic; afterwards [List()] is the non-nil ones
    among them, the latest first, in front of what was stored before.  A
    nil error changes nothing, and no slice handed out by an earlier
    [List()] is written to: the slices allocated so far stay as they are. *)
Theorem Errors_Add_sequential l s :
  ∃ s', Errors_Add_all l s = Some s' ∧
    Errors_List (heap s') (errs s') =
      reverse (omap id l) ++ Errors_List (heap s) (errs s) ∧
    heap s `prefix_of` heap s' ∧
    (omap id l = [] → heap s' = heap s ∧ errs s' = errs s) ∧
    panicked s' = panicked s.
Proof.
  revert s. induction l as [|err l IH]; intros s.
  - exists s. by split_and!.
  - destruct (Errors_Add_alone err s) as (s1 & H1 & Hl1 & Hp1 & Hn1 & _ & _ & Hk1).
    destruct (IH s1) as (s' & H2 & Hl2 & Hp2 & Hn2 & Hk2).
    exists s'. rewrite (Errors_Add_all_cons _ _ _ _ H1). split_and!.
    + done.
    + rewrite Hl2, Hl1. destruct err as [e|]; simpl; [|done].
      rewrite reverse_cons, <- app_assoc. done.
    + by etrans.
    + destruct err as [e|]; simpl; [done|]. intros Hnil.
      destruct (Hn1 eq_refl) as [<- <-]. by apply Hn2.
    + by rewrite Hk2.
Qed.

Lemma Funcs_Add_all fns ops : foldl Funcs_Add fns ops = fns ++ ops.
Proof.
  revert fns. induction ops as [|op ops IH]; intros fns; simpl.
  - by rewrite app_nil_r.
  - rewrite IH. unfold Funcs_Add. by rewrite <- app_assoc.
Qed.

(** X6.  [fns.Add(op)] appends: the tasks already in the set keep their
    positions and [op] gets the next one.  So [Do] on a set grown by
    [Add(op_0); ...; Add(op_n)] ends with each old task having returned its
    result for its old position and each [op_j] its result for index
    [len(fns) + j]. *)
Theorem Funcs_Add_then_Do fns ops maxParallel s0 s :
  Funcs_Do (foldl Funcs_Add fns ops) maxParallel [] = Spawns s0 →
  reachable s0 s → quiescent s →
  (∀ u, u < length fns → foldl Funcs_Add fns ops !! u = fns !! u)%nat ∧
  (∀ j, foldl Funcs_Add fns ops !! (length fns + j)%nat = ops !! j) ∧
  returns (trace (sh s)) ≡ₚ
    imap (λ u fn, (u, fn (Z.of_nat u))) fns ++
    imap (λ j op, ((length fns + j)%nat, op (Z.of_nat (length fns + j)))) ops.
Proof.
  intros Hs Hr Hq. rewrite Funcs_Add_all in Hs. rewrite !Funcs_Add_all.
  unfold Funcs. split_and!.
  - intros u Hu. by apply lookup_app_l.
  - intros j. rewrite lookup_app_r by lia. f_equal. lia.
  - pose proof (doOp_inv _ _ _ _ _ Hs Hr) as Hi.
    pose proof (Funcs_Do_quiescent_past _ _ _ _ _ Hs Hr Hq) as Hp.
    rewrite (returns_complete _ _ _ _ _ doOp_proper Hi).
    + simpl. rewrite app_nil_r, imap_app. done.
    + eapply Forall_impl; [exact Hp|]. by intros g (_ & ? & _).
Qed.

End Aggregator.

(** [Funcs{oops}] grown by [Add(fine); Add(oops)], then [Do(2)]. *)
Lemma Funcs_Add_then_Do_witness :
  Funcs_Do (foldl Funcs_Add [oops] [fine; oops]) [2] [] = Spawns set3_start ∧
  reachable set3_start set3_end ∧ quiescent set3_end ∧
  returns (trace (sh set3_end)) ≡ₚ
    [(0%nat, Some 0%nat); (1%nat, None); (2%nat, Some 2%nat)].
Proof.
  assert (H1 : Funcs_Do (foldl Funcs_Add [oops] [fine; oops]) [2] [] =
               Spawns set3_start) by (vm_compute; reflexivity).
  assert (H2 : reachable set3_start set3_end) by apply run_reachable.
  assert (H3 : quiescent set3_end)
    by (apply quiescentb_true; vm_compute; reflexivity).
  split; [exact H1|]. split; [exact H2|]. split; [exact H3|].
  destruct (Funcs_Add_then_Do [oops] [fine; oops] [2] set3_start set3_end
              H1 H2 H3) as (_ & _ & H).
  exact H.
Defined.

(** ** The semaphore: round trips and capacity *)

(** X7.  On a semaphore whose tokens are in range, whichever acquisition
    completes, invoking its release restores the semaphore exactly:
    [Acquire] then [Release], [AcquireRelease] then the function it
    returned, and [MaybeAcquire] then the function it returned, whether it
    took a token or not. *)
Theorem Semaphore_acquire_release_round_trip s :
  Semaphore.in_range s →
  (∀ s1, Semaphore.Acquire s = Some s1 → Semaphore.Release s1 = Some s) ∧
  (∀ s1 r, Semaphore.AcquireRelease s = Some (s1, r) →
     Semaphore.call r s1 = Some s) ∧
  (∀ ok r s1, Semaphore.MaybeAcquire s = (ok, r, s1) →
     Semaphore.call r s1 = Some s).
Proof.
  intros Hr.
  assert (Hrt : ∀ s1, Semaphore.send s = Some s1 → Semaphore.recv s1 = Some s).
  { intros s1 H. apply SemaphoreFacts.send_spec in H as [Hlt ->].
    unfold Semaphore.in_range, Semaphore.available in Hr.
    unfold Semaphore.recv. simpl.
    destruct (Z.ltb_spec 0 (Semaphore.len s + 1)); [|lia].
    destruct s as [c l]. simpl. do 2 f_equal. lia. }
  split_and!.
  - exact Hrt.
  - intros s1 r. unfold Semaphore.AcquireRelease.
    destruct (Semaphore.send s) as [s2|] eqn:H; [|done].
    intros [= <- <-]. by apply Hrt.
  - intros ok r s1. unfold Semaphore.MaybeAcquire.
    destruct (Semaphore.send s) as [s2|] eqn:H.
    + intros [= <- <- <-]. by apply Hrt.
    + by intros [= <- <- <-].
Qed.

Lemma Semaphore_acquire_release_round_trip_witness :
  Semaphore.in_range (Semaphore.mk 2 1) ∧
  Semaphore.call (Semaphore.MaybeAcquire (Semaphore.mk 2 1)).1.2
                 (Semaphore.MaybeAcquire (Semaphore.mk 2 1)).2
    = Some (Semaphore.mk 2 1).
Proof.
  assert (H : Semaphore.in_range (Semaphore.mk 2 1))
    by (unfold Semaphore.in_range, Semaphore.available; simpl; lia).
  split; [exact H|].
  destruct (Semaphore_acquire_release_round_trip _ H) as (_ & _ & H3).
  apply (H3 true). reflexivity.
Defined.

(** The acquiring operations. *)
Lemma acquisitions_len ops s :
  Forall (λ o, o = Semaphore.OAcquire ∨ o = Semaphore.OAcquireRelease ∨
               o = Semaphore.OMaybeAcquire) ops →
  Semaphore.len s <= Semaphore.cap s →
  Semaphore.cap (Semaphore.history ops s) = Semaphore.cap s ∧
  Semaphore.len (Semaphore.history ops s) =
    Z.min (Semaphore.cap s) (Semaphore.len s + Z.of_nat (length ops)).
Proof.
  intros Hops. revert s. induction Hops as [|o ops Ho _ IH]; intros s Hle.
  - simpl. split; [done|]. lia.
  - change (Semaphore.history (o :: ops) s)
      with (Semaphore.history ops (Semaphore.attempt s o)).
    assert (Semaphore.attempt s o =
            if Semaphore.len s <? Semaphore.cap s
            then Semaphore.mk (Semaphore.cap s) (Semaphore.len s + 1)
            else s) as ->.
    { unfold Semaphore.attempt, Semaphore.complete, Semaphore.Acquire,
        Semaphore.AcquireRelease, Semaphore.MaybeAcquire, Semaphore.send.
      destruct Ho as [-> | [-> | ->]];
        by destruct (Semaphore.len s <? Semaphore.cap s). }
    destruct (Z.ltb_spec (Semaphore.len s) (Semaphore.cap s)).
    + destruct (IH (Semaphore.mk (Semaphore.cap s) (Semaphore.len s + 1)))
        as [-> ->]; simpl; [lia|]. split; [done|]. lia.
    + destruct (IH s) as [-> ->]; [lia|]. split; [done|]. simpl length. lia.
Qed.

(** X8.  A semaphore fresh from [NewSemaphore(max)] admits exactly [max]
    acquisitions: after [n] attempts to acquire, by whichever of [Acquire],
    [AcquireRelease] and [MaybeAcquire], [max - n] tokens are left, or none
    once [n] reaches [max].  From then on [Acquire] and [AcquireRelease]
    block and [MaybeAcquire] reports false; before that all three get a
    token. *)
Theorem Semaphore_admits_exactly_max max s0 ops :
  Semaphore.NewSemaphore max = Semaphore.Built s0 →
  Forall (λ o, o = Semaphore.OAcquire ∨ o = Semaphore.OAcquireRelease ∨
               o = Semaphore.OMaybeAcquire) ops →
  let s := Semaphore.history ops s0 in
  Semaphore.available s = Z.max 0 (max - Z.of_nat (length ops)) ∧
  (is_Some (Semaphore.Acquire s) ↔ Z.of_nat (length ops) < max) ∧
  (is_Some (Semaphore.AcquireRelease s) ↔ Z.of_nat (length ops) < max) ∧
  ((Semaphore.MaybeAcquire s).1.1 = true ↔ Z.of_nat (length ops) < max).
Proof.
  intros Hnew Hops s.
  apply SemaphoreFacts.NewSemaphore_built in Hnew as [Hmax ->].
  destruct (acquisitions_len ops (Semaphore.mk max 0) Hops) as [Hc Hl];
    [simpl; lia|].
  simpl in Hc, Hl. fold s in Hc, Hl.
  assert (Hsend : is_Some (Semaphore.send s) ↔ Z.of_nat (length ops) < max).
  { unfold Semaphore.send. rewrite Hc, Hl.
    destruct (Z.ltb_spec (Z.min max (0 + Z.of_nat (length ops))) max).
    - split; [lia | by eexists].
    - split; [by intros [? ?] | lia]. }
  split_and!.
  - unfold Semaphore.available. rewrite Hc, Hl. lia.
  - exact Hsend.
  - rewrite <- Hsend. unfold Semaphore.AcquireRelease.
    destruct (Semaphore.send s) as [s1|].
    + split; intros _; by eexists.
    + split; intros [? ?]; done.
  - rewrite <- Hsend. unfold Semaphore.MaybeAcquire.
    destruct (Semaphore.send s) as [s1|]; simpl.
    + split; [intros _; by eexists | done].
    + split; [done | intros [? ?]; done].
Qed.

Lemma Semaphore_admits_exactly_max_witness :
  Semaphore.NewSemaphore 2 = Semaphore.Built (Semaphore.mk 2 0) ∧
  Semaphore.available
    (Semaphore.history
       [Semaphore.OMaybeAcquire; Semaphore.OAcquire; Semaphore.OAcquireRelease]
       (Semaphore.mk 2 0)) = 0.
Proof.
  assert (H1 : Semaphore.NewSemaphore 2 = Semaphore.Built (Semaphore.mk 2 0))
    by reflexivity.
  split; [exact H1|].
  assert (H2 : Forall (λ o, o = Semaphore.OAcquire ∨
                            o = Semaphore.OAcquireRelease ∨
                            o = Semaphore.OMaybeAcquire)
                 [Semaphore.OMaybeAcquire; Semaphore.OAcquire;
                  Semaphore.OAcquireRelease])
    by (repeat constructor; auto).
  destruct (Semaphore_admits_exactly_max 2 _ _ H1 H2) as (H & _).
  exact H.
Defined.

(** ** Results written into a reserved slice *)

Section Results.

Context {errors : ErrorValues} {multierr : Multierr} {runtime : Runtime}.

Lemma calls_cons e tr :
  calls (e :: tr) =
    match e with EvCall u i => (u, i) :: calls tr | _ => calls tr end.
Proof. by destruct e. Qed.

Lemma replay_slots input tr n :
  (∀ u i, (u, i) ∈ calls tr → 0 <= i < Z.of_nat (length input)) →
  length input = n →
  ∃ res, replay (times_ten_write input) tr (replicate n 0) = Some res ∧
    length res = n ∧
    ∀ j x, input !! j = Some x →
      res !! j = Some (if decide (Z.of_nat j ∈ (calls tr).*2)
                       then wrap_int (x * 10) else 0).
Proof.
  intros Hr Hn. induction tr as [|e tr IH].
  - exists (replicate n 0). split; [done|]. split; [by rewrite length_replicate|].
    intros j x Hj. simpl. rewrite ?decide_False by apply not_elem_of_nil.
    apply lookup_replicate_2. rewrite <- Hn. by eapply lookup_lt_Some.
  - destruct IH as (res & Hres & Hlen & Hslots).
    { intros u i Hin. apply (Hr u i). rewrite calls_cons.
      destruct e; try done. by right. }
    rewrite calls_cons. simpl replay. rewrite Hres. simpl mbind.
    destruct e as [| u i | | | |]; try by (exists res).
    destruct (Hr u i) as [Hi0 Hi1]; [rewrite calls_cons; by left|].
    unfold times_ten_write. rewrite decide_True by (rewrite Hlen, <- Hn; lia).
    destruct (lookup_lt_is_Some_2 input (Z.to_nat i)) as [x0 Hx0]; [lia|].
    rewrite Hx0. simpl. eexists. split; [done|].
    split; [by rewrite length_insert|].
    intros j x Hj.
    change (list_fmap (nat * Z)%type Z snd (calls tr)) with ((calls tr).*2).
    destruct (decide (Z.to_nat i = j)) as [<-|Hne].
    + rewrite list_lookup_insert_eq by lia.
      rewrite decide_True by (rewrite Z2Nat.id by lia; by left).
      by simplify_eq.
    + rewrite list_lookup_insert_ne by done. rewrite (Hslots j x Hj).
      f_equal. destruct (decide (Z.of_nat j ∈ (calls tr).*2)) as [Hin|Hin].
      * rewrite decide_True; [done | by right].
      * rewrite decide_False; [done|].
        rewrite not_elem_of_cons. split; [lia | done].
Qed.

(** X9.  The results pattern of the package documentation, as
    [ExampleFunc_simple] has it: [results] is reserved with [len(input)]
    zeros and task [idx] does [results[idx] = input[idx] * 10].  Whatever
    the input, the cap and the schedule, no task indexes outside a slice;
    an error is never returned; and once nothing moves any more, which
    includes every state in which [Do] has returned, [results] holds ten
    times each input, in input order, with 64-bit wrap-around. *)
Theorem results_slice_filled input maxParallel s0 s :
  Func_Do times_ten (Z.of_nat (length input)) maxParallel [] = Spawns s0 →
  reachable s0 s →
  let results :=
    replay (times_ten_write input) (trace (sh s)) (replicate (length input) 0) in
  is_Some results ∧
  (∀ r, returned s = Some r → r = None ∧ quiescent s) ∧
  (quiescent s → results = Some (map (λ x, wrap_int (x * 10)) input)).
Proof.
  intros Hs Hr results. pose proof (doOne_inv _ _ _ _ _ _ Hs Hr) as Hi.
  rewrite Nat2Z.id in Hi.
  destruct (calls_fresh _ _ _ _ _ doOne_proper Hi) as (l & Hl & _ & Hel).
  simpl in Hl. rewrite app_nil_r in Hl.
  destruct (replay_slots input (trace (sh s)) (length input))
    as (res & Hres & Hlen & Hslots); [|done|].
  { intros u i Hin. rewrite Hl in Hin. destruct (Hel u i Hin) as [-> Hu].
    rewrite length_replicate in Hu. lia. }
  fold results in Hres. split_and!.
  - rewrite Hres. by eexists.
  - intros r Hret. split; [|by eapply returned_quiescent; [apply doOne_proper|..]].
    destruct (inv_returned _ _ _ _ _ Hi r Hret) as [_ ->].
    destruct (errs (sh s)) as [a|] eqn:Ha; [|done].
    pose proof (inv_nonnil _ _ _ _ _ Hi) as Hex. rewrite Ha in Hex.
    specialize (Hex ltac:(done)).
    apply Exists_exists in Hex as (g & Hg & Hsome).
    apply list_elem_of_lookup in Hg as [j Hj].
    destruct (inv_ids _ _ _ _ _ Hi j g Hj) as [_ Hfn].
    apply lookup_replicate_1 in Hfn as [Hfn _]. rewrite Hfn in Hsome.
    by destruct Hsome.
  - intros Hq. rewrite Hres. f_equal. apply list_eq. intros j.
    rewrite list_lookup_fmap.
    destruct (input !! j) as [x|] eqn:Hj; simpl.
    + rewrite (Hslots j x Hj). f_equal. apply decide_True.
      rewrite (calls_complete _ _ _ _ _ doOne_proper Hi).
      * simpl. rewrite app_nil_r. apply list_elem_of_fmap.
        exists (j, Z.of_nat j). split; [done|].
        apply (elem_of_lookup_imap_2 (λ u _, (u, Z.of_nat u)) _ times_ten j).
        apply lookup_replicate_2. by eapply lookup_lt_Some.
      * eapply Forall_impl; [by eapply Func_Do_quiescent_past|].
        by intros g (? & _).
    + apply lookup_ge_None. rewrite Hlen. by apply lookup_ge_None.
Qed.

End Results.

(** [ExampleFunc_simple], run to its end. *)
Lemma results_slice_filled_witness :
  Func_Do times_ten (Z.of_nat (length simple_input)) [5] [] =
    Spawns simple_start ∧
  reachable simple_start simple_end ∧ quiescent simple_end ∧
  replay (times_ten_write simple_input) (trace (sh simple_end))
         (replicate (length simple_input) 0) =
    Some (map (λ x, wrap_int (x * 10)) simple_input) ∧
  map (λ x, wrap_int (x * 10)) simple_input = [100; 200; 300; 400; 500].
Proof.
  assert (H1 : Func_Do times_ten (Z.of_nat (length simple_input)) [5] [] =
               Spawns simple_start) by (vm_compute; reflexivity).
  assert (H2 : reachable simple_start simple_end) by apply run_reachable.
  assert (H3 : quiescent simple_end)
    by (apply quiescentb_true; vm_compute; reflexivity).
  split; [exact H1|]. split; [exact H2|]. split; [exact H3|].
  split; [|vm_compute; reflexivity].
  pose proof (results_slice_filled simple_input [5] simple_start simple_end
                H1 H2) as H.
  cbv zeta in H. destruct H as (_ & _ & H). exact (H H3).
Defined.

(** ** [StringSet] *)

Module StringSetFacts.
Import StringSet.

Lemma len_0 h s : len h s = 0%nat ↔ keys h s = ∅.
Proof. unfold len. rewrite size_empty_iff. by unfold_leibniz. Qed.

Lemma keys_make h : keys (make h).2 (make h).1 = ∅.
Proof.
  unfold make, keys. simpl. by rewrite lookup_app_r, Nat.sub_diag by done.
Qed.

Lemma assign_Some a k h ks :
  h !! a = Some ks →
  assign (Some a) k h = Some (<[a := {[k]} ∪ ks]> h).
Proof. intros H. unfold assign. simpl. by rewrite H. Qed.

Lemma assign_all_Some a order h ks :
  h !! a = Some ks →
  assign_all (Some a) order h = Some (<[a := list_to_set order ∪ ks]> h).
Proof.
  unfold assign_all. revert h ks.
  induction order as [|k order IH]; intros h ks Hks.
  - simpl. rewrite union_empty_l_L. by rewrite list_insert_id.
  - change (foldl (λ acc k, acc ≫= assign (Some a) k)
              (assign (Some a) k h) order = 
            Some (<[a := list_to_set (k :: order) ∪ ks]> h)).
    rewrite (assign_Some _ _ _ _ Hks).
    rewrite (IH _ ({[k]} ∪ ks)).
    + rewrite list_insert_insert_eq. do 2 f_equal. simpl.
      by rewrite (assoc_L (∪)), (comm_L (∪) (list_to_set order)).
    + apply list_lookup_insert_eq. by eapply lookup_lt_Some.
Qed.

Lemma remove_all_Some a order h ks :
  h !! a = Some ks →
  remove_all (Some a) order h = <[a := ks ∖ list_to_set order]> h.
Proof.
  unfold remove_all. revert h ks.
  induction order as [|k order IH]; intros h ks Hks; simpl.
  - rewrite difference_empty_L. by rewrite list_insert_id.
  - rewrite Hks. rewrite (IH _ (ks ∖ {[k]})).
    + rewrite list_insert_insert_eq. f_equal.
      by rewrite difference_difference_l_L.
    + apply list_lookup_insert_eq. by eapply lookup_lt_Some.
Qed.

Lemma remove_all_nil order h : remove_all None order h = h.
Proof. unfold remove_all. by induction order. Qed.

Lemma remove_all_dangling a order h :
  h !! a = None → remove_all (Some a) order h = h.
Proof.
  intros H. unfold remove_all. induction order as [|k order IH]; simpl; [done|].
  by rewrite H.
Qed.

Lemma keys_insert h a X s :
  (a < length h)%nat →
  keys (<[a := X]> h) s = if decide (s = Some a) then X else keys h s.
Proof.
  intros Ha. case_decide as E.
  - subst. simpl. by rewrite list_lookup_insert_eq.
  - destruct s as [b|]; simpl; [|done].
    rewrite list_lookup_insert_ne; [done | congruence].
Qed.

Lemma keys_alloc h X s :
  keys (h ++ [X]) s = if decide (s = Some (length h)) then X else keys h s.
Proof.
  case_decide as E.
  - subst. simpl. by rewrite lookup_app_r, Nat.sub_diag.
  - destruct s as [b|]; simpl; [|done].
    destruct (decide (b < length h)%nat).
    + by rewrite lookup_app_l.
    + rewrite !lookup_ge_None_2; [done | lia |].
      rewrite length_app. simpl. assert (b ≠ length h) by congruence. lia.
Qed.

(** What the common part of [Add] and [AddSet] does. *)
Lemma AddSet_in_spec order s h :
  ∃ s' h', AddSet_in order s h = Some (s', h') ∧
    (len h s = 0%nat → s' = Some (length h) ∧ h' = h ++ [list_to_set order]) ∧
    (len h s ≠ 0%nat → s' = s ∧ length h' = length h) ∧
    ∀ r, keys h' r =
      if decide (r = s') then keys h s ∪ list_to_set order else keys h r.
Proof.
  unfold AddSet_in. destruct (decide (len h s = 0%nat)) as [Hz|Hnz].
  - unfold make.
    rewrite (assign_all_Some _ _ _ ∅)
      by (by rewrite lookup_app_r, Nat.sub_diag).
    simpl. eexists _, _. split; [done|].
    assert (Hh : <[length h := list_to_set order ∪ ∅]> (h ++ [∅]) =
                 h ++ [list_to_set order]).
    { rewrite insert_app_r_alt, Nat.sub_diag by done. simpl.
      by rewrite union_empty_r_L. }
    rewrite Hh. split_and!; [done | done |].
    intros r. rewrite keys_alloc. apply len_0 in Hz. rewrite Hz.
    by rewrite union_empty_l_L.
  - destruct s as [a|]; [|by destruct Hnz].
    destruct (h !! a) as [ks|] eqn:Hks;
      [|destruct Hnz; unfold len, keys; by rewrite Hks].
    rewrite (assign_all_Some _ _ _ _ Hks). simpl.
    eexists _, _. split; [done|].
    split_and!; [done | by rewrite length_insert |].
    intros r. rewrite keys_insert by (by eapply lookup_lt_Some).
    simpl. rewrite Hks. simpl.
    destruct (decide (r = Some a)); [apply (comm_L (∪)) | done].
Qed.

Lemma Add_keys strs s h :
  ∃ s' h', Add strs s h = Some (s', h') ∧
           keys h' s' = keys h s ∪ list_to_set strs.
Proof.
  destruct (AddSet_in_spec strs s h) as (s' & h' & HA & _ & _ & Hk).
  exists s', h'. split; [done|]. by rewrite Hk, decide_True.
Qed.

(** X10.  [s.Add(strs...)] never panics, not even on a nil receiver, and
    afterwards [s] has the keys it had and the strings added.  An empty
    receiver, nil or not, is made to refer to a new map object, so a copy of
    the old empty map stays empty; a non-empty receiver is written to in
    place, so every copy of it sees the strings.  No other set changes. *)
Theorem StringSet_Add_spec strs s h :
  ∃ s' h', Add strs s h = Some (s', h') ∧
    keys h' s' = keys h s ∪ list_to_set strs ∧
    (len h s = 0%nat → s' = Some (length h) ∧ h' = h ++ [list_to_set strs]) ∧
    (len h s ≠ 0%nat → s' = s ∧ length h' = length h) ∧
    (∀ r, r ≠ s' → keys h' r = keys h r).
Proof.
  destruct (AddSet_in_spec strs s h) as (s' & h' & HA & Hz & Hnz & Hk).
  exists s', h'. split_and!; try done.
  - by rewrite Hk, decide_True.
  - intros r Hr. by rewrite Hk, decide_False.
Qed.

(** X11.  [s.AddSet(strs)] never panics and leaves [s] with the union of
    the keys of the two sets, in whatever order the keys of [strs] are
    visited and also when [strs] is [s] itself; like [Add] it replaces an
    empty receiver by a new map and writes to a non-empty one in place, and
    it changes no other set, [strs] included. *)
Theorem StringSet_AddSet_spec order strs s h :
  visits h strs order →
  AddSet_in order s h = AddSet strs s h ∧
  ∃ s' h', AddSet strs s h = Some (s', h') ∧
    keys h' s' = keys h s ∪ keys h strs ∧
    (len h s = 0%nat → s' = Some (length h) ∧ h' = h ++ [keys h strs]) ∧
    (len h s ≠ 0%nat → s' = s ∧ length h' = length h) ∧
    (∀ r, r ≠ s' → keys h' r = keys h r).
Proof.
  intros Hv. unfold visits in Hv.
  assert (Hset : ∀ l, l ≡ₚ elements (keys h strs) →
            list_to_set (C := gset string) l = keys h strs).
  { intros l Hl. apply set_eq. intros x.
    rewrite elem_of_list_to_set, Hl. apply elem_of_elements. }
  destruct (AddSet_in_spec order s h) as (s1 & h1 & HA1 & Hz1 & Hnz1 & Hk1).
  unfold AddSet.
  destruct (AddSet_in_spec (elements (keys h strs)) s h)
    as (s' & h' & HA & Hz & Hnz & Hk).
  rewrite Hset in Hz, Hk by done. rewrite Hset in Hz1, Hk1 by done.
  split.
  - rewrite HA1, HA. destruct (decide (len h s = 0%nat)) as [E|E].
    + destruct (Hz E) as [-> ->]. by destruct (Hz1 E) as [-> ->].
    + destruct (Hnz E) as [-> Hl]. destruct (Hnz1 E) as [-> Hl1].
      do 2 f_equal. apply list_eq. intros a.
      specialize (Hk (Some a)). specialize (Hk1 (Some a)).
      rewrite <- Hk1 in Hk. simpl in Hk.
      destruct (decide (a < length h)%nat) as [Ha|Ha].
      * destruct (lookup_lt_is_Some_2 h' a) as [x Hx]; [lia|].
        destruct (lookup_lt_is_Some_2 h1 a) as [y Hy]; [lia|].
        rewrite Hx, Hy in Hk. simpl in Hk. by rewrite Hx, Hy, Hk.
      * by rewrite !lookup_ge_None_2 by lia.
  - exists s', h'. split_and!; try done.
    + by rewrite Hk, decide_True.
    + intros r Hr. by rewrite Hk, decide_False.
Qed.

Lemma StringSet_AddSet_spec_witness :
  visits [{["a"]}; {["b"]}] (Some 1%nat) ["b"] ∧
  keys [{["a"; "b"]}; {["b"]}] (Some 0%nat) = {["a"; "b"]} ∧
  AddSet (Some 1%nat) (Some 0%nat) [{["a"]}; {["b"]}] =
    Some (Some 0%nat, [{["b"; "a"]}; {["b"]}]).
Proof.
  assert (H : visits [{["a"]}; {["b"]}] (Some 1%nat) ["b"]).
  { unfold visits. simpl. by rewrite elements_singleton. }
  split; [exact H|]. split; [done|].
  destruct (StringSet_AddSet_spec ["b"] (Some 1%nat) (Some 0%nat)
              [{["a"]}; {["b"]}] H) as [<- _].
  vm_compute. reflexivity.
Defined.

Lemma remove_all_spec order s h :
  length (remove_all s order h) = length h ∧
  ∀ r, keys (remove_all s order h) r =
    if decide (r = s) then keys h s ∖ list_to_set order else keys h r.
Proof.
  destruct s as [a|].
  - destruct (h !! a) as [ks|] eqn:Hks.
    + rewrite (remove_all_Some _ _ _ _ Hks). split; [by rewrite length_insert|].
      intros r. rewrite keys_insert by (by eapply lookup_lt_Some).
      simpl. by rewrite Hks.
    + rewrite (remove_all_dangling _ _ _ Hks). split; [done|].
      intros r. case_decide as E; [|done]. subst. simpl. rewrite Hks. simpl.
      by rewrite difference_disjoint_L by apply disjoint_empty_l.
  - rewrite remove_all_nil. split; [done|].
    intros r. case_decide as E; [|done]. subst. simpl.
    by rewrite difference_disjoint_L by apply disjoint_empty_l.
Qed.

Lemma visits_list_to_set h s order :
  visits h s order → list_to_set (C := gset string) order = keys h s.
Proof.
  unfold visits. intros Hv. apply set_eq. intros x.
  rewrite elem_of_list_to_set, Hv. apply elem_of_elements.
Qed.

(** X12.  [s.Remove(vs...)] returns [s] itself with the strings of [vs]
    deleted from the map object in place; strings that are not keys, and a
    nil receiver, are no error.  No map is allocated and no other set
    changes. *)
Theorem StringSet_Remove_spec vs s h :
  (Remove vs s h).1 = s ∧
  keys (Remove vs s h).2 s = keys h s ∖ list_to_set vs ∧
  length (Remove vs s h).2 = length h ∧
  (s = None → (Remove vs s h).2 = h) ∧
  (∀ r, r ≠ s → keys (Remove vs s h).2 r = keys h r).
Proof.
  unfold Remove. simpl. destruct (remove_all_spec vs s h) as [Hl Hk].
  split_and!; try done.
  - by rewrite Hk, decide_True.
  - intros ->. apply remove_all_nil.
  - intros r Hr. by rewrite Hk, decide_False.
Qed.

(** X13.  [s.Sub(vs)] returns [s] itself with the keys of [vs] deleted in
    place, in whatever order the keys of [vs] are visited; [s.Sub(s)]
    empties the set.  No other set changes. *)
Theorem StringSet_Sub_spec order vs s h :
  visits h vs order →
  Sub_in order s h = Sub vs s h ∧
  (Sub vs s h).1 = s ∧
  keys (Sub vs s h).2 s = keys h s ∖ keys h vs ∧
  (vs = s → keys (Sub vs s h).2 s = ∅) ∧
  (∀ r, r ≠ s → keys (Sub vs s h).2 r = keys h r).
Proof.
  intros Hv. unfold Sub, Sub_in. simpl.
  assert (He : visits h vs (elements (keys h vs))) by (by unfold visits).
  destruct (remove_all_spec (elements (keys h vs)) s h) as [Hl Hk].
  destruct (remove_all_spec order s h) as [Hl1 Hk1].
  rewrite (visits_list_to_set _ _ _ He) in Hk.
  rewrite (visits_list_to_set _ _ _ Hv) in Hk1.
  assert (Hs : keys (remove_all s (elements (keys h vs)) h) s =
               keys h s ∖ keys h vs) by (by rewrite Hk, decide_True).
  split_and!; try done.
  - f_equal. apply list_eq. intros a.
    specialize (Hk (Some a)). specialize (Hk1 (Some a)).
    rewrite <- Hk in Hk1. simpl in Hk1.
    destruct (decide (a < length h)%nat) as [Ha|Ha].
    + destruct (lookup_lt_is_Some_2 (remove_all s order h) a) as [x Hx]; [lia|].
      destruct (lookup_lt_is_Some_2
                  (remove_all s (elements (keys h vs)) h) a) as [y Hy]; [lia|].
      rewrite Hx, Hy in Hk1. simpl in Hk1. by rewrite Hx, Hy, Hk1.
    + by rewrite !lookup_ge_None_2 by lia.
  - intros ->. rewrite Hs. apply difference_diag_L.
  - intros r Hr. by rewrite Hk, decide_False.
Qed.

Lemma StringSet_Sub_spec_witness :
  visits [{["a"; "b"]}; {["b"]}] (Some 1%nat) ["b"] ∧
  keys (Sub (Some 1%nat) (Some 0%nat) [{["a"; "b"]}; {["b"]}]).2
       (Some 0%nat) = {["a"]}.
Proof.
  assert (H : visits [{["a"; "b"]}; {["b"]}] (Some 1%nat) ["b"]).
  { unfold visits. simpl. by rewrite elements_singleton. }
  split; [exact H|].
  destruct (StringSet_Sub_spec ["b"] (Some 1%nat) (Some 0%nat)
              [{["a"; "b"]}; {["b"]}] H) as (_ & _ & -> & _).
  vm_compute. reflexivity.
Defined.

Lemma foldl_snoc (acc order : list string) :
  foldl (λ vs handle, vs ++ [handle]) acc order = acc ++ order.
Proof.
  revert acc. induction order as [|k order IH]; intros acc; simpl.
  - by rewrite app_nil_r.
  - by rewrite IH, <- app_assoc.
Qed.

(** X14.  [s.List()] is nil for an empty or nil set and otherwise lists
    every key exactly once, [len(s)] strings in all, in the order the keys
    are visited.  Adding the list to a nil set gives a new set with the
    same keys. *)
Theorem StringSet_List_spec order s h :
  visits h s order →
  NoDup (List order h s) ∧
  (∀ k, k ∈ List order h s ↔ k ∈ keys h s) ∧
  length (List order h s) = len h s ∧
  (len h s = 0%nat → List order h s = []) ∧
  ∃ s' h', Add (List order h s) None h = Some (s', h') ∧
           keys h' s' = keys h s.
Proof.
  intros Hv. pose proof Hv as Hp. unfold visits in Hp.
  assert (HL : List order h s = order).
  { unfold List. rewrite foldl_snoc. simpl. case_decide as E; [|done].
    apply len_0 in E. rewrite E, elements_empty in Hp.
    by apply Permutation_nil_r in Hp. }
  rewrite HL. split_and!.
  - rewrite Hp. apply NoDup_elements.
  - intros k. rewrite Hp. apply elem_of_elements.
  - rewrite Hp. done.
  - intros E. apply len_0 in E. rewrite E, elements_empty in Hp.
    by apply Permutation_nil_r in Hp.
  - destruct (Add_keys order None h) as (s' & h' & HA & Hk).
    exists s', h'. split; [done|]. rewrite Hk. simpl.
    rewrite union_empty_l_L. by apply visits_list_to_set.
Qed.

Lemma StringSet_List_spec_witness :
  visits [{["a"]}] (Some 0%nat) ["a"] ∧
  List ["a"] [{["a"]}] (Some 0%nat) = ["a"] ∧
  NoDup (List ["a"] [{["a"]}] (Some 0%nat)).
Proof.
  assert (H : visits [{["a"]}] (Some 0%nat) ["a"]).
  { unfold visits. simpl. by rewrite elements_singleton. }
  split; [exact H|]. split; [vm_compute; reflexivity|].
  destruct (StringSet_List_spec ["a"] (Some 0%nat) [{["a"]}] H) as (HN & _).
  exact HN.
Defined.

End StringSetFacts.

(** ** The link collector *)

Section LinkFacts.

Context {errors : ErrorValues} {multierr : Multierr} {runtime : Runtime}.
Context {neturl : NetUrl} {web : Web}.

Lemma Node_children_ind (P : html.Node → Prop) :
  (∀ ty data attrs children,
     Forall P children → P (html.mkNode ty data attrs children)) →
  ∀ n, P n.
Proof.
  intros H. fix IH 1. intros [ty data attrs children]. apply H.
  induction children as [|c cs IHcs]; constructor; [apply IH | apply IHcs].
Qed.

Lemma valid_mono h h' r : valid h r → (length h <= length h')%nat → valid h' r.
Proof. destruct r as [a|]; simpl; [lia | done]. Qed.

Lemma keys_invalid h r : ¬ valid h r → StringSet.keys h r = ∅.
Proof.
  destruct r as [a|]; simpl; [|done]. intros Hn.
  by rewrite lookup_ge_None_2 by lia.
Qed.

Lemma extends_refl h found : valid h found → extends h found ∅ h found.
Proof.
  intros Hv. split; try done; [by rewrite union_empty_r_L | by left].
Qed.

Lemma extends_trans h found X1 h1 found1 X2 h2 found2 :
  extends h found X1 h1 found1 → extends h1 found1 X2 h2 found2 →
  extends h found (X1 ∪ X2) h2 found2.
Proof.
  intros [K1 L1 V1 F1 R1] [K2 L2 V2 F2 R2]. split.
  - by rewrite K2, K1, (assoc_L (∪)).
  - lia.
  - done.
  - intros r Hr Hne.
    rewrite F2 by (by eauto using valid_mono).
    destruct (decide (r = found1)) as [Heq|Hne1]; [|by apply F1]. subst r.
    destruct R2 as [Heq2|[_ Hempty]]; [by subst|].
    destruct R1 as [Heq1|[Hn1 _]]; [subst found1|done].
    rewrite Hempty. rewrite K1 in Hempty.
    by apply empty_union_L in Hempty as [-> _].
  - destruct R2 as [->|[Hn2 He2]]; [|right].
    + destruct R1 as [->|[Hn1 He1]]; [by left | by right].
    + split; [intros Hv; apply Hn2; by eauto using valid_mono|].
      rewrite K1 in He2. by apply empty_union_L in He2 as [-> _].
Qed.

Lemma AddSet_in_extends order found h found' h' :
  valid h found →
  StringSet.AddSet_in order found h = Some (found', h') →
  extends h found (list_to_set order) h' found'.
Proof.
  intros Hv HA.
  destruct (StringSetFacts.AddSet_in_spec order found h)
    as (s1 & h1 & HA1 & Hz & Hnz & Hk).
  rewrite HA in HA1. injection HA1 as <- <-.
  destruct (decide (StringSet.len h found = 0%nat)) as [E|E].
  - destruct (Hz E) as [-> ->]. split.
    + by rewrite Hk, decide_True.
    + rewrite length_app. lia.
    + simpl. rewrite length_app. simpl. lia.
    + intros r Hr Hne. by rewrite Hk, decide_False.
    + right. split; [simpl; lia | by apply StringSetFacts.len_0].
  - destruct (Hnz E) as [-> Hl]. split.
    + by rewrite Hk, decide_True.
    + lia.
    + eapply valid_mono; [done | lia].
    + intros r Hr Hne. by rewrite Hk, decide_False.
    + by left.
Qed.

Lemma attr_loop_extends attrs found h :
  valid h found →
  ∃ found' h', attr_loop attrs found h = Some (found', h') ∧
    extends h found (from_option singleton ∅ (link_of attrs)) h' found'.
Proof.
  intros Hv. unfold link_of.
  induction attrs as [|a rest IH]; simpl.
  - eexists _, _. split; [done|]. by apply extends_refl.
  - destruct (is_link a); simpl; [|done].
    destruct (url_Parse (html.Val a)) as [u|]; simpl.
    + destruct (StringSetFacts.AddSet_in_spec [url_String (url_clear u)]
                  found h) as (s1 & h1 & HA & _).
      exists s1, h1. split; [done|].
      apply AddSet_in_extends in HA; [|done]. simpl in HA.
      by rewrite union_empty_r_L in HA.
    + eexists _, _. split; [done|]. by apply extends_refl.
Qed.

Lemma parseLinks_extends n found h :
  valid h found →
  ∃ found' h', parseLinks n found h = Some (found', h') ∧
    extends h found (links_of n) h' found'.
Proof.
  revert found h.
  induction n as [ty data attrs children IH] using Node_children_ind.
  intros found h Hv.
  assert (∃ found1 h1 X1,
    match ty with
    | html.ElementNode =>
        if decide (data = "a") then attr_loop attrs found h
        else Some (found, h)
    | _ => Some (found, h)
    end = Some (found1, h1) ∧
    extends h found X1 h1 found1 ∧
    links_of (html.mkNode ty data attrs children) =
      X1 ∪ ⋃ (map links_of children))
    as (found1 & h1 & X1 & Hown & Hext1 & ->).
  { destruct ty;
      try (eexists _, _, ∅; split_and!; [done | by apply extends_refl | done]).
    simpl. destruct (decide (data = "a")).
    - destruct (attr_loop_extends attrs found h Hv) as (f1 & h1 & ? & ?).
      by eexists _, _, _.
    - eexists _, _, ∅; split_and!; [done | by apply extends_refl | done]. }
  simpl. rewrite Hown. simpl. clear Hown.
  revert found1 h1 X1 Hext1.
  induction IH as [|c cs Hc _ IHcs]; intros found1 h1 X1 Hext1.
  - eexists _, _. split; [done|]. simpl. by rewrite union_empty_r_L.
  - destruct (Hc found1 h1) as (found2 & h2 & Hp & Hext2);
      [apply (ext_valid _ _ _ _ _ Hext1)|].
    rewrite Hp. simpl.
    destruct (IHcs found2 h2 (X1 ∪ links_of c)) as (found3 & h3 & Hs & Hext3);
      [by eapply extends_trans|].
    exists found3, h3. split; [done|].
    simpl. by rewrite (assoc_L (∪)).
Qed.

End LinkFacts.
Section SitesFacts.

Context {errors : ErrorValues} {multierr : Multierr} {runtime : Runtime}.
Context {neturl : NetUrl} {web : Web}.

Lemma slots_ok_start urls h0 :
  slots_ok urls h0 h0 [] (replicate (length urls) None).
Proof.
  split.
  - by rewrite length_replicate.
  - done.
  - done.
  - intros j slot u Hj _. apply lookup_replicate_1 in Hj as [-> _].
    split_and!; [done | done |].
    case_decide as E; [by apply elem_of_nil in E | done].
  - intros j k a _ Hj _. by apply lookup_replicate_1 in Hj as [? _].
Qed.

Lemma slots_ok_failed urls h0 h called results i u err :
  slots_ok urls h0 h called results →
  0 <= i → urls !! Z.to_nat i = Some u → fetch u = inl err →
  slots_ok urls h0 h (i :: called) results.
Proof.
  intros [Hlen Hmono Hold Hslot Hdist] Hi Hu Hf. split; try done.
  intros j slot v Hj Hv. destruct (Hslot j slot v Hj Hv) as (H1 & H2 & H3).
  split_and!; [done | done |]. rewrite H3.
  destruct (decide (Z.of_nat j = i)) as [<-|Hne].
  - rewrite Nat2Z.id in Hu. simplify_eq.
    rewrite (decide_True (P := _ ∈ _ :: _)) by left.
    unfold page_links. rewrite Hf. by case_decide.
  - destruct (decide (Z.of_nat j ∈ called)).
    + rewrite decide_True; [done | by right].
    + rewrite decide_False; [done|]. rewrite not_elem_of_cons. done.
Qed.

Lemma slots_ok_parsed urls h0 h called results i u doc slot found h' :
  slots_ok urls h0 h called results →
  0 <= i → urls !! Z.to_nat i = Some u → fetch u = inr doc →
  results !! Z.to_nat i = Some slot →
  extends h slot (links_of doc) h' found →
  slots_ok urls h0 h' (i :: called) (<[Z.to_nat i := found]> results).
Proof.
  intros [Hlen Hmono Hold Hslot Hdist] Hi Hu Hf Hs [K L V F R].
  destruct (Hslot _ _ _ Hs Hu) as (Hv & Hnew & Hkeys).
  assert (Hfresh : found ≠ None → ¬ valid h0 found).
  { intros Hne Hv0. destruct R as [Heq|[Hn _]]; [subst found; by apply Hnew|].
    apply Hn. by eapply valid_mono. }
  assert (Hother : ∀ k r, k ≠ Z.to_nat i → results !! k = Some r →
            valid h r → StringSet.keys h' r = StringSet.keys h r).
  { intros k r Hk Hr Hvr. destruct r as [a|]; [|done].
    apply F; [done|]. intros Heq. subst found.
    destruct R as [Heq|[Hn _]]; [|done]. subst slot.
    by eapply (Hdist k (Z.to_nat i) a). }
  split.
  - by rewrite length_insert.
  - lia.
  - intros r Hr. rewrite <- (Hold r Hr). destruct r as [a|]; [|done].
    apply F; [by eapply valid_mono|]. intros Heq. subst found.
    by apply Hfresh.
  - intros j s v Hj Hv'.
    destruct (decide (j = Z.to_nat i)) as [->|Hne].
    + rewrite list_lookup_insert_eq in Hj by (by eapply lookup_lt_Some).
      simplify_eq. split_and!; [done | done |].
      rewrite decide_True by (rewrite Z2Nat.id by lia; left).
      rewrite K, Hkeys. unfold page_links. rewrite Hf.
      case_decide; [by rewrite union_idemp_L | by rewrite union_empty_l_L].
    + rewrite list_lookup_insert_ne in Hj by done.
      destruct (Hslot j s v Hj Hv') as (H1 & H2 & H3).
      split_and!; [by eapply valid_mono | done |].
      rewrite (Hother j s) by done. rewrite H3.
      destruct (decide (Z.of_nat j ∈ called)).
      * rewrite decide_True; [done | by right].
      * rewrite decide_False; [done|]. rewrite not_elem_of_cons. split; [lia | done].
  - intros j k a Hjk Hj Hk.
    assert (Hclash : ∀ k, k ≠ Z.to_nat i → found = Some a →
              results !! k = Some (Some a) → False).
    { intros k' Hk' Heq Hr. subst found.
      assert (valid h (Some a)).
      { assert (is_Some (urls !! k')) as [v Hv'].
        { apply lookup_lt_is_Some. rewrite <- Hlen. by eapply lookup_lt_Some. }
        by destruct (Hslot _ _ _ Hr Hv'). }
      destruct R as [Heq|[Hn _]]; [|done]. subst slot.
      by eapply (Hdist k' (Z.to_nat i) a). }
    destruct (decide (j = Z.to_nat i)) as [->|Hj'];
      destruct (decide (k = Z.to_nat i)) as [->|Hk']; try done.
    + rewrite list_lookup_insert_eq in Hj by (by eapply lookup_lt_Some).
      rewrite list_lookup_insert_ne in Hk by done. simplify_eq.
      exact (Hclash k Hk' eq_refl Hk).
    + rewrite list_lookup_insert_eq in Hk by (by eapply lookup_lt_Some).
      rewrite list_lookup_insert_ne in Hj by done. simplify_eq.
      exact (Hclash j Hj' eq_refl Hj).
    + rewrite list_lookup_insert_ne in Hj, Hk by done.
      exact (Hdist j k a Hjk Hj Hk).
Qed.

Lemma replay_links urls h0 tr :
  (∀ u i, (u, i) ∈ calls tr → 0 <= i < Z.of_nat (length urls)) →
  ∃ results h,
    replay (HTMLLinks_write urls) tr (replicate (length urls) None, h0) =
      Some (results, h) ∧
    slots_ok urls h0 h (calls tr).*2 results.
Proof.
  intros Hr. induction tr as [|e tr IH].
  - eexists _, _. split; [done|]. apply slots_ok_start.
  - destruct IH as (results & h & Hres & Hok).
    { intros u i Hin. apply (Hr u i). rewrite calls_cons.
      destruct e; try done. by right. }
    rewrite calls_cons. simpl replay. rewrite Hres. simpl mbind.
    destruct e as [| u i | | | |]; try by (exists results, h).
    destruct (Hr u i) as [Hi0 Hi1]; [rewrite calls_cons; by left|].
    unfold HTMLLinks_write. rewrite decide_True by done.
    destruct (lookup_lt_is_Some_2 urls (Z.to_nat i)) as [v Hv]; [lia|].
    rewrite Hv. simpl.
    destruct (fetch v) as [err|doc] eqn:Hf.
    + exists results, h. split; [done|].
      by eapply (slots_ok_failed _ _ _ _ _ i).
    + destruct (lookup_lt_is_Some_2 results (Z.to_nat i)) as [slot Hslot].
      { rewrite (so_len _ _ _ _ _ Hok). lia. }
      rewrite Hslot. simpl.
      destruct (so_slot _ _ _ _ _ Hok _ _ _ Hslot Hv) as (Hvalid & _).
      destruct (parseLinks_extends doc slot h Hvalid)
        as (found & h' & Hp & Hext).
      rewrite Hp. simpl. eexists _, _. split; [done|].
      by eapply (slots_ok_parsed _ _ _ _ _ i).
Qed.

Lemma AddSet_extends strs s h :
  valid h s →
  ∃ s' h', StringSet.AddSet strs s h = Some (s', h') ∧
           extends h s (StringSet.keys h strs) h' s'.
Proof.
  intros Hv. unfold StringSet.AddSet.
  destruct (StringSetFacts.AddSet_in_spec
              (elements (StringSet.keys h strs)) s h) as (s' & h' & HA & _).
  exists s', h'. split; [done|].
  apply AddSet_in_extends in HA; [|done].
  by rewrite list_to_set_elements_L in HA.
Qed.

Lemma gather_from results h rs h1 X :
  gathered h X h1 rs → Forall (valid h) results →
  ∃ links h',
    foldl (λ acc res, '(resultSet, h1) ← acc;
                      StringSet.AddSet res resultSet h1)
          (Some (rs, h1)) results = Some (links, h') ∧
    gathered h (X ∪ ⋃ (map (StringSet.keys h) results)) h' links.
Proof.
  intros Hg Hall. revert rs h1 X Hg.
  induction Hall as [|res results Hres _ IH]; intros rs h1 X Hg.
  - exists rs, h1. split; [done|]. simpl. by rewrite union_empty_r_L.
  - destruct Hg as [K L V N F].
    destruct (AddSet_extends res rs h1 V) as (s' & h2 & HA & [K2 L2 V2 F2 R2]).
    simpl. rewrite HA.
    assert (Hfresh : s' ≠ None → ¬ valid h s').
    { intros Hne Hv. destruct R2 as [Heq|[Hn _]]; [subst s'; by apply N|].
      apply Hn. by eapply valid_mono. }
    destruct (IH s' h2 (X ∪ StringSet.keys h res)) as (links & h' & Hf & Hg').
    { split; try done.
      - by rewrite K2, K, F.
      - lia.
      - intros r Hr. rewrite <- (F r Hr). destruct r as [a|]; [|done].
        apply F2; [by eapply valid_mono|]. intros Heq. subst s'.
        by apply Hfresh. }
    exists links, h'. split; [done|].
    by rewrite (assoc_L (∪)).
Qed.

Lemma gather_spec results h :
  Forall (valid h) results →
  ∃ links h', gather results h = Some (links, h') ∧
    gathered h (⋃ (map (StringSet.keys h) results)) h' links.
Proof.
  intros Hall.
  destruct (gather_from results h None h ∅) as (links & h' & Hf & Hg);
    [by split | done |].
  exists links, h'. split; [done|]. by rewrite union_empty_l_L in Hg.
Qed.

(** The errors [HTMLLinks_fn] returns are the errors of the pages. *)
Lemma failures_web urls :
  failures (replicate (length urls) (HTMLLinks_fn urls)) = web_errors urls.
Proof.
  unfold failures, web_errors.
  transitivity
    (omap id (map (λ u, match fetch u with
                        | inl err => Some err
                        | inr _ => None
                        end) urls)).
  - f_equal. apply list_eq. intros j.
    rewrite list_lookup_imap, list_lookup_fmap.
    destruct (urls !! j) as [u|] eqn:Hu; simpl.
    + rewrite lookup_replicate_2 by (by eapply lookup_lt_Some). simpl.
      unfold HTMLLinks_fn. by rewrite Nat2Z.id, Hu.
    + rewrite (proj1 (lookup_replicate_None _ _ _)); [done|].
      by apply lookup_ge_None.
  - generalize (λ u, match fetch u with
                     | inl err => Some err
                     | inr _ => None
                     end).
    intros g. induction urls as [|u urls IH]; [done|].
    simpl. destruct (g u); [f_equal|]; exact IH.
Qed.

(** What [HTMLLinks] hands back once its [Do] has returned. *)
Lemma HTMLLinks_return_spec urls h0 s0 s err :
  Func_Do (HTMLLinks_fn urls) (Z.of_nat (length urls)) [5] [] = Spawns s0 →
  reachable s0 s → returned s = Some err →
  ∃ links h',
    HTMLLinks_return urls h0 s = Some (links, err, h') ∧
    gathered h0 (web_links urls) h' links ∧
    ∃ stored, stored ≡ₚ web_errors urls ∧
      err = match stored with [] => None | _ => Combine stored end.
Proof.
  intros Hs Hr Hret. pose proof (doOne_inv _ _ _ _ _ _ Hs Hr) as Hi.
  rewrite Nat2Z.id in Hi.
  pose proof (returned_quiescent _ _ _ _ _ _ doOne_proper Hi Hret) as Hq.
  pose proof (Func_Do_quiescent_past _ _ _ _ _ _ Hs Hr Hq) as Hpast.
  destruct (calls_fresh _ _ _ _ _ doOne_proper Hi) as (l & Hl & _ & Hel).
  simpl in Hl. rewrite app_nil_r in Hl.
  destruct (replay_links urls h0 (trace (sh s)))
    as (results & h & Hrep & Hok).
  { intros u i Hin. rewrite Hl in Hin. destruct (Hel u i Hin) as [-> Hu].
    rewrite length_replicate in Hu. lia. }
  destruct Hok as [Hlen Hmono Hold Hslot Hdist].
  assert (Hcalled : ∀ j, (j < length urls)%nat →
            Z.of_nat j ∈ (calls (trace (sh s))).*2).
  { intros j Hj. rewrite (calls_complete _ _ _ _ _ doOne_proper Hi).
    - simpl. rewrite app_nil_r. apply list_elem_of_fmap.
      exists (j, Z.of_nat j). split; [done|].
      apply (elem_of_lookup_imap_2 (λ u _, (u, Z.of_nat u)) _
               (HTMLLinks_fn urls) j).
      by apply lookup_replicate_2.
    - eapply Forall_impl; [exact Hpast|]. by intros g (? & _). }
  destruct (gather_spec results h) as (links & h' & Hg & [K L V N F]).
  { apply Forall_lookup. intros j slot Hj.
    destruct (lookup_lt_is_Some_2 urls j) as [u Hu].
    { rewrite <- Hlen. by eapply lookup_lt_Some. }
    by destruct (Hslot j slot u Hj Hu). }
  exists links, h'. split_and!.
  - unfold HTMLLinks_return. rewrite Hret. simpl. rewrite Hrep. simpl.
    by rewrite Hg.
  - split.
    + rewrite K. unfold web_links. f_equal. apply list_eq. intros j.
      rewrite !list_lookup_fmap.
      destruct (urls !! j) as [u|] eqn:Hu; simpl.
      * destruct (lookup_lt_is_Some_2 results j) as [slot Hj].
        { rewrite Hlen. by eapply lookup_lt_Some. }
        rewrite Hj. simpl. f_equal.
        destruct (Hslot j slot u Hj Hu) as (_ & _ & ->).
        rewrite decide_True; [done|]. apply Hcalled. by eapply lookup_lt_Some.
      * rewrite (lookup_ge_None_2 results); [done|].
        rewrite Hlen. by apply lookup_ge_None.
    + lia.
    + done.
    + intros Hne Hv. apply (N Hne). by eapply valid_mono.
    + intros r Hv. rewrite F by (by eapply valid_mono). by apply Hold.
  - destruct (inv_returned _ _ _ _ _ Hi err Hret) as [_ ->].
    destruct (result_complete _ _ _ _ _ doOne_proper Hi) as [Hp He].
    { eapply Forall_impl; [exact Hpast|]. by intros g (_ & _ & ?). }
    exists (Errors_List (heap (sh s)) (errs (sh s))). split.
    + by rewrite Hp, failures_web.
    + rewrite He. by destruct (Errors_List _ _).
Qed.

Lemma cap_of_5 : cap_of [5] = 5.
Proof. done. Qed.

Lemma Func_Do_Returns fn count maxParallel tr r :
  Func_Do fn count maxParallel tr = Returns r → count = 0 ∧ r = None.
Proof.
  unfold Func_Do. destruct (Z.eqb_spec count 0); [by intros [= <-]|].
  destruct (count <? 0); [done|].
  by destruct (Semaphore.NewSemaphore _).
Qed.

Lemma HTMLLinks_return_returned urls h0 s links err h' :
  HTMLLinks_return urls h0 s = Some (links, err, h') → returned s = Some err.
Proof.
  unfold HTMLLinks_return. destruct (returned s) as [r|]; [|done]. simpl.
  destruct (replay _ _ _) as [[results h]|]; [|done]. simpl.
  destruct (gather _ _) as [[rs h1]|]; [|done]. simpl. by intros [= <- <- <-].
Qed.

Lemma HTMLLinks_spec urls h0 links err h' :
  HTMLLinks urls h0 links err h' →
  gathered h0 (web_links urls) h' links ∧
  (urls = [] → links = None ∧ h' = h0) ∧
  ∃ stored, stored ≡ₚ web_errors urls ∧
    err = match stored with [] => None | _ => Combine stored end.
Proof.
  unfold HTMLLinks.
  destruct (Func_Do _ _ _ _) as [r| |s0] eqn:Hdo; [|done|].
  - apply Func_Do_Returns in Hdo as [Hz ->].
    assert (urls = []) as -> by (apply length_zero_iff_nil; lia).
    intros [[= <- <-] ->]. split_and!; [by split | done |].
    by exists [].
  - intros (s & Hr & Hret).
    pose proof (HTMLLinks_return_returned _ _ _ _ _ _ Hret) as Hsome.
    destruct (HTMLLinks_return_spec urls h0 s0 s err Hdo Hr Hsome)
      as (links1 & h1 & Hret1 & Hg & Herr).
    rewrite Hret1 in Hret. injection Hret as <- <-.
    split_and!; [done | | done].
    intros ->. apply Func_Do_spawns in Hdo as [Hpos _]. simpl in Hpos. lia.
Qed.

(** X15.  [parseLinks(n, found)] never panics and returns [found] with the
    links of the document added: an [a] element contributes the cleared
    URL of its first attribute that passes the test, if that parses, and
    the children are walked in order.  The result is the map [found]
    itself, written to in place, or a newly allocated map if [found] was
    empty or nil; no other set changes. *)
Theorem parseLinks_collects n found h :
  valid h found →
  ∃ found' h', parseLinks n found h = Some (found', h') ∧
    StringSet.keys h' found' = StringSet.keys h found ∪ links_of n ∧
    valid h' found' ∧
    (found' = found ∨
     StringSet.len h found = 0%nat ∧ ¬ valid h found') ∧
    (∀ r, valid h r → r ≠ found' →
       StringSet.keys h' r = StringSet.keys h r).
Proof.
  intros Hv.
  destruct (parseLinks_extends n found h Hv) as (found' & h' & Hp & [K L V F R]).
  exists found', h'. split_and!; try done.
  destruct R as [->|[Hn He]]; [by left | right].
  split; [by apply StringSetFacts.len_0 | done].
Qed.

(** X16.  Of the attributes of an [a] element only the first that passes
    the test counts: when it parses, its cleared URL is added and the later
    attributes are not looked at; when it does not parse, nothing is added,
    whatever the later attributes are.  As [&&] binds tighter than [||],
    the test passes a value that starts with [https:] under any key, and a
    value that starts with [http:] under the key [href] only. *)
Theorem attr_loop_first_match pre a post found h :
  Forall (λ b, is_link b = false) pre → is_link a = true →
  attr_loop (pre ++ a :: post) found h =
    match url_Parse (html.Val a) with
    | None => Some (found, h)
    | Some u => StringSet.Add [url_String (url_clear u)] found h
    end ∧
  (∀ key val, String.prefix "https:" val = true →
     is_link (html.mkAttribute key val) = true) ∧
  (∀ key val, String.prefix "https:" val = false →
     (is_link (html.mkAttribute key val) = true ↔
      key = "href" ∧ String.prefix "http:" val = true)).
Proof.
  intros Hpre Ha. split_and!.
  - induction Hpre as [|b pre Hb _ IH]; simpl; [by rewrite Ha | by rewrite Hb].
  - intros key val Hp. unfold is_link. simpl. rewrite Hp.
    by rewrite orb_true_r.
  - intros key val Hp. unfold is_link. simpl. rewrite Hp, orb_false_r.
    rewrite andb_true_iff, bool_decide_eq_true. done.
Qed.

(** X17.  When [HTMLLinks(urls...)] returns, [links] holds exactly the
    links of the pages that could be fetched and parsed, [err] is nil if
    every page could and otherwise the combination of exactly the errors of
    the others, and no set that existed before the call has changed.
    Without urls both results are nil. *)
Theorem HTMLLinks_collects urls h0 links err h' :
  HTMLLinks urls h0 links err h' →
  StringSet.keys h' links = web_links urls ∧
  (∃ stored, stored ≡ₚ web_errors urls ∧
     err = match stored with [] => None | _ => Combine stored end) ∧
  (urls = [] → links = None ∧ err = None ∧ h' = h0) ∧
  (∀ r, valid h0 r → StringSet.keys h' r = StringSet.keys h0 r).
Proof.
  intros H. destruct (HTMLLinks_spec _ _ _ _ _ H) as ([K L V N F] & Hnil & Herr).
  split_and!; try done.
  intros ->. destruct (Hnil eq_refl) as [-> ->].
  destruct Herr as (stored & Hp & ->). simpl in Hp.
  apply Permutation_nil_r in Hp as ->. done.
Qed.

Lemma HTMLLinks_at_most_five urls h0 links err h' :
  HTMLLinks urls h0 links err h' → (length urls <= 5)%nat.
Proof.
  unfold HTMLLinks. intros H.
  destruct (Func_Do _ _ _ _) as [r| |s0] eqn:Hdo; [|done|].
  - apply Func_Do_Returns in Hdo as [Hz _]. lia.
  - destruct H as (s & Hr & Hret).
    apply HTMLLinks_return_returned in Hret.
    destruct (decide (length urls <= 5)%nat) as [|Hgt]; [done|].
    destruct (Func_Do_waits _ _ _ _ _ _ Hdo Hr) as [Hnone _];
      [rewrite cap_of_5; lia|].
    by rewrite Hnone in Hret.
Qed.

Lemma HTMLLinks_returns urls h0 :
  (length urls <= 5)%nat → ∃ links err h', HTMLLinks urls h0 links err h'.
Proof.
  intros Hle. unfold HTMLLinks.
  destruct (Func_Do _ _ _ _) as [r| |s0] eqn:Hdo.
  - by exists None, r, h0.
  - unfold Func_Do in Hdo. destruct (Z.eqb_spec (Z.of_nat (length urls)) 0);
      [done|]. destruct (Z.ltb_spec (Z.of_nat (length urls)) 0); [lia|].
    by rewrite cap_of_5 in Hdo.
  - destruct (reaches_quiescent s0) as (s & Hr & Hq).
    destruct (Func_Do_returns _ _ _ _ _ _ Hdo Hr) as [r Hret];
      [rewrite cap_of_5; lia | done |].
    destruct (HTMLLinks_return_spec urls h0 s0 s r Hdo Hr Hret)
      as (links & h' & Hret' & _).
    exists links, r, h'. by exists s.
Qed.

(** X18.  [HTMLLinks] runs its task by [fn.Do(nSites, 5)], so it returns
    for at most five urls only: with six or more, no run of it ever
    returns. *)
Theorem HTMLLinks_returns_iff urls h0 :
  (∃ links err h', HTMLLinks urls h0 links err h') ↔ (length urls <= 5)%nat.
Proof.
  split.
  - intros (links & err & h' & H). by eapply HTMLLinks_at_most_five.
  - apply HTMLLinks_returns.
Qed.

(** *** [Scrape] *)

Lemma List_visits order h s :
  StringSet.visits h s order → StringSet.List order h s = order.
Proof.
  unfold StringSet.visits, StringSet.List. intros Hp.
  rewrite StringSetFacts.foldl_snoc. simpl. case_decide as E; [|done].
  apply StringSetFacts.len_0 in E. rewrite E, elements_empty in Hp.
  by apply Permutation_nil_r in Hp.
Qed.

Lemma List_length order h s :
  StringSet.visits h s order →
  length (StringSet.List order h s) = size (StringSet.keys h s).
Proof.
  intros Hv. rewrite (List_visits _ _ _ Hv). unfold StringSet.visits in Hv.
  by rewrite Hv.
Qed.

Lemma Scrape_inv maxDepth urls h result h3 :
  Scrape maxDepth urls h result h3 →
  maxDepth = 0 ∧ result = None ∧ h3 = h ∨
  maxDepth ≠ 0 ∧
  ∃ links err h1 order more h2,
    HTMLLinks urls h links err h1 ∧
    StringSet.visits (StringSet.remove_all links urls h1) links order ∧
    Scrape (wrap_int (maxDepth - 1))
           (StringSet.List order (StringSet.remove_all links urls h1) links)
           (StringSet.remove_all links urls h1) more h2 ∧
    StringSet.AddSet more links h2 = Some (result, h3).
Proof.
  intros H. destruct H as [urls h|d urls h links err h1 order more h2 result h3
                             Hd HL removed Hv Hs HA].
  - by left.
  - right. split; [done|].
    by exists links, err, h1, order, more, h2.
Qed.

Lemma Scrape_gathered maxDepth urls h result h3 :
  Scrape maxDepth urls h result h3 →
  gathered h (StringSet.keys h3 result) h3 result.
Proof.
  induction 1 as [urls h|d urls h links err h1 order more h2 result h3
                  Hd HL removed Hv Hs IH HA].
  - by split.
  - destruct (HTMLLinks_spec _ _ _ _ _ HL) as ([K L V N F] & _).
    destruct (StringSetFacts.remove_all_spec urls links h1) as [Hlen Hk].
    subst removed. unfold StringSet.Remove in *. simpl in *.
    set (h1r := StringSet.remove_all links urls h1) in *.
    destruct IH as [_ L2 V2 N2 F2].
    assert (Hvl : valid h2 links) by (eapply valid_mono; [exact V | lia]).
    destruct (AddSet_extends more links h2 Hvl)
      as (s' & h' & HA' & [K3 L3 V3 F3 R3]).
    rewrite HA in HA'. injection HA' as <- <-.
    assert (Hfresh : result ≠ None → ¬ valid h result).
    { intros Hne Hvr. destruct R3 as [Heq|[Hn _]]; [subst result; by apply N|].
      apply Hn. eapply valid_mono; [done | lia]. }
    split.
    + done.
    + lia.
    + done.
    + done.
    + intros r Hr. destruct r as [a|]; [|done].
      rewrite F3.
      * rewrite F2 by (eapply valid_mono; [done | lia]).
        rewrite Hk. rewrite decide_False; [by apply F|].
        intros Heq. subst links. by apply N.
      * eapply valid_mono; [done | lia].
      * intros Heq. subst result. by apply Hfresh.
Qed.

(** X19.  What a returning [Scrape(maxDepth, urls...)] returns.  At depth
    0 it is nil, and nothing was fetched.  At any other depth there were at
    most five urls, and the result has every link of their pages that is
    not one of the urls; at depth 1 it has nothing else.  At a depth other
    than 0 and 1 these links are fetched in turn in one call of
    [HTMLLinks], so there were at most five of them.  No set that existed
    before the call has changed. *)
Theorem Scrape_returns_spec maxDepth urls h result h' :
  Scrape maxDepth urls h result h' →
  - 2 ^ 63 <= maxDepth < 2 ^ 63 →
  (maxDepth = 0 → result = None ∧ h' = h) ∧
  (maxDepth ≠ 0 →
     (length urls <= 5)%nat ∧
     web_links urls ∖ list_to_set urls ⊆ StringSet.keys h' result) ∧
  (maxDepth = 1 →
     StringSet.keys h' result = web_links urls ∖ list_to_set urls) ∧
  (maxDepth ≠ 0 → maxDepth ≠ 1 →
     (size (web_links urls ∖ list_to_set urls) <= 5)%nat) ∧
  (∀ r, valid h r → StringSet.keys h' r = StringSet.keys h r).
Proof.
  intros HS Hrange.
  assert (Hdeep : ∀ d us h0 res h3, Scrape d us h0 res h3 → d ≠ 0 →
    (length us <= 5)%nat ∧
    ∃ links h1 order more h2,
      let h1r := StringSet.remove_all links us h1 in
      StringSet.keys h1r links = web_links us ∖ list_to_set us ∧
      StringSet.visits h1r links order ∧
      Scrape (wrap_int (d - 1)) (StringSet.List order h1r links) h1r more h2 ∧
      StringSet.keys h3 res =
        web_links us ∖ list_to_set us ∪ StringSet.keys h2 more).
  { intros d us h0 res h3 Hsc Hd.
    destruct (Scrape_inv _ _ _ _ _ Hsc)
      as [[? _]|(_ & links & err & h1 & order & more & h2 & HL & Hv & Hs & HA)];
      [done|].
    split; [by eapply HTMLLinks_at_most_five|].
    destruct (HTMLLinks_spec _ _ _ _ _ HL) as ([K L V N F] & _).
    destruct (StringSetFacts.remove_all_spec us links h1) as [Hlen Hk].
    pose proof (Scrape_gathered _ _ _ _ _ Hs) as [_ L2 V2 N2 F2].
    assert (Hvr : valid (StringSet.remove_all links us h1) links)
      by (eapply valid_mono; [exact V | lia]).
    assert (Hvl : valid h2 links) by (eapply valid_mono; [exact Hvr | lia]).
    destruct (AddSet_extends more links h2 Hvl)
      as (s' & h4 & HA' & [K3 L3 V3 F3 R3]).
    rewrite HA in HA'. injection HA' as <- <-.
    assert (Hkr : StringSet.keys (StringSet.remove_all links us h1) links =
                  web_links us ∖ list_to_set us).
    { by rewrite Hk, decide_True, K. }
    exists links, h1, order, more, h2. simpl. split_and!; try done.
    by rewrite K3, (F2 links Hvr), Hkr. }
  split_and!.
  - intros ->. destruct (Scrape_inv _ _ _ _ _ HS) as [(_ & ? & ?)|[? _]]; done.
  - intros Hd. destruct (Hdeep _ _ _ _ _ HS Hd)
      as (Hle & links & h1 & order & more & h2 & _ & _ & _ & ->).
    split; [done|]. apply union_subseteq_l.
  - intros ->. destruct (Hdeep _ _ _ _ _ HS)
      as (_ & links & h1 & order & more & h2 & _ & _ & Hs & ->); [done|].
    change (wrap_int (1 - 1)) with 0 in Hs.
    destruct (Scrape_inv _ _ _ _ _ Hs) as [(_ & -> & _)|[? _]]; [|done].
    simpl. by rewrite union_empty_r_L.
  - intros Hd0 Hd1. destruct (Hdeep _ _ _ _ _ HS Hd0)
      as (_ & links & h1 & order & more & h2 & Hkr & Hv & Hs & _).
    simpl in Hkr, Hv, Hs.
    assert (Hw : wrap_int (maxDepth - 1) ≠ 0).
    { unfold wrap_int. intros Hw.
      destruct (decide (maxDepth = - 2 ^ 63)) as [->|Hmin]; [done|].
      rewrite Z.mod_small in Hw by lia. lia. }
    destruct (Hdeep _ _ _ _ _ Hs Hw) as [Hle _].
    rewrite (List_length _ _ _ Hv), Hkr in Hle. done.
  - apply (ga_frame _ _ _ _ (Scrape_gathered _ _ _ _ _ HS)).
Qed.

End SitesFacts.

(** A page with three anchors, one of them relative. *)
Lemma parseLinks_collects_witness :
  valid [] None ∧
  ∃ found' h',
    parseLinks (page [anchor "https://a"; anchor "/about"; anchor "http://b"])
               None [] = Some (found', h') ∧
    StringSet.keys h' found' = {["https://a"; "http://b"]}.
Proof.
  assert (H : valid [] None) by exact I.
  split; [exact H|].
  destruct (parseLinks_collects
              (page [anchor "https://a"; anchor "/about"; anchor "http://b"])
              None [] H) as (found' & h' & Hp & Hk & _).
  exists found', h'. split; [exact Hp|].
  rewrite Hk. vm_compute. reflexivity.
Defined.

(** An [a] element with a class, a source and a reference: the source comes
    first and passes the test. *)
Lemma attr_loop_first_match_witness :
  Forall (λ b, is_link b = false) [html.mkAttribute "class" "http:"] ∧
  is_link (html.mkAttribute "src" "https://cdn") = true ∧
  attr_loop ([html.mkAttribute "class" "http:"] ++
             html.mkAttribute "src" "https://cdn" ::
             [html.mkAttribute "href" "https://a"]) None [] =
    Some (Some 0%nat, [{["https://cdn"]}]).
Proof.
  assert (H1 : Forall (λ b, is_link b = false)
                 [html.mkAttribute "class" "http:"])
    by (repeat constructor).
  assert (H2 : is_link (html.mkAttribute "src" "https://cdn") = true)
    by reflexivity.
  split; [exact H1|]. split; [exact H2|].
  destruct (attr_loop_first_match [html.mkAttribute "class" "http:"]
              (html.mkAttribute "src" "https://cdn")
              [html.mkAttribute "href" "https://a"] None [] H1 H2) as (-> & _).
  vm_compute. reflexivity.
Defined.

(** [HTMLLinks("https://a", "https://x", "https://b")] *)
Lemma HTMLLinks_collects_witness :
  ∃ links err h',
    HTMLLinks sites [] links err h' ∧
    StringSet.keys h' links = web_links sites ∧
    err = Some 7%nat.
Proof.
  assert (H1 : Func_Do (HTMLLinks_fn sites) (Z.of_nat (length sites)) [5] [] =
               Spawns sites_start) by (vm_compute; reflexivity).
  assert (H2 : reachable sites_start sites_end) by apply run_reachable.
  destruct (HTMLLinks_return sites [] sites_end)
    as [[[links err] h']|] eqn:E; [|vm_compute in E; discriminate E].
  assert (H3 : HTMLLinks sites [] links err h').
  { unfold HTMLLinks. rewrite H1. exists sites_end. split; [exact H2 | exact E]. }
  exists links, err, h'. split; [exact H3|].
  destruct (HTMLLinks_collects sites [] links err h' H3) as (Hk & _).
  split; [exact Hk|].
  vm_compute in E. injection E as _ E _. symmetry. exact E.
Defined.

(** [Scrape(1, "https://b")] *)
Lemma Scrape_returns_spec_witness :
  ∃ result h',
    Scrape 1 ["https://b"] [] result h' ∧
    - 2 ^ 63 <= 1 < 2 ^ 63 ∧
    StringSet.keys h' result = {["https://a"]}.
Proof.
  destruct (HTMLLinks_returns ["https://b"] []) as (links & err & h1 & HL);
    [simpl; lia|].
  destruct (HTMLLinks_spec _ _ _ _ _ HL) as (Hg & _).
  destruct (StringSetFacts.remove_all_spec ["https://b"] links h1) as [Hlen _].
  destruct (AddSet_extends None links
              (StringSet.remove_all links ["https://b"] h1))
    as (result & h' & HA & _).
  { eapply valid_mono; [apply (ga_valid _ _ _ _ Hg) | lia]. }
  assert (HS : Scrape 1 ["https://b"] [] result h').
  { eapply (Scrape_deeper 1 ["https://b"] [] links err h1
              (elements (StringSet.keys
                 (StringSet.remove_all links ["https://b"] h1) links))
              None (StringSet.remove_all links ["https://b"] h1) result h').
    - done.
    - exact HL.
    - unfold StringSet.visits. simpl. reflexivity.
    - apply Scrape_done.
    - exact HA. }
  assert (HR : - 2 ^ 63 <= 1 < 2 ^ 63) by lia.
  exists result, h'. split; [exact HS|]. split; [exact HR|].
  destruct (Scrape_returns_spec 1 ["https://b"] [] result h' HS HR)
    as (_ & _ & H1 & _).
  rewrite (H1 eq_refl). vm_compute. reflexivity.
Defined.

(** ** What the two dispatchers leave behind *)

Section Aftermath.

Context {errors : ErrorValues} {multierr : Multierr} {runtime : Runtime}.

Ltac place Hg :=
  let n := fresh "n" in
  let Hn := fresh "Hn" in
  let Hp := fresh "Hpast" in
  let Hc := fresh "Hcode" in
  destruct (good_split _ _ Hg) as (n & Hn & Hp & Hc);
  rewrite ?code_doOp, ?code_doOne in Hn, Hp, Hc; simpl in Hn;
  do 7 (try (destruct n as [|n]; [cbn in Hp, Hc|])); [..|lia].

Lemma total_const f c (l : list goroutine) :
  Forall (λ g, f g = c) l → total f l = c * Z.of_nat (length l).
Proof. induction 1 as [|g l Hg _ IH]; simpl; [lia|]. rewrite IH, Hg. lia. Qed.

Lemma total_ext f1 f2 (l : list goroutine) :
  Forall (λ g, f1 g = f2 g) l → total f1 l = total f2 l.
Proof. induction 1 as [|g l Hg _ IH]; simpl; [done|]. by rewrite IH, Hg. Qed.

(** *** All tasks of [Func.Do] at once *)



(** *** Where [Func.Do] gets stuck *)

Lemma doOne_blocked g s :
  good doOne g → exec g s = None →
  (g_code g = [] ∧ holds g = 1 ∧ dones g = 1) ∨
  (g_code g = [IAcquire; IDone] ∧ holds g = 0 ∧ dones g = 0 ∧
   Semaphore.cap (sema s) <= Semaphore.len (sema s)).
Proof.
  intros Hg He. unfold holds, dones.
  destruct (exec_blocked _ _ He) as [Hc|[(k & Hc & Hfull)|(k & Hc & _)]];
    place Hg; rewrite Hcode in Hc; simplify_eq; rewrite Hpast; simpl; auto.
Qed.

(** X21.  Where [Func.Do] with more units than the cap ends up: when
    nothing can move any more, every task has been run and every error has
    been recorded, the semaphore is full, exactly as many goroutines as the
    cap allows have finished, and all the others are blocked in
    [sema.AcquireRelease()] with the wait group still at
    [count - cap]. *)
Theorem Func_Do_stuck_state fn count maxParallel tr s0 s :
  Func_Do fn count maxParallel tr = Spawns s0 →
  cap_of maxParallel < count →
  reachable s0 s → quiescent s →
  Forall (λ g, g_code g = [] ∨ g_code g = [IAcquire; IDone]) (gos s) ∧
  total dones (gos s) = cap_of maxParallel ∧
  Semaphore.len (sema (sh s)) = cap_of maxParallel ∧
  wg (sh s) = count - cap_of maxParallel ∧
  returned s = None ∧
  Errors_List (heap (sh s)) (errs (sh s)) ≡ₚ
    failures (replicate (Z.to_nat count) fn).
Proof.
  intros Hs Hlt Hr Hq. pose proof (doOne_inv _ _ _ _ _ _ Hs Hr) as Hi.
  destruct (Func_Do_waits _ _ _ _ _ _ Hs Hr Hlt) as [Hret Hwg].
  pose proof (proj1 (Func_Do_spawns _ _ _ _ _) Hs) as [Hpos _].
  pose proof (inv_good _ _ _ _ _ Hi) as Hgood.
  pose proof (inv_len _ _ _ _ _ Hi) as Hlen. rewrite length_replicate in Hlen.
  pose proof (quiescent_blocked _ Hq (inv_alive _ _ _ _ _ Hi)) as Hb.
  assert (Hcases : Forall (λ g,
    (g_code g = [] ∧ holds g = 1 ∧ dones g = 1) ∨
    (g_code g = [IAcquire; IDone] ∧ holds g = 0 ∧ dones g = 0 ∧
     Semaphore.cap (sema (sh s)) <= Semaphore.len (sema (sh s)))) (gos s)).
  { apply Forall_lookup. intros j g Hj.
    apply doOne_blocked;
      [exact (Forall_lookup_1 _ _ _ _ Hgood Hj)
      |exact (Forall_lookup_1 _ _ _ _ Hb Hj)]. }
  assert (Heq : total holds (gos s) = total dones (gos s)).
  { apply total_ext. eapply Forall_impl; [exact Hcases|].
    intros g [(_ & -> & ->)|(_ & -> & -> & _)]; done. }
  assert (Hd : Forall (λ g, 0 <= dones g <= 1) (gos s)).
  { eapply Forall_impl; [exact Hcases|].
    intros g [(_ & _ & ->)|(_ & _ & -> & _)]; lia. }
  pose proof (inv_wg _ _ _ _ _ Hi) as Hw.
  pose proof (inv_sema _ _ _ _ _ Hi) as Hsema.
  pose proof (inv_range _ _ _ _ _ Hi) as Hrange.
  pose proof (inv_cap _ _ _ _ _ Hi) as Hcap.
  assert (Hfull : Semaphore.len (sema (sh s)) = cap_of maxParallel).
  { destruct (total_not_full dones (gos s) Hd) as (j & g & Hj & Hg0); [lia|].
    pose proof (Forall_lookup_1 _ _ _ _ Hcases Hj) as [(_ & _ & ?)|(_ & _ & _ & ?)];
      lia. }
  split_and!; try done.
  - eapply Forall_impl; [exact Hcases|].
    intros g [(? & _)|(? & _)]; auto.
  - lia.
  - lia.
  - apply (store_complete _ _ _ _ _ Hi).
    eapply Forall_impl; [by eapply Func_Do_quiescent_past|].
    by intros g (_ & _ & ?).
Qed.

(** *** When [Do] has returned *)

(** X22.  When either [Do] has returned, every goroutine it started has
    finished, so nothing is left running behind the caller.  [Funcs.Do]
    leaves all tokens of its semaphore available again; [Func.Do] leaves
    [count] of them taken. *)
Theorem Do_returned_all_finished maxParallel tr s0 s r :
  reachable s0 s → returned s = Some r →
  (∀ fns, Funcs_Do fns maxParallel tr = Spawns s0 →
     Forall (λ g, g_code g = []) (gos s) ∧ wg (sh s) = 0 ∧
     Semaphore.len (sema (sh s)) = 0 ∧ running s = 0) ∧
  (∀ fn count, Func_Do fn count maxParallel tr = Spawns s0 →
     Forall (λ g, g_code g = []) (gos s) ∧ wg (sh s) = 0 ∧
     Semaphore.len (sema (sh s)) = count ∧ running s = 0).
Proof.
  intros Hr Hret. split.
  - intros fns Hs. pose proof (doOp_inv _ _ _ _ _ Hs Hr) as Hi.
    pose proof (returned_finished _ _ _ _ _ _ doOp_proper Hi Hret) as Hfin.
    destruct (inv_returned _ _ _ _ _ Hi r Hret) as [Hwg _].
    assert (Hall : Forall (λ g, holds g = 0 ∧ in_body g = 0) (gos s)).
    { apply Forall_lookup. intros j g Hj.
      pose proof (Forall_lookup_1 _ _ _ _ (inv_good _ _ _ _ _ Hi) Hj) as Hg.
      pose proof (Forall_lookup_1 _ _ _ _ Hfin Hj) as Hc. simpl in Hc.
      unfold holds, in_body.
      place Hg; rewrite Hcode in Hc; simplify_eq; by rewrite Hpast. }
    split_and!; [done | done | |].
    + rewrite (inv_sema _ _ _ _ _ Hi). apply total_zero.
      eapply Forall_impl; [exact Hall|]. by intros g [? _].
    + apply total_zero. eapply Forall_impl; [exact Hall|]. by intros g [_ ?].
  - intros fn count Hs. pose proof (doOne_inv _ _ _ _ _ _ Hs Hr) as Hi.
    pose proof (returned_finished _ _ _ _ _ _ doOne_proper Hi Hret) as Hfin.
    destruct (inv_returned _ _ _ _ _ Hi r Hret) as [Hwg _].
    apply Func_Do_spawns in Hs as [Hpos _].
    assert (Hall : Forall (λ g, holds g = 1 ∧ in_body g = 0) (gos s)).
    { apply Forall_lookup. intros j g Hj.
      pose proof (Forall_lookup_1 _ _ _ _ (inv_good _ _ _ _ _ Hi) Hj) as Hg.
      pose proof (Forall_lookup_1 _ _ _ _ Hfin Hj) as Hc. simpl in Hc.
      unfold holds, in_body.
      place Hg; rewrite Hcode in Hc; simplify_eq; by rewrite Hpast. }
    split_and!; [done | done | |].
    + rewrite (inv_sema _ _ _ _ _ Hi). rewrite (total_const holds 1).
      * rewrite (inv_len _ _ _ _ _ Hi), length_replicate. lia.
      * eapply Forall_impl; [exact Hall|]. by intros g [? _].
    + apply total_zero. eapply Forall_impl; [exact Hall|]. by intros g [_ ?].
Qed.

End Aftermath.



(** [oops.Do(3, 2)], stuck. *)
Lemma Func_Do_stuck_state_witness :
  Func_Do oops 3 [2] [] = Spawns three_start ∧
  cap_of [2] < 3 ∧
  reachable three_start three_end ∧ quiescent three_end ∧
  wg (sh three_end) = 3 - cap_of [2].
Proof.
  assert (H1 : Func_Do oops 3 [2] [] = Spawns three_start)
    by (vm_compute; reflexivity).
  assert (H2 : cap_of [2] < 3) by (vm_compute; reflexivity).
  assert (H3 : reachable three_start three_end) by apply run_reachable.
  assert (H4 : quiescent three_end)
    by (apply quiescentb_true; vm_compute; reflexivity).
  split; [exact H1|]. split; [exact H2|]. split; [exact H3|].
  split; [exact H4|].
  destruct (Func_Do_stuck_state oops 3 [2] [] three_start three_end
              H1 H2 H3 H4) as (_ & _ & _ & H & _).
  exact H.
Defined.

(** [Funcs{oops, fine, oops}.Do(2)], returned. *)
Lemma Do_returned_all_finished_witness :
  reachable set3_start set3_end ∧
  returned set3_end = Some (Some 2%nat) ∧
  Funcs_Do set3 [2] [] = Spawns set3_start ∧
  Semaphore.len (sema (sh set3_end)) = 0.
Proof.
  assert (H1 : reachable set3_start set3_end) by apply run_reachable.
  assert (H2 : returned set3_end = Some (Some 2%nat))
    by (vm_compute; reflexivity).
  assert (H3 : Funcs_Do set3 [2] [] = Spawns set3_start)
    by (vm_compute; reflexivity).
  split; [exact H1|]. split; [exact H2|]. split; [exact H3|].
  destruct (Do_returned_all_finished [2] [] set3_start set3_end _ H1 H2)
    as [H _].
  destruct (H set3 H3) as (_ & _ & H4 & _). exact H4.
Defined.
